(** * MinHeapTimer: an indexed binary min-heap of timer nodes

    Shallow embedding of [src/MinHeapTimer.hpp].

    - [std::vector<TNode*> _heap] is a [list addr]; [std::map<int,TNode*> _map]
      is a [gmap Z addr]; the node objects live in an explicit memory
      [mem : gmap addr TimerNode], so that the heap and the lookup table
      alias the same objects, as the pointers of the source do.
    - [new TNode()] is a bump allocator ([brk]): every object gets an
      address of its own and [delete] removes the object from [mem].
    - [int] identifiers are 32-bit two's complement integers ([wrap32]),
      [uint64_t] times are taken modulo 2^64 ([wrap64]).  Positions in the
      vector are [nat]: the vector is assumed to hold fewer than 2^30
      pointers, so the source's guard [left < 0] (overflow of [2*idx+1])
      never fires.
    - [TimeUtils::CurrentTime_ms] lives in [util_timer.hpp], which is not
      part of the sources: the clock is a parameter, the sequence of the
      values its successive calls return; [ticks] counts the calls.
    - [std::mutex mtx_] is a boolean; [lock] on a held mutex never returns
      ([Blocked]).
    - A callback is opaque: invoking it appends the node (its address and a
      snapshot of its fields) to the trace [fired].  Callbacks are assumed
      not to call back into the timer and not to write to the node.
    - [_count] is a static member, shared by the timers of one payload
      type; the model has one timer.
    - The calls are taken one after the other; the interleaving of threads
      is not modelled. *)

From Stdlib Require Import ZArith Lia Bool Sorted.
From stdpp Require Import base option list gmap fin_maps.

Local Open Scope Z_scope.

(** ** Machine integers *)

Definition INT_MAX : Z := 2147483647.
Definition INT_MIN : Z := -2147483648.

(** Conversion to [int]: two's complement on 32 bits. *)
Definition wrap32 (z : Z) : Z := (z + 2 ^ 31) mod 2 ^ 32 - 2 ^ 31.

(** Conversion to [uint64_t]. *)
Definition wrap64 (z : Z) : Z := z mod 2 ^ 64.

(** ** Outcomes of a call *)

Inductive outcome (A : Type) : Type :=
| Ret (a : A)    (* the call returns *)
| Blocked        (* the call waits for [mtx_] for ever *)
| OutOfFuel.     (* the loop did not finish within the given bound *)
Arguments Ret {A} a.
Arguments Blocked {A}.
Arguments OutOfFuel {A}.

Definition addr := nat.

Section Timer.

(** The payload type of [template<class T>]. *)
Context {T : Type}.

(** The clock: [clock k] is what the [k]-th call of
    [TimeUtils::CurrentTime_ms] returns. *)
Variable clock : nat -> Z.

(** ** struct TimerNode *)

Record TimerNode : Type := mkNode {
  idx : nat;             (* position in the heap vector *)
  id : Z;                (* timer identifier, an [int] *)
  expire_ms : Z;         (* absolute expiration time, [uint64_t] *)
  timing_time_ms : Z;    (* requested delay or period, [uint64_t] *)
  data : T;
  fb : bool;             (* does the [std::function] hold a callable? *)
  is_loop : bool
}.

Definition with_idx (i : nat) (n : TimerNode) : TimerNode :=
  mkNode i (id n) (expire_ms n) (timing_time_ms n) (data n) (fb n) (is_loop n).

(** ** class MinHeapTimer *)

Record MinHeapTimer : Type := mkTimer {
  mtx_ : bool;
  _heap : list addr;
  _map : gmap Z addr;
  _count : Z;
  mem : gmap addr TimerNode;
  brk : addr;
  ticks : nat;
  fired : list (addr * TimerNode)
}.

Definition init : MinHeapTimer := mkTimer false [] ∅ 0 ∅ 0%nat 0%nat [].

(** [static int Count() { return ++_count; }] *)
Definition Count (c : Z) : Z := wrap32 (c + 1).

(** [TimeUtils::CurrentTime_ms()] at the [k]-th call. *)
Definition CurrentTime_ms (k : nat) : Z := wrap64 (clock k).

(** *** Reading the vector and the nodes *)

(** [node->expire_ms] for the object at address [a]. *)
Definition expire_of (m : gmap addr TimerNode) (a : addr) : Z :=
  from_option expire_ms 0 (m !! a).

(** [_heap[i]->expire_ms]. *)
Definition key (h : list addr) (m : gmap addr TimerNode) (i : nat) : Z :=
  from_option (expire_of m) 0 (h !! i).

(** [_lessThan(lhs, rhs)] *)
Definition _lessThan (h : list addr) (m : gmap addr TimerNode) (lhs rhs : nat) : bool :=
  key h m lhs <? key h m rhs.

(** [std::swap(_heap[i], _heap[j])] *)
Definition swap (h : list addr) (i j : nat) : list addr :=
  match h !! i, h !! j with
  | Some x, Some y => <[i := y]> (<[j := x]> h)
  | _, _ => h
  end.

(** [_heap[i]->idx = i] *)
Definition store_idx (h : list addr) (m : gmap addr TimerNode) (i : nat)
  : gmap addr TimerNode :=
  match h !! i with
  | Some a => alter (with_idx i) a m
  | None => m
  end.

(** *** _shiftUp *)

Fixpoint shiftUp_loop (fuel pos : nat) (h : list addr) (m : gmap addr TimerNode)
  : list addr * gmap addr TimerNode :=
  match fuel with
  | O => (h, m)
  | S fuel' =>
      let parent := ((pos - 1) / 2)%nat in
      if (parent =? pos)%nat || negb (_lessThan h m pos parent) then (h, m)
      else
        let h1 := swap h parent pos in
        let m1 := store_idx h1 m parent in
        let m2 := store_idx h1 m1 pos in
        shiftUp_loop fuel' parent h1 m2
  end.

(** The position strictly decreases at every turn, so [S pos] turns are
    enough (see [shiftUp_loop_fuel] and [_shiftUp_unfold]). *)
Definition _shiftUp (pos : nat) (h : list addr) (m : gmap addr TimerNode)
  : list addr * gmap addr TimerNode :=
  shiftUp_loop (S pos) pos h m.

(** *** _shiftDown *)

Fixpoint shiftDown_loop (fuel last i : nat) (h : list addr)
  (m : gmap addr TimerNode) : nat * (list addr * gmap addr TimerNode) :=
  match fuel with
  | O => (i, (h, m))
  | S fuel' =>
      let left := (2 * i + 1)%nat in
      if (last <=? left)%nat then (i, (h, m))
      else
        let right := (left + 1)%nat in
        let min :=
          if (right <? last)%nat && negb (_lessThan h m left right)
          then right else left in
        if negb (_lessThan h m min i) then (i, (h, m))
        else
          let h1 := swap h i min in
          let m1 := store_idx h1 m i in
          let m2 := store_idx h1 m1 min in
          shiftDown_loop fuel' last min h1 m2
  end.

(** [last] is [_heap.size() - 1]: the last slot is not part of the heap
    that is repaired.  The position strictly increases and stays below
    [last], so [last] turns are enough (see [shiftDown_loop_fuel]). *)
Definition _shiftDown (pos : nat) (h : list addr) (m : gmap addr TimerNode)
  : bool * (list addr * gmap addr TimerNode) :=
  let last := (length h - 1)%nat in
  let r := shiftDown_loop last last pos h m in
  ((pos <? fst r)%nat, snd r).

(** [_heap.pop_back()] *)
Definition pop_back (h : list addr) : list addr := take (length h - 1) h.

(** *** _removeNode, _delNode *)

Definition _removeNode (a : addr) (s : MinHeapTimer) : MinHeapTimer :=
  let h := _heap s in
  let m := mem s in
  let last := (length h - 1)%nat in
  let i := from_option idx 0%nat (m !! a) in
  let hm :=
    if (i =? last)%nat then (h, m)
    else
      let h1 := swap h i last in
      let m1 := store_idx h1 m i in
      let r := _shiftDown i h1 m1 in
      if fst r then snd r else _shiftUp i (fst (snd r)) (snd (snd r)) in
  mkTimer (mtx_ s) (pop_back (fst hm))
          (delete (from_option id 0 (snd hm !! a)) (_map s))
          (_count s) (snd hm) (brk s) (ticks s) (fired s).

Definition _delNode (a : addr) (s : MinHeapTimer) : MinHeapTimer :=
  let s1 := _removeNode a s in
  mkTimer (mtx_ s1) (_heap s1) (_map s1) (_count s1) (delete a (mem s1))
          (brk s1) (ticks s1) (fired s1).

(** [_map.insert(std::make_pair(id, node))]: [std::map::insert] keeps the
    old entry when the key is already there. *)
Definition map_insert (k : Z) (a : addr) (mp : gmap Z addr) : gmap Z addr :=
  match mp !! k with
  | Some _ => mp
  | None => <[k := a]> mp
  end.

(** *** _addTimer *)

(** The last three statements of both [_addTimer]s: [push_back], [_shiftUp]
    of the last position and the insertion in [_map], on a state whose
    memory already holds the node at [a]. *)
Definition link (a : addr) (i : Z) (c : Z) (m : gmap addr TimerNode)
  (s : MinHeapTimer) : MinHeapTimer :=
  let h1 := _heap s ++ [a] in
  let hm := _shiftUp (length h1 - 1) h1 m in
  mkTimer (mtx_ s) (fst hm) (map_insert i a (_map s)) c (snd hm)
          (brk s) (S (ticks s)) (fired s).

(** [virtual int _addTimer(timing_time_ms, data, fb, is_loop)] *)
Definition _addTimer (timing : Z) (d : T) (f : bool) (lp : bool)
  (s : MinHeapTimer) : Z * MinHeapTimer :=
  let timeout_ms := wrap64 (CurrentTime_ms (ticks s) + timing) in
  let a := brk s in
  let i := Count (_count s) in
  let node := mkNode (length (_heap s)) i timeout_ms timing d f lp in
  let s1 := link a i i (<[a := node]> (mem s)) s in
  (i, mkTimer (mtx_ s1) (_heap s1) (_map s1) (_count s1) (mem s1)
              (S (brk s)) (ticks s1) (fired s1)).

(** [int _addTimer(TNode *node)] *)
Definition _addTimer_node (a : addr) (s : MinHeapTimer) : Z * MinHeapTimer :=
  let timing := from_option timing_time_ms 0 (mem s !! a) in
  let timeout_ms := wrap64 (CurrentTime_ms (ticks s) + timing) in
  let i := Count (_count s) in
  let upd n :=
    mkNode (length (_heap s)) i timeout_ms (timing_time_ms n) (data n)
           (fb n) (is_loop n) in
  (i, link a i i (alter upd a (mem s)) s).

Definition set_mtx (b : bool) (s : MinHeapTimer) : MinHeapTimer :=
  mkTimer b (_heap s) (_map s) (_count s) (mem s) (brk s) (ticks s) (fired s).

(** *** AddTimer *)

(** [int AddTimer(timing_time_ms, data, fb, is_loop = false)]: the
    [unique_lock] is taken on entry and released on return.  The two other
    overloads are this one with a zero-filled [data] (and [is_loop = false]
    for the first). *)
Definition AddTimer (timing : Z) (d : T) (f : bool) (lp : bool)
  (s : MinHeapTimer) : outcome (Z * MinHeapTimer) :=
  if mtx_ s then Blocked
  else
    let r := _addTimer timing d f lp (set_mtx true s) in
    Ret (fst r, set_mtx false (snd r)).

(** *** DelTimer *)

(** [bool DelTimer(int id)].  The mutex is only tried; when the identifier
    is not found the function returns without unlocking. *)
Definition DelTimer (i : Z) (s : MinHeapTimer) : bool * MinHeapTimer :=
  let is_lock := negb (mtx_ s) in
  let s1 := set_mtx true s in
  match _map s1 !! i with
  | None => (false, s1)
  | Some a =>
      let s2 := _delNode a s1 in
      (true, if is_lock then set_mtx false s2 else s2)
  end.

(** *** ExpireTimer *)

(** [node->fb(node)], when the function object is not empty. *)
Definition invoke (a : addr) (s : MinHeapTimer) : MinHeapTimer :=
  match mem s !! a with
  | Some n =>
      if fb n then
        mkTimer (mtx_ s) (_heap s) (_map s) (_count s) (mem s) (brk s)
                (ticks s) (fired s ++ [(a, n)])
      else s
  | None => s
  end.

(** One turn of the [do ... while] body after the [break] test. *)
Definition expire_node (a : addr) (s : MinHeapTimer) : MinHeapTimer :=
  let s1 := invoke a s in
  if from_option is_loop false (mem s1 !! a)
  then snd (_addTimer_node a (_removeNode a s1))
  else _delNode a s1.

(** The [do { ... } while (!_heap.empty())] loop.  It is entered with a
    heap that is not empty, so testing for the empty heap before the body
    is the same as testing it after. *)
Fixpoint expire_loop (fuel : nat) (now : Z) (s : MinHeapTimer)
  : outcome MinHeapTimer :=
  match fuel with
  | O => OutOfFuel
  | S fuel' =>
      match _heap s with
      | [] => Ret s
      | a :: _ =>
          if now <? expire_of (mem s) a then Ret s
          else expire_loop fuel' now (expire_node a s)
      end
  end.

(** [void ExpireTimer()] *)
Definition ExpireTimer (fuel : nat) (s : MinHeapTimer) : outcome MinHeapTimer :=
  if mtx_ s then Blocked
  else
    match _heap s with
    | [] => Ret s
    | _ :: _ =>
        let now := CurrentTime_ms (ticks s) in
        let s1 :=
          mkTimer true (_heap s) (_map s) (_count s) (mem s) (brk s)
                  (S (ticks s)) (fired s) in
        match expire_loop fuel now s1 with
        | Ret s2 => Ret (set_mtx false s2)
        | Blocked => Blocked
        | OutOfFuel => OutOfFuel
        end
    end.

(** [size_t GetTimerNode(std::vector<TimerNode<T>*> &heap)] *)
Definition GetTimerNode (s : MinHeapTimer) : outcome (nat * list addr) :=
  if mtx_ s then Blocked else Ret (length (_heap s), _heap s).

(** *** Sequences of calls *)

(** The calls a client can make. *)
Inductive op : Type :=
| Schedule (timing : Z) (d : T) (f : bool) (lp : bool)   (* [AddTimer] *)
| Cancel (i : Z)                                         (* [DelTimer] *)
| Sweep (fuel : nat).                                    (* [ExpireTimer] *)

(** One call: the identifiers it returns (one for [AddTimer], none for the
    others) and the state it leaves. *)
Definition step (o : op) (s : MinHeapTimer) : outcome (list Z * MinHeapTimer) :=
  match o with
  | Schedule timing d f lp =>
      match AddTimer timing d f lp s with
      | Ret r => Ret ([fst r], snd r)
      | Blocked => Blocked
      | OutOfFuel => OutOfFuel
      end
  | Cancel i => Ret ([], snd (DelTimer i s))
  | Sweep fuel =>
      match ExpireTimer fuel s with
      | Ret s' => Ret ([], s')
      | Blocked => Blocked
      | OutOfFuel => OutOfFuel
      end
  end.

Fixpoint run (os : list op) (s : MinHeapTimer) : outcome (list Z * MinHeapTimer) :=
  match os with
  | [] => Ret ([], s)
  | o :: os' =>
      match step o s with
      | Ret r1 =>
          match run os' (snd r1) with
          | Ret r2 => Ret (fst r1 ++ fst r2, snd r2)
          | Blocked => Blocked
          | OutOfFuel => OutOfFuel
          end
      | Blocked => Blocked
      | OutOfFuel => OutOfFuel
      end
  end.

(** An upper bound on the number of identifiers a call draws from
    [_count]: one for [AddTimer], at most one per turn of the loop of
    [ExpireTimer]. *)
Definition draws (o : op) : Z :=
  match o with
  | Schedule _ _ _ _ => 1
  | Cancel _ => 0
  | Sweep fuel => Z.of_nat fuel
  end.

Definition budget (os : list op) : Z := foldr (fun o z => draws o + z) 0 os.

(** ** class MinHeapTimerLoop *)

(** [TIMER_LOOP_TIME] is defined in [util_timer.hpp], which is not part of
    the sources. *)
Variable TIMER_LOOP_TIME : Z.

Record MinHeapTimerLoop : Type := mkLoop {
  base : MinHeapTimer;
  is_running : bool;
  min_timing_time_ms : Z      (* [std::atomic_int] *)
}.

Definition init_loop : MinHeapTimerLoop := mkLoop init false TIMER_LOOP_TIME.

(** The test [min_timing_time_ms.load() > timing_time_ms] compares an [int]
    with a [uint64_t]: the [int] is converted to [uint64_t].  [store] takes
    an [int]. *)
Definition track_min (timing : Z) (mn : Z) : Z :=
  if timing <? wrap64 mn then wrap32 timing else mn.

(** [int _addTimer(...) override]: the update of the tracked minimum,
    then the statements of the base class's [_addTimer], which the source
    repeats. *)
Definition Loop_addTimer (timing : Z) (d : T) (f : bool) (lp : bool)
  (l : MinHeapTimerLoop) : Z * MinHeapTimerLoop :=
  let r := _addTimer timing d f lp (base l) in
  (fst r, mkLoop (snd r) (is_running l) (track_min timing (min_timing_time_ms l))).

(** [AddTimer] of the derived class: the virtual call reaches the override. *)
Definition Loop_AddTimer (timing : Z) (d : T) (f : bool) (lp : bool)
  (l : MinHeapTimerLoop) : outcome (Z * MinHeapTimerLoop) :=
  if mtx_ (base l) then Blocked
  else
    let r := Loop_addTimer timing d f lp
               (mkLoop (set_mtx true (base l)) (is_running l) (min_timing_time_ms l)) in
    Ret (fst r, mkLoop (set_mtx false (base (snd r))) (is_running (snd r))
                       (min_timing_time_ms (snd r))).

(** [StartTimerLoop] and [StopTimerLoop] set and clear the flag; the
    thread that the first one starts is [loop_turn], over and over while
    the flag is set. *)
Definition StartTimerLoop (l : MinHeapTimerLoop) : MinHeapTimerLoop :=
  mkLoop (base l) true (min_timing_time_ms l).

Definition StopTimerLoop (l : MinHeapTimerLoop) : MinHeapTimerLoop :=
  mkLoop (base l) false (min_timing_time_ms l).

(** The argument of [sleep_for] in the thread of [StartTimerLoop]: an
    [int] division by 10. *)
Definition sleep_ms (l : MinHeapTimerLoop) : Z := Z.quot (min_timing_time_ms l) 10.

(** One turn of [while (is_running.load()) { ExpireTimer(); sleep_for(...); }]:
    the state after [ExpireTimer] and the time slept. *)
Definition loop_turn (fuel : nat) (l : MinHeapTimerLoop)
  : outcome (MinHeapTimerLoop * Z) :=
  match ExpireTimer fuel (base l) with
  | Ret s => Ret (mkLoop s (is_running l) (min_timing_time_ms l), sleep_ms l)
  | Blocked => Blocked
  | OutOfFuel => OutOfFuel
  end.

End Timer.

Arguments TimerNode : clear implicits.
Arguments MinHeapTimer : clear implicits.
Arguments MinHeapTimerLoop : clear implicits.
Arguments op : clear implicits.

(** ** Scenarios of the specification, run on the model *)

Module Scenario.

(** A clock given by the list of its readings (the last one repeats). *)
Definition readings (l : list Z) (k : nat) : Z :=
  from_option (fun x => x) (List.last l 0) (l !! k).

(** The nodes of the heap, in the order of the vector: identifier,
    deadline and recorded position. *)
Definition heap_view (s : MinHeapTimer unit) : list (Z * Z * nat) :=
  omap (fun a => (fun n => (id n, expire_ms n, idx n)) <$> (mem s !! a)) (_heap s).

Definition fired_ids (s : MinHeapTimer unit) : list Z :=
  (fun p => id (snd p)) <$> fired s.

End Scenario.


(** * Proofs *)

(** ** Positions in the implicit tree *)

Definition parent (i : nat) : nat := ((i - 1) / 2)%nat.

Lemma parent_children (i : nat) :
  (0 < i)%nat -> (i = 2 * parent i + 1 \/ i = 2 * parent i + 2)%nat.
Proof.
  intros Hi. unfold parent.
  pose proof (Nat.div_mod_eq (i - 1) 2) as E.
  pose proof (Nat.mod_upper_bound (i - 1) 2) as B.
  lia.
Qed.

Lemma parent_left (p : nat) : parent (2 * p + 1) = p.
Proof.
  unfold parent. replace (2 * p + 1 - 1)%nat with (p * 2)%nat by lia.
  apply Nat.div_mul. lia.
Qed.

Lemma parent_right (p : nat) : parent (2 * p + 2) = p.
Proof.
  unfold parent. replace (2 * p + 2 - 1)%nat with (1 + p * 2)%nat by lia.
  rewrite Nat.div_add by lia. reflexivity.
Qed.

Lemma parent_lt (i : nat) : (0 < i)%nat -> (parent i < i)%nat.
Proof. intros Hi. destruct (parent_children i Hi); lia. Qed.

Lemma parent_zero : parent 0 = 0%nat.
Proof. reflexivity. Qed.

Lemma parent_eq_iff (i p : nat) :
  (0 < i)%nat -> parent i = p <-> (i = 2 * p + 1 \/ i = 2 * p + 2)%nat.
Proof.
  intros Hi. split.
  - intros <-. apply parent_children, Hi.
  - intros [-> | ->]; [apply parent_left | apply parent_right].
Qed.

Lemma parent_fix (i : nat) : parent i = i <-> i = 0%nat.
Proof.
  split; [|intros ->; reflexivity].
  intros E. destruct (Nat.eq_dec i 0%nat) as [|N]; [assumption|].
  pose proof (parent_lt i). lia.
Qed.

(** ** The heap order on a key function

    The order is a property of the keys found at the positions; the
    repairs are first studied on a function [K] from positions to keys. *)

Definition ord (n : nat) (K : nat -> Z) : Prop :=
  forall i, (0 < i < n)%nat -> K (parent i) <= K i.

(** The order holds between all pairs that do not involve position [p], and
    between the parent of [p] and the children of [p]. *)
Definition ord_but (n p : nat) (K : nat -> Z) : Prop :=
  (forall i, (0 < i < n)%nat -> i <> p -> parent i <> p -> K (parent i) <= K i) /\
  (forall i, (0 < i < n)%nat -> parent i = p -> (0 < p)%nat -> K (parent p) <= K i).

Definition children_ok (n p : nat) (K : nat -> Z) : Prop :=
  forall i, (0 < i < n)%nat -> parent i = p -> K p <= K i.

Definition parent_ok (p : nat) (K : nat -> Z) : Prop :=
  p = 0%nat \/ K (parent p) <= K p.

Definition swapK (i j : nat) (K : nat -> Z) : nat -> Z :=
  fun k => if (k =? i)%nat then K j else if (k =? j)%nat then K i else K k.

Lemma ord_ext n K K' : (forall k, (k < n)%nat -> K k = K' k) -> ord n K -> ord n K'.
Proof.
  intros E H i Hi. pose proof (parent_lt i).
  rewrite <- !E by lia. apply H, Hi.
Qed.

Lemma ord_weaken n n' K : (n' <= n)%nat -> ord n K -> ord n' K.
Proof. intros L H i Hi. apply H. lia. Qed.

Lemma ord_ord_but n p K : ord n K -> ord_but n p K.
Proof.
  intros H. split.
  - intros i Hi _ _. apply H, Hi.
  - intros i Hi E Hp. subst p.
    pose proof (parent_lt i).
    transitivity (K (parent i)); apply H; lia.
Qed.

Lemma ord_but_fill n p K :
  ord_but n p K -> children_ok n p K -> parent_ok p K -> ord n K.
Proof.
  intros [H1 H2] Hc Hp i Hi.
  destruct (decide (i = p)) as [->|Ni].
  - destruct Hp as [->|Hp]; [lia | exact Hp].
  - destruct (decide (parent i = p)) as [E|Np].
    + rewrite E. apply Hc; assumption.
    + apply H1; assumption.
Qed.

Lemma ord_but_beyond n p K : (n <= p)%nat -> ord_but n p K -> ord n K.
Proof.
  intros L [H1 _] i Hi. pose proof (parent_lt i). apply H1; lia.
Qed.

Lemma sift_up_step n p K :
  (0 < p < n)%nat -> ord_but n p K -> children_ok n p K ->
  K p < K (parent p) ->
  ord_but n (parent p) (swapK (parent p) p K) /\
  children_ok n (parent p) (swapK (parent p) p K).
Proof.
  intros Hp [H1 H2] Hc Hlt.
  pose proof (parent_lt p) as Lp.
  assert (Hq : forall i, (0 < i < n)%nat -> i <> p -> parent i = parent p ->
                         K (parent p) <= K i).
  { intros i Hi Ni E. rewrite <- E. apply H1; [assumption..|]. lia. }
  split; [split|]; unfold swapK.
  - intros i Hi Ni Npi. pose proof (parent_lt i) as Li.
    assert (i <> p) by congruence.
    rewrite (proj2 (Nat.eqb_neq (parent i) (parent p))) by assumption.
    rewrite (proj2 (Nat.eqb_neq i (parent p))) by assumption.
    rewrite (proj2 (Nat.eqb_neq i p)) by assumption.
    destruct (Nat.eqb_spec (parent i) p) as [E|N].
    + apply H2; [assumption..|]. lia.
    + apply H1; assumption.
  - intros i Hi E Hq0.
    pose proof (parent_lt (parent p)) as Lq. pose proof (parent_lt i) as Li.
    rewrite (proj2 (Nat.eqb_neq (parent (parent p)) (parent p))) by lia.
    rewrite (proj2 (Nat.eqb_neq (parent (parent p)) p)) by lia.
    rewrite (proj2 (Nat.eqb_neq i (parent p))) by lia.
    assert (G : K (parent (parent p)) <= K (parent p)) by (apply H1; lia).
    destruct (Nat.eqb_spec i p) as [->|N]; [exact G|].
    specialize (Hq i Hi N E). lia.
  - intros i Hi E. pose proof (parent_lt i) as Li.
    rewrite Nat.eqb_refl.
    rewrite (proj2 (Nat.eqb_neq i (parent p))) by lia.
    destruct (Nat.eqb_spec i p) as [->|N]; [lia|].
    specialize (Hq i Hi N E). lia.
Qed.

Lemma sift_down_step n p c K :
  (0 < c < n)%nat -> parent c = p -> ord_but n p K ->
  (forall i, (0 < i < n)%nat -> parent i = p -> K c <= K i) ->
  K c < K p ->
  ord_but n c (swapK p c K) /\ parent_ok c (swapK p c K).
Proof.
  intros Hc E [H1 H2] Hmin Hlt.
  pose proof (parent_lt c) as Lc.
  split; [split|]; unfold swapK.
  - intros i Hi Ni Npi. pose proof (parent_lt i) as Li.
    rewrite (proj2 (Nat.eqb_neq i c)) by assumption.
    rewrite (proj2 (Nat.eqb_neq (parent i) c)) by assumption.
    destruct (Nat.eqb_spec i p) as [->|N].
    + rewrite (proj2 (Nat.eqb_neq (parent p) p)) by lia.
      apply H2; [assumption..|]. lia.
    + destruct (Nat.eqb_spec (parent i) p) as [Ep|Np].
      * apply Hmin; assumption.
      * apply H1; assumption.
  - intros i Hi Ei _. pose proof (parent_lt i) as Li.
    rewrite E, Nat.eqb_refl.
    rewrite (proj2 (Nat.eqb_neq i p)) by lia.
    rewrite (proj2 (Nat.eqb_neq i c)) by lia.
    rewrite <- Ei. apply H1; lia.
  - right. rewrite E, Nat.eqb_refl.
    rewrite (proj2 (Nat.eqb_neq c p)) by lia.
    rewrite Nat.eqb_refl. lia.
Qed.

(** The children form of the order, as the heap property is usually
    written. *)
Lemma ord_children n K :
  ord n K <->
  forall i, ((2 * i + 1 < n)%nat -> K i <= K (2 * i + 1)%nat) /\
            ((2 * i + 2 < n)%nat -> K i <= K (2 * i + 2)%nat).
Proof.
  split.
  - intros H i. split; intros L.
    + rewrite <- (parent_left i) at 1. apply H. lia.
    + rewrite <- (parent_right i) at 1. apply H. lia.
  - intros H i Hi. destruct (parent_children i) as [E|E]; [lia| |].
    + rewrite E at 2. apply H. lia.
    + rewrite E at 2. apply H. lia.
Qed.

Lemma ord_root_min n K : ord n K -> forall i, (i < n)%nat -> K 0%nat <= K i.
Proof.
  intros H i. induction (lt_wf i) as [i _ IH]. intros Hi.
  destruct (decide (i = 0%nat)) as [->|N]; [lia|].
  pose proof (parent_lt i).
  transitivity (K (parent i)); [apply IH; lia | apply H; lia].
Qed.

Section Proofs.

Context {T : Type}.
Implicit Types (h : list addr) (m : gmap addr (TimerNode T)).
Implicit Types (nd : TimerNode T) (s : MinHeapTimer T).

(** ** Nodes that differ in [idx] only *)

Definition same_node (n1 n2 : TimerNode T) : Prop := with_idx 0 n1 = with_idx 0 n2.

Definition mem_sim m1 m2 : Prop :=
  forall a, with_idx 0 <$> (m1 !! a) = with_idx 0 <$> (m2 !! a).

Lemma with_idx_idem i j nd : with_idx i (with_idx j nd) = with_idx i nd.
Proof. reflexivity. Qed.

Lemma mem_sim_refl m : mem_sim m m.
Proof. intros a. reflexivity. Qed.

Lemma mem_sim_trans m1 m2 m3 : mem_sim m1 m2 -> mem_sim m2 m3 -> mem_sim m1 m3.
Proof. intros H1 H2 a. rewrite H1. apply H2. Qed.

Lemma mem_sim_sym m1 m2 : mem_sim m1 m2 -> mem_sim m2 m1.
Proof. intros H a. symmetry. apply H. Qed.

Lemma mem_sim_alter m a i : mem_sim m (alter (with_idx i) a m).
Proof.
  intros b. destruct (decide (a = b)) as [->|N].
  - rewrite lookup_alter_eq. destruct (m !! b); reflexivity.
  - rewrite lookup_alter_ne by assumption. reflexivity.
Qed.

Lemma mem_sim_store_idx h m i : mem_sim m (store_idx h m i).
Proof.
  unfold store_idx. destruct (h !! i); [apply mem_sim_alter | apply mem_sim_refl].
Qed.

Lemma mem_sim_lookup m1 m2 a n1 :
  mem_sim m1 m2 -> m1 !! a = Some n1 ->
  exists n2, m2 !! a = Some n2 /\ same_node n1 n2.
Proof.
  intros H E. specialize (H a). rewrite E in H.
  destruct (m2 !! a) as [n2|]; [|discriminate].
  exists n2. split; [reflexivity|]. unfold same_node. simpl in H. congruence.
Qed.

Lemma mem_sim_None m1 m2 a : mem_sim m1 m2 -> m1 !! a = None -> m2 !! a = None.
Proof.
  intros H E. specialize (H a). rewrite E in H.
  destruct (m2 !! a); [discriminate | reflexivity].
Qed.

Lemma same_node_fields n1 n2 :
  same_node n1 n2 ->
  id n1 = id n2 /\ expire_ms n1 = expire_ms n2 /\
  timing_time_ms n1 = timing_time_ms n2 /\ data n1 = data n2 /\
  fb n1 = fb n2 /\ is_loop n1 = is_loop n2.
Proof.
  unfold same_node, with_idx. intros H. injection H. intros. repeat split; assumption.
Qed.

Lemma mem_sim_expire m1 m2 a : mem_sim m1 m2 -> expire_of m1 a = expire_of m2 a.
Proof.
  intros H. unfold expire_of. specialize (H a).
  destruct (m1 !! a) as [n1|], (m2 !! a) as [n2|]; try discriminate; [|reflexivity].
  assert (S : same_node n1 n2) by (unfold same_node; simpl in H; congruence).
  apply same_node_fields in S. simpl. tauto.
Qed.

Lemma mem_sim_key h m1 m2 i : mem_sim m1 m2 -> key h m1 i = key h m2 i.
Proof.
  intros H. unfold key. destruct (h !! i); simpl; [apply mem_sim_expire, H | reflexivity].
Qed.

Lemma mem_sim_field {A} (f : TimerNode T -> A) (d : A) m1 m2 a :
  (forall n i, f (with_idx i n) = f n) ->
  mem_sim m1 m2 -> from_option f d (m1 !! a) = from_option f d (m2 !! a).
Proof.
  intros Hf H. specialize (H a).
  destruct (m1 !! a) as [n1|], (m2 !! a) as [n2|]; try discriminate; [|reflexivity].
  assert (S : with_idx 0 n1 = with_idx 0 n2) by (simpl in H; congruence).
  simpl. rewrite <- (Hf n1 0%nat), <- (Hf n2 0%nat), S. reflexivity.
Qed.

(** ** [swap] *)

Lemma swap_length h i j : length (swap h i j) = length h.
Proof.
  unfold swap. destruct (h !! i), (h !! j); try reflexivity.
  rewrite !length_insert. reflexivity.
Qed.

Lemma swap_lookup_l h i j x y :
  h !! i = Some x -> h !! j = Some y -> swap h i j !! i = Some y.
Proof.
  intros Hi Hj. unfold swap. rewrite Hi, Hj.
  apply list_lookup_insert_eq. rewrite length_insert.
  eapply lookup_lt_Some, Hi.
Qed.

Lemma swap_lookup_r h i j x y :
  h !! i = Some x -> h !! j = Some y -> swap h i j !! j = Some x.
Proof.
  intros Hi Hj. unfold swap. rewrite Hi, Hj.
  destruct (decide (i = j)) as [->|N].
  - rewrite list_lookup_insert_eq.
    + congruence.
    + rewrite length_insert. eapply lookup_lt_Some, Hj.
  - rewrite list_lookup_insert_ne by assumption.
    apply list_lookup_insert_eq. eapply lookup_lt_Some, Hj.
Qed.

Lemma swap_lookup_ne h i j k : k <> i -> k <> j -> swap h i j !! k = h !! k.
Proof.
  intros Hi Hj. unfold swap. destruct (h !! i), (h !! j); try reflexivity.
  rewrite !list_lookup_insert_ne by congruence. reflexivity.
Qed.

Lemma swap_perm h i j : swap h i j ≡ₚ h.
Proof.
  unfold swap.
  destruct (h !! i) as [x|] eqn:Hi; [|reflexivity].
  destruct (h !! j) as [y|] eqn:Hj; [|reflexivity].
  destruct (decide (i = j)) as [->|N].
  - rewrite list_insert_insert_eq. rewrite list_insert_id by assumption. reflexivity.
  - symmetry. apply Permutation_inj. 
    split; [rewrite !length_insert; reflexivity|].
    exists (fun k => if decide (k = i) then j else if decide (k = j) then i else k).
    split.
    + intros a b. repeat case_decide; subst; congruence.
    + intros k. repeat case_decide; subst.
      * rewrite Hi. symmetry.
        rewrite list_lookup_insert_ne by congruence.
        apply list_lookup_insert_eq. eapply lookup_lt_Some, Hj.
      * rewrite Hj. symmetry. apply list_lookup_insert_eq.
        rewrite length_insert. eapply lookup_lt_Some, Hi.
      * rewrite !list_lookup_insert_ne by congruence. reflexivity.
Qed.

(** ** Positions recorded in the nodes *)

Definition positions_ok (n : nat) h m : Prop :=
  forall i a, (i < n)%nat -> h !! i = Some a ->
    exists nd, m !! a = Some nd /\ idx nd = i.

Lemma positions_ok_inj n h m i j a :
  positions_ok n h m -> (i < n)%nat -> (j < n)%nat ->
  h !! i = Some a -> h !! j = Some a -> i = j.
Proof.
  intros H Hi Hj Ei Ej.
  destruct (H i a Hi Ei) as (n1 & E1 & <-).
  destruct (H j a Hj Ej) as (n2 & E2 & <-).
  congruence.
Qed.

Lemma positions_ok_weaken n n' h m :
  (n' <= n)%nat -> positions_ok n h m -> positions_ok n' h m.
Proof. intros L H i a Hi. apply H. lia. Qed.

Lemma key_swap h m m' i j x y k :
  h !! i = Some x -> h !! j = Some y -> mem_sim m m' ->
  key (swap h i j) m' k = swapK i j (key h m) k.
Proof.
  intros Hi Hj Hs. unfold swapK.
  rewrite <- (mem_sim_key _ m m') by assumption.
  destruct (Nat.eqb_spec k i) as [->|Ni].
  - unfold key. rewrite (swap_lookup_l h i j x y), Hj by assumption. reflexivity.
  - destruct (Nat.eqb_spec k j) as [->|Nj].
    + unfold key. rewrite (swap_lookup_r h i j x y), Hi by assumption. reflexivity.
    + unfold key. rewrite swap_lookup_ne by assumption. reflexivity.
Qed.

(** What a repair of the first [n] slots keeps. *)
Definition repaired (n : nat) h m h' m' : Prop :=
  positions_ok n h' m' /\ mem_sim m m' /\ length h' = length h /\
  h' ≡ₚ h /\ (forall k, (n <= k)%nat -> h' !! k = h !! k).

Lemma repaired_refl n h m : positions_ok n h m -> repaired n h m h m.
Proof.
  intros H. split; [exact H|]. split; [apply mem_sim_refl|].
  split; [reflexivity|]. split; reflexivity.
Qed.

Lemma repaired_trans n h1 m1 h2 m2 h3 m3 :
  repaired n h1 m1 h2 m2 -> repaired n h2 m2 h3 m3 -> repaired n h1 m1 h3 m3.
Proof.
  intros (_ & S1 & L1 & P1 & F1) (O2 & S2 & L2 & P2 & F2).
  split; [exact O2|]. split; [eapply mem_sim_trans; eassumption|].
  split; [congruence|]. split; [etransitivity; eassumption|].
  intros k Hk. rewrite F2, F1 by assumption. reflexivity.
Qed.

(** One exchange of the slots [i] and [j], followed by the two
    assignments to [idx]. *)
Lemma exchange_repaired n h m i j :
  (n <= length h)%nat -> (i < n)%nat -> (j < n)%nat -> i <> j ->
  positions_ok n h m ->
  repaired n h m (swap h i j) (store_idx (swap h i j) (store_idx (swap h i j) m i) j) /\
  forall k, key (swap h i j) (store_idx (swap h i j) (store_idx (swap h i j) m i) j) k
            = swapK i j (key h m) k.
Proof.
  intros Ln Hi Hj Nij Hpos.
  destruct (lookup_lt_is_Some_2 h i) as [x Ex]; [lia|].
  destruct (lookup_lt_is_Some_2 h j) as [y Ey]; [lia|].
  assert (Nxy : x <> y).
  { intros ->. apply Nij. eapply positions_ok_inj; eassumption. }
  set (h1 := swap h i j).
  assert (E1i : h1 !! i = Some y) by (eapply swap_lookup_l; eassumption).
  assert (E1j : h1 !! j = Some x) by (eapply swap_lookup_r; eassumption).
  assert (Sim : mem_sim m (store_idx h1 (store_idx h1 m i) j)).
  { eapply mem_sim_trans; apply mem_sim_store_idx. }
  split; [|intros k; eapply key_swap; eassumption].
  split; [|split; [exact Sim|split; [apply swap_length|split; [apply swap_perm|]]]].
  - intros k a Hk Ek. unfold store_idx. rewrite E1i, E1j.
    destruct (decide (k = i)) as [->|Nki]; [|destruct (decide (k = j)) as [->|Nkj]].
    + assert (a = y) by congruence. subst a.
      destruct (Hpos j y Hj Ey) as (nd & End & _).
      exists (with_idx i nd). split; [|reflexivity].
      rewrite lookup_alter_ne by congruence.
      rewrite lookup_alter_eq, End. reflexivity.
    + assert (a = x) by congruence. subst a.
      destruct (Hpos i x Hi Ex) as (nd & End & _).
      exists (with_idx j nd). split; [|reflexivity].
      rewrite lookup_alter_eq, lookup_alter_ne, End by congruence. reflexivity.
    + unfold h1 in Ek. rewrite swap_lookup_ne in Ek by assumption.
      destruct (Hpos k a Hk Ek) as (nd & End & Eidx).
      exists nd. split; [|exact Eidx].
      assert (a <> x).
      { intros ->. apply Nki. eapply positions_ok_inj; eassumption. }
      assert (a <> y).
      { intros ->. apply Nkj. eapply positions_ok_inj; eassumption. }
      rewrite !lookup_alter_ne by congruence. exact End.
  - intros k Hk. apply swap_lookup_ne; lia.
Qed.

(** ** [_shiftUp] restores the order *)

Lemma shiftUp_loop_S fuel p h m :
  shiftUp_loop (S fuel) p h m =
  if (parent p =? p)%nat || negb (_lessThan h m p (parent p)) then (h, m)
  else shiftUp_loop fuel (parent p) (swap h (parent p) p)
         (store_idx (swap h (parent p) p)
            (store_idx (swap h (parent p) p) m (parent p)) p).
Proof. reflexivity. Qed.

Lemma shiftUp_loop_spec n fuel : forall p h m,
  (p < fuel)%nat -> (p < n <= length h)%nat ->
  positions_ok n h m ->
  ord_but n p (key h m) -> children_ok n p (key h m) ->
  ord n (key (fst (shiftUp_loop fuel p h m)) (snd (shiftUp_loop fuel p h m))) /\
  repaired n h m (fst (shiftUp_loop fuel p h m)) (snd (shiftUp_loop fuel p h m)).
Proof.
  induction fuel as [|fuel IH]; intros p h m Hf Hn Hpos Hb Hc; [lia|].
  rewrite shiftUp_loop_S.
  destruct (Nat.eqb_spec (parent p) p) as [E|N]; simpl.
  - split; [|apply repaired_refl, Hpos].
    eapply ord_but_fill; [eassumption..|]. left. apply parent_fix, E.
  - assert (Hp0 : (0 < p)%nat).
    { destruct (decide (p = 0%nat)) as [->|]; [|lia]. exfalso. apply N. reflexivity. }
    pose proof (parent_lt p Hp0) as Lp.
    unfold _lessThan. destruct (Z.ltb_spec (key h m p) (key h m (parent p))) as [Lt|Ge]; simpl.
    + destruct (exchange_repaired n h m (parent p) p) as [R K]; [lia..|assumption|].
      destruct (sift_up_step n p (key h m)) as [Hb' Hc']; [lia|assumption..|].
      set (h1 := swap h (parent p) p) in *.
      set (m2 := store_idx h1 (store_idx h1 m (parent p)) p) in *.
      destruct (IH (parent p) h1 m2) as [O R'].
      * lia.
      * destruct R as (_ & _ & L & _). lia.
      * apply R.
      * destruct Hb' as [B1 B2]. split; intros i; rewrite !K; auto.
      * intros i. rewrite !K. apply Hc'.
      * split; [exact O|]. eapply repaired_trans; eassumption.
    + split; [|apply repaired_refl, Hpos].
      eapply ord_but_fill; [eassumption..|]. right. lia.
Qed.

(** ** [_shiftDown] restores the order *)

(** The child that [_shiftDown] compares with the node at [p]. *)
Definition min_child (n : nat) h m (p : nat) : nat :=
  if (2 * p + 1 + 1 <? n)%nat && negb (_lessThan h m (2 * p + 1) (2 * p + 1 + 1))
  then (2 * p + 1 + 1)%nat else (2 * p + 1)%nat.

Lemma shiftDown_loop_S fuel n p h m :
  shiftDown_loop (S fuel) n p h m =
  if (n <=? 2 * p + 1)%nat then (p, (h, m))
  else if negb (_lessThan h m (min_child n h m p) p) then (p, (h, m))
  else shiftDown_loop fuel n (min_child n h m p) (swap h p (min_child n h m p))
         (store_idx (swap h p (min_child n h m p))
            (store_idx (swap h p (min_child n h m p)) m p) (min_child n h m p)).
Proof. reflexivity. Qed.

Lemma min_child_spec n h m p :
  (2 * p + 1 < n)%nat ->
  (0 < min_child n h m p < n)%nat /\ (p < min_child n h m p)%nat /\
  parent (min_child n h m p) = p /\
  forall i, (0 < i < n)%nat -> parent i = p ->
            key h m (min_child n h m p) <= key h m i.
Proof.
  intros Hl. unfold min_child, _lessThan.
  destruct (Nat.ltb_spec (2 * p + 1 + 1) n) as [Hr|Hr]; cbn [andb negb].
  - destruct (Z.ltb_spec (key h m (2 * p + 1)) (key h m (2 * p + 1 + 1))) as [Lt|Ge]; cbn [andb negb].
    + split; [lia|]. split; [lia|]. split; [apply parent_left|].
      intros i Hi E. apply parent_eq_iff in E; [|lia].
      destruct E as [-> | ->]; [lia|].
      replace (2 * p + 2)%nat with (2 * p + 1 + 1)%nat by lia. lia.
    + split; [lia|]. split; [lia|].
      split; [replace (2 * p + 1 + 1)%nat with (2 * p + 2)%nat by lia; apply parent_right|].
      intros i Hi E. apply parent_eq_iff in E; [|lia].
      destruct E as [-> | ->]; [lia|].
      replace (2 * p + 2)%nat with (2 * p + 1 + 1)%nat by lia. lia.
  - split; [lia|]. split; [lia|]. split; [apply parent_left|].
    intros i Hi E. apply parent_eq_iff in E; [|lia].
    destruct E as [-> | ->]; lia.
Qed.

Lemma no_child n p K : (n <= 2 * p + 1)%nat -> children_ok n p K.
Proof.
  intros L i Hi E. apply parent_eq_iff in E; lia.
Qed.

Lemma shiftDown_loop_spec n fuel : forall p h m,
  (n - p <= fuel)%nat -> (n <= length h)%nat ->
  positions_ok n h m ->
  ord_but n p (key h m) -> parent_ok p (key h m) ->
  ord n (key (fst (snd (shiftDown_loop fuel n p h m)))
             (snd (snd (shiftDown_loop fuel n p h m)))) /\
  repaired n h m (fst (snd (shiftDown_loop fuel n p h m)))
                 (snd (snd (shiftDown_loop fuel n p h m))).
Proof.
  induction fuel as [|fuel IH]; intros p h m Hf Hn Hpos Hb Hp.
  - simpl. split; [|apply repaired_refl, Hpos].
    eapply ord_but_beyond; [|eassumption]. lia.
  - rewrite shiftDown_loop_S.
    destruct (Nat.leb_spec n (2 * p + 1)) as [L|L]; simpl.
    + split; [|apply repaired_refl, Hpos].
      eapply ord_but_fill; [eassumption| |assumption]. apply no_child, L.
    + destruct (min_child_spec n h m p L) as (Hc & Hpc & Epc & Hmin).
      set (c := min_child n h m p) in *.
      unfold _lessThan.
      destruct (Z.ltb_spec (key h m c) (key h m p)) as [Lt|Ge]; simpl.
      * destruct (exchange_repaired n h m p c) as [R K]; [lia..|assumption|].
        destruct (sift_down_step n p c (key h m)) as [Hb' Hp']; [assumption..|].
        set (h1 := swap h p c) in *.
        set (m2 := store_idx h1 (store_idx h1 m p) c) in *.
        destruct (IH c h1 m2) as [O R'].
        -- lia.
        -- destruct R as (_ & _ & E & _). lia.
        -- apply R.
        -- destruct Hb' as [B1 B2]. split; intros i; rewrite !K; auto.
        -- destruct Hp' as [->|Hp']; [left; reflexivity|right]. rewrite !K. exact Hp'.
        -- split; [exact O|]. eapply repaired_trans; eassumption.
      * split; [|apply repaired_refl, Hpos].
        eapply ord_but_fill; [eassumption| |assumption].
        intros i Hi E. specialize (Hmin i Hi E). lia.
Qed.

Lemma shiftDown_loop_ge n fuel : forall p h m,
  (p <= fst (shiftDown_loop fuel n p h m))%nat.
Proof.
  induction fuel as [|fuel IH]; intros p h m; [simpl; lia|].
  rewrite shiftDown_loop_S.
  destruct (Nat.leb_spec n (2 * p + 1)) as [L|L]; simpl; [lia|].
  destruct (negb _); simpl; [lia|].
  destruct (min_child_spec n h m p L) as (_ & Hpc & _).
  etransitivity; [|apply IH]. lia.
Qed.

(** [_shiftDown] reports whether the node moved.  When it did not, nothing
    was written and no child is smaller; when it did, some child was. *)
Lemma shiftDown_loop_first n fuel p h m :
  (n - p <= fuel)%nat ->
  (fst (shiftDown_loop fuel n p h m) = p /\
   snd (shiftDown_loop fuel n p h m) = (h, m) /\
   children_ok n p (key h m)) \/
  ((p < fst (shiftDown_loop fuel n p h m))%nat /\
   exists c, (0 < c < n)%nat /\ parent c = p /\ key h m c < key h m p).
Proof.
  intros Hf. destruct fuel as [|fuel].
  - left. simpl. split; [reflexivity|]. split; [reflexivity|].
    apply no_child. lia.
  - rewrite shiftDown_loop_S.
    destruct (Nat.leb_spec n (2 * p + 1)) as [L|L]; simpl.
    + left. split; [reflexivity|]. split; [reflexivity|]. apply no_child, L.
    + destruct (min_child_spec n h m p L) as (Hc & Hpc & Epc & Hmin).
      destruct (_lessThan h m (min_child n h m p) p) eqn:Lt; simpl;
        unfold _lessThan in Lt; [apply Z.ltb_lt in Lt | apply Z.ltb_ge in Lt].
      * right. split.
        -- eapply Nat.lt_le_trans; [exact Hpc | apply shiftDown_loop_ge].
        -- exists (min_child n h m p). split; [assumption|]. split; assumption.
      * left. split; [reflexivity|]. split; [reflexivity|].
        intros i Hi E. specialize (Hmin i Hi E). lia.
Qed.

(** ** [_removeNode] *)

(** The vector and the memory just before [pop_back] in [_removeNode], for
    a node whose [idx] is [i]. *)
Definition remove_hm (i : nat) h m : list addr * gmap addr (TimerNode T) :=
  let last := (length h - 1)%nat in
  if (i =? last)%nat then (h, m)
  else
    let h1 := swap h i last in
    let m1 := store_idx h1 m i in
    let r := _shiftDown i h1 m1 in
    if fst r then snd r else _shiftUp i (fst (snd r)) (snd (snd r)).

Lemma _removeNode_eq a s :
  _removeNode a s =
  let hm := remove_hm (from_option idx 0%nat (mem s !! a)) (_heap s) (mem s) in
  mkTimer (mtx_ s) (pop_back (fst hm))
          (delete (from_option id 0 (snd hm !! a)) (_map s))
          (_count s) (snd hm) (brk s) (ticks s) (fired s).
Proof. reflexivity. Qed.

Lemma remove_hm_spec h m i a :
  ord (length h) (key h m) -> positions_ok (length h) h m ->
  h !! i = Some a ->
  ord (length h - 1) (key (fst (remove_hm i h m)) (snd (remove_hm i h m))) /\
  positions_ok (length h - 1) (fst (remove_hm i h m)) (snd (remove_hm i h m)) /\
  mem_sim m (snd (remove_hm i h m)) /\
  length (fst (remove_hm i h m)) = length h /\
  fst (remove_hm i h m) ≡ₚ h /\
  fst (remove_hm i h m) !! (length h - 1)%nat = Some a.
Proof.
  intros Hord Hpos Ei.
  pose proof (lookup_lt_Some _ _ _ Ei) as Li.
  unfold remove_hm. set (last := (length h - 1)%nat).
  destruct (Nat.eqb_spec i last) as [->|Ni]; simpl.
  - split; [eapply ord_weaken; [|eassumption]; lia|].
    split; [eapply positions_ok_weaken; [|eassumption]; lia|].
    split; [apply mem_sim_refl|]. split; [reflexivity|]. split; [reflexivity|assumption].
  - assert (Ll : (i < last)%nat) by (unfold last in *; lia).
    destruct (lookup_lt_is_Some_2 h last) as [b Eb]; [unfold last; lia|].
    set (h1 := swap h i last). set (m1 := store_idx h1 m i).
    assert (E1i : h1 !! i = Some b) by (eapply swap_lookup_l; eassumption).
    assert (E1l : h1 !! last = Some a) by (eapply swap_lookup_r; eassumption).
    assert (Len1 : length h1 = length h) by apply swap_length.
    assert (Sim1 : mem_sim m m1) by apply mem_sim_store_idx.
    assert (K1 : forall k, key h1 m1 k = swapK i last (key h m) k).
    { intros k. eapply key_swap; eassumption. }
    assert (Pos1 : positions_ok last h1 m1).
    { intros k x Hk Ek. unfold m1, store_idx. rewrite E1i.
      destruct (decide (k = i)) as [->|Nk].
      - assert (x = b) by congruence. subst x.
        destruct (Hpos last b) as (nd & End & _); [unfold last; lia|assumption|].
        exists (with_idx i nd). split; [|reflexivity].
        rewrite lookup_alter_eq, End. reflexivity.
      - unfold h1 in Ek. rewrite swap_lookup_ne in Ek by lia.
        destruct (Hpos k x) as (nd & End & Eidx); [unfold last in *; lia|assumption|].
        exists nd. split; [|exact Eidx].
        rewrite lookup_alter_ne; [exact End|].
        intros ->. assert (last = k); [|lia].
        eapply (positions_ok_inj _ h m); try eassumption; unfold last in *; lia. }
    assert (But1 : ord_but last i (key h1 m1)).
    { split.
      - intros k Hk Nk Npk. pose proof (parent_lt k) as Lk.
        rewrite !K1. unfold swapK.
        rewrite (proj2 (Nat.eqb_neq (parent k) i)) by assumption.
        rewrite (proj2 (Nat.eqb_neq (parent k) last)) by lia.
        rewrite (proj2 (Nat.eqb_neq k i)) by assumption.
        rewrite (proj2 (Nat.eqb_neq k last)) by lia.
        apply Hord. unfold last in *. lia.
      - intros k Hk Epk Hi0. pose proof (parent_lt k) as Lk. pose proof (parent_lt i) as Lpi.
        rewrite !K1. unfold swapK.
        rewrite (proj2 (Nat.eqb_neq (parent i) i)) by lia.
        rewrite (proj2 (Nat.eqb_neq (parent i) last)) by lia.
        rewrite (proj2 (Nat.eqb_neq k i)) by lia.
        rewrite (proj2 (Nat.eqb_neq k last)) by lia.
        transitivity (key h m i).
        + apply Hord. lia.
        + rewrite <- Epk. apply Hord. unfold last in *. lia. }
    assert (G : forall h2 m2, ord last (key h2 m2) -> repaired last h1 m1 h2 m2 ->
      ord last (key h2 m2) /\ positions_ok last h2 m2 /\ mem_sim m m2 /\
      length h2 = length h /\ h2 ≡ₚ h /\ h2 !! last = Some a).
    { intros h2 m2 O (P & S & L & Pm & F).
      split; [exact O|]. split; [exact P|].
      split; [eapply mem_sim_trans; eassumption|].
      split; [congruence|].
      split; [etransitivity; [exact Pm | apply swap_perm]|].
      rewrite F by lia. exact E1l. }
    unfold _shiftDown. rewrite Len1. fold last. cbn [fst snd].
    destruct (shiftDown_loop_first last last i h1 m1) as [(E & Es & Hc)|(Lt & c & Hc & Epc & Hlt)];
      [lia| |].
    + rewrite E, Nat.ltb_irrefl, Es. cbn [fst snd].
      destruct (shiftUp_loop_spec last (S i) i h1 m1) as [O R];
        [lia|lia|assumption..|].
      apply G; assumption.
    + rewrite (proj2 (Nat.ltb_lt _ _) Lt).
      destruct (shiftDown_loop_spec last last i h1 m1) as [O R];
        [lia|lia|assumption..| |].
      * destruct (decide (i = 0%nat)) as [->|N0]; [left; reflexivity|right].
        destruct But1 as [_ B2]. specialize (B2 c Hc Epc). lia.
      * apply G; assumption.
Qed.

(** ** Insertion at the end followed by [_shiftUp] *)

Lemma key_app_l h a m k : (k < length h)%nat -> key (h ++ [a]) m k = key h m k.
Proof. intros L. unfold key. rewrite lookup_app_l by assumption. reflexivity. Qed.

Lemma push_spec h m a nd :
  ord (length h) (key h m) -> positions_ok (length h) h m ->
  m !! a = Some nd -> idx nd = length h ->
  ord (S (length h))
      (key (fst (_shiftUp (length (h ++ [a]) - 1) (h ++ [a]) m))
           (snd (_shiftUp (length (h ++ [a]) - 1) (h ++ [a]) m))) /\
  positions_ok (S (length h))
      (fst (_shiftUp (length (h ++ [a]) - 1) (h ++ [a]) m))
      (snd (_shiftUp (length (h ++ [a]) - 1) (h ++ [a]) m)) /\
  mem_sim m (snd (_shiftUp (length (h ++ [a]) - 1) (h ++ [a]) m)) /\
  length (fst (_shiftUp (length (h ++ [a]) - 1) (h ++ [a]) m)) = S (length h) /\
  fst (_shiftUp (length (h ++ [a]) - 1) (h ++ [a]) m) ≡ₚ a :: h.
Proof.
  intros Hord Hpos Ea Ei.
  assert (Len : length (h ++ [a]) = S (length h)) by (rewrite length_app; simpl; lia).
  rewrite Len. replace (S (length h) - 1)%nat with (length h) by lia.
  unfold _shiftUp.
  destruct (shiftUp_loop_spec (S (length h)) (S (length h)) (length h) (h ++ [a]) m)
    as [O (P & S & L & Pm & _)].
  - lia.
  - lia.
  - intros k x Hk Ek. destruct (decide (k = length h)) as [->|Nk].
    + rewrite lookup_app_r in Ek by lia. rewrite Nat.sub_diag in Ek.
      simpl in Ek. assert (x = a) by congruence. subst x.
      exists nd. split; assumption.
    + rewrite lookup_app_l in Ek by lia. apply Hpos; [lia|assumption].
  - split.
    + intros k Hk Nk _. pose proof (parent_lt k).
      rewrite !key_app_l by lia. apply Hord. lia.
    + intros k Hk E _. pose proof (parent_lt k). lia.
  - intros k Hk E. pose proof (parent_lt k). lia.
  - split; [exact O|]. split; [exact P|]. split; [exact S|].
    split; [congruence|]. rewrite Pm. symmetry. apply Permutation_cons_append.
Qed.

(** ** Invariants of the engine *)

(** The heap property and the recorded positions. *)
Definition heap_inv s : Prop :=
  ord (length (_heap s)) (key (_heap s) (mem s)) /\
  positions_ok (length (_heap s)) (_heap s) (mem s).

(** The lookup table holds exactly the identifiers of the nodes of the
    heap, each mapped to that node. *)
Definition map_inv s : Prop :=
  forall i a, _map s !! i = Some a <->
    (a ∈ _heap s /\ exists nd, mem s !! a = Some nd /\ id nd = i).

(** Every allocated object lies below the allocation pointer. *)
Definition brk_inv s : Prop := forall a, is_Some (mem s !! a) -> (a < brk s)%nat.

Definition wf s : Prop := heap_inv s /\ map_inv s /\ brk_inv s.

Lemma positions_ok_NoDup h m : positions_ok (length h) h m -> NoDup h.
Proof.
  intros H. apply NoDup_alt. intros i j x Ei Ej.
  eapply positions_ok_inj; try eassumption; eapply lookup_lt_Some; eassumption.
Qed.

Lemma heap_inv_NoDup s : heap_inv s -> NoDup (_heap s).
Proof. intros [_ H]. eapply positions_ok_NoDup, H. Qed.

Lemma heap_inv_node s a :
  heap_inv s -> a ∈ _heap s ->
  exists nd, mem s !! a = Some nd /\ _heap s !! idx nd = Some a.
Proof.
  intros [_ H] Ha. apply list_elem_of_lookup in Ha as [i Ei].
  destruct (H i a) as (nd & E & <-); [eapply lookup_lt_Some; eassumption|assumption|].
  exists nd. split; assumption.
Qed.

Lemma snoc_take (h : list addr) a :
  h !! (length h - 1)%nat = Some a -> h = take (length h - 1) h ++ [a].
Proof.
  intros E. pose proof (lookup_lt_Some _ _ _ E) as L.
  rewrite <- (take_drop (length h - 1) h) at 1. f_equal.
  apply list_eq. intros k. rewrite lookup_drop.
  destruct k as [|k]; simpl.
  - rewrite Nat.add_0_r. exact E.
  - apply lookup_ge_None. lia.
Qed.

Lemma _removeNode_spec s a :
  heap_inv s -> a ∈ _heap s ->
  heap_inv (_removeNode a s) /\
  _heap s ≡ₚ a :: _heap (_removeNode a s) /\
  mem_sim (mem s) (mem (_removeNode a s)) /\
  _map (_removeNode a s) = delete (from_option id 0 (mem s !! a)) (_map s) /\
  mtx_ (_removeNode a s) = mtx_ s /\ _count (_removeNode a s) = _count s /\
  brk (_removeNode a s) = brk s /\ ticks (_removeNode a s) = ticks s /\
  fired (_removeNode a s) = fired s.
Proof.
  intros Hinv Ha.
  destruct (heap_inv_node s a Hinv Ha) as (nd & End & Ei).
  destruct Hinv as [Hord Hpos].
  rewrite _removeNode_eq. cbv zeta. rewrite End. cbn [from_option].
  destruct (remove_hm_spec (_heap s) (mem s) (idx nd) a Hord Hpos Ei)
    as (O & P & S & L & Pm & El).
  set (hm := remove_hm (idx nd) (_heap s) (mem s)) in *.
  cbn [_heap mem _map mtx_ _count brk ticks fired].
  assert (Lh : (0 < length (_heap s))%nat) by (apply lookup_lt_Some in Ei; lia).
  assert (Esn : fst hm = pop_back (fst hm) ++ [a]).
  { unfold pop_back. apply snoc_take. rewrite L. exact El. }
  assert (Lp : length (pop_back (fst hm)) = (length (_heap s) - 1)%nat).
  { unfold pop_back. rewrite length_take. lia. }
  assert (Kp : forall k, (k < length (_heap s) - 1)%nat ->
                 key (fst hm) (snd hm) k = key (pop_back (fst hm)) (snd hm) k).
  { intros k Hk. unfold key, pop_back. rewrite lookup_take_lt by lia. reflexivity. }
  split; [split; cbn [_heap mem]|].
  - rewrite Lp. eapply ord_ext; eassumption.
  - rewrite Lp. intros k x Hk Ek. apply P; [assumption|].
    unfold pop_back in Ek. rewrite lookup_take_lt in Ek by lia. exact Ek.
  - split.
    { rewrite <- Pm. rewrite Esn at 1. symmetry. apply Permutation_cons_append. }
    split; [exact S|]. split; [|repeat split].
    f_equal. symmetry. apply (mem_sim_field id 0 _ _ a (fun _ _ => eq_refl)) in S.
    rewrite End in S. exact S.
Qed.

Lemma key_agree h m m' k :
  (forall x, x ∈ h -> m' !! x = m !! x) -> key h m' k = key h m k.
Proof.
  intros H. unfold key. destruct (h !! k) as [x|] eqn:E; [|reflexivity].
  simpl. unfold expire_of. rewrite H; [reflexivity|].
  eapply list_elem_of_lookup_2, E.
Qed.

Lemma heap_agree n h m m' :
  (forall x, x ∈ h -> m' !! x = m !! x) ->
  ord n (key h m) /\ positions_ok n h m ->
  ord n (key h m') /\ positions_ok n h m'.
Proof.
  intros H [O P]. split.
  - eapply ord_ext; [|exact O]. intros k _. symmetry. apply key_agree, H.
  - intros k x Hk Ek. rewrite H by (eapply list_elem_of_lookup_2, Ek).
    apply P; assumption.
Qed.

Lemma removed_elem s a :
  heap_inv s -> a ∈ _heap s ->
  forall x, x ∈ _heap (_removeNode a s) <-> (x ∈ _heap s /\ x <> a).
Proof.
  intros Hinv Ha x.
  destruct (_removeNode_spec s a Hinv Ha) as (_ & Pm & _).
  pose proof (heap_inv_NoDup s Hinv) as ND. rewrite Pm in ND.
  apply NoDup_cons in ND as [Nin _].
  rewrite Pm. rewrite elem_of_cons. split.
  - intros Hx. split; [right; exact Hx|]. intros ->. contradiction.
  - intros [[->|Hx] N]; [contradiction|exact Hx].
Qed.

Lemma _removeNode_map_inv s a :
  heap_inv s -> map_inv s -> a ∈ _heap s -> map_inv (_removeNode a s).
Proof.
  intros Hinv Hmap Ha i x.
  destruct (_removeNode_spec s a Hinv Ha) as (_ & _ & S & Em & _).
  destruct (heap_inv_node s a Hinv Ha) as (nd & End & _).
  rewrite Em, End. cbn [from_option].
  pose proof (removed_elem s a Hinv Ha x) as Hel.
  pose proof (Hmap i x) as Hix.
  rewrite lookup_delete_Some. split.
  - intros (Ni & Hl). apply Hix in Hl as (Hx & nx & Ex & Eid).
    destruct (mem_sim_lookup _ _ _ _ S Ex) as (nx' & Ex' & Sx).
    apply same_node_fields in Sx as (Eid' & _).
    split; [apply Hel; split; [exact Hx|]|].
    + intros ->. rewrite End in Ex. congruence.
    + exists nx'. split; [exact Ex'|congruence].
  - intros (Hx' & nx' & Ex' & Eid'). apply Hel in Hx' as [Hx Nx].
    destruct (mem_sim_lookup _ _ _ _ (mem_sim_sym _ _ S) Ex') as (nx & Ex & Sx).
    apply same_node_fields in Sx as (Eid & _).
    assert (Hi : _map s !! i = Some x).
    { apply Hmap. split; [exact Hx|]. exists nx. split; [exact Ex|congruence]. }
    split; [|exact Hi].
    intros E. subst i.
    assert (Hi' : _map s !! id nd = Some a).
    { apply Hmap. split; [exact Ha|]. exists nd. split; [exact End|reflexivity]. }
    congruence.
Qed.

Lemma mem_sim_is_Some m1 m2 a : mem_sim m1 m2 -> is_Some (m2 !! a) -> is_Some (m1 !! a).
Proof.
  intros S [nd E]. destruct (mem_sim_lookup _ _ _ _ (mem_sim_sym _ _ S) E) as (nd' & E' & _).
  exists nd'. exact E'.
Qed.

Lemma _removeNode_wf s a : wf s -> a ∈ _heap s -> wf (_removeNode a s).
Proof.
  intros (Hh & Hm & Hb) Ha.
  destruct (_removeNode_spec s a Hh Ha) as (Hh' & _ & S & _ & _ & _ & Eb & _).
  split; [exact Hh'|]. split; [apply _removeNode_map_inv; assumption|].
  intros x Hx. rewrite Eb. apply Hb. eapply mem_sim_is_Some; eassumption.
Qed.

(** ** [_delNode] *)

Lemma _delNode_fields a s :
  _heap (_delNode a s) = _heap (_removeNode a s) /\
  _map (_delNode a s) = _map (_removeNode a s) /\
  mem (_delNode a s) = delete a (mem (_removeNode a s)) /\
  mtx_ (_delNode a s) = mtx_ (_removeNode a s) /\
  _count (_delNode a s) = _count (_removeNode a s) /\
  brk (_delNode a s) = brk (_removeNode a s) /\
  ticks (_delNode a s) = ticks (_removeNode a s) /\
  fired (_delNode a s) = fired (_removeNode a s).
Proof. repeat split. Qed.

Lemma _delNode_wf s a : wf s -> a ∈ _heap s -> wf (_delNode a s).
Proof.
  intros W Ha. pose proof (_removeNode_wf s a W Ha) as (Hh' & Hm' & Hb').
  destruct W as (Hh & Hm & Hb).
  pose proof (removed_elem s a Hh Ha) as Hel.
  destruct (_delNode_fields a s) as (Eh & Emp & Emem & _ & _ & Eb & _).
  assert (Agree : forall x, x ∈ _heap (_removeNode a s) ->
                    delete a (mem (_removeNode a s)) !! x = mem (_removeNode a s) !! x).
  { intros x Hx. apply Hel in Hx as [_ N]. apply lookup_delete_ne. congruence. }
  split; [|split].
  - unfold heap_inv. rewrite Eh, Emem. apply (heap_agree _ _ _ _ Agree). exact Hh'.
  - intros i x. rewrite Emp, Eh, Emem. pose proof (Hm' i x) as Hix. split.
    + intros Hl. apply Hix in Hl as [Hx Hnd].
      split; [exact Hx|]. rewrite Agree by assumption. exact Hnd.
    + intros [Hx Hnd]. apply Hix.
      split; [exact Hx|]. rewrite Agree in Hnd by assumption. exact Hnd.
  - intros x Hx. rewrite Eb. apply Hb'. rewrite Emem in Hx.
    destruct Hx as [nd Hx]. apply lookup_delete_Some in Hx as [_ Hx]. exists nd. exact Hx.
Qed.

(** ** [link]: the common end of both [_addTimer]s *)

Lemma link_fields a i c m s :
  _heap (link a i c m s) = fst (_shiftUp (length (_heap s ++ [a]) - 1) (_heap s ++ [a]) m) /\
  mem (link a i c m s) = snd (_shiftUp (length (_heap s ++ [a]) - 1) (_heap s ++ [a]) m) /\
  _map (link a i c m s) = map_insert i a (_map s) /\
  _count (link a i c m s) = c /\ brk (link a i c m s) = brk s /\
  ticks (link a i c m s) = S (ticks s) /\ fired (link a i c m s) = fired s /\
  mtx_ (link a i c m s) = mtx_ s.
Proof. repeat split. Qed.

Lemma link_heap_inv a i c m s nd :
  heap_inv s -> (forall x, x ∈ _heap s -> m !! x = mem s !! x) ->
  m !! a = Some nd -> idx nd = length (_heap s) ->
  heap_inv (link a i c m s) /\
  _heap (link a i c m s) ≡ₚ a :: _heap s /\
  mem_sim m (mem (link a i c m s)).
Proof.
  intros Hinv Agree Ea Ei.
  destruct (link_fields a i c m s) as (Eh & Em & _).
  destruct (heap_agree _ _ _ _ Agree Hinv) as [O P].
  destruct (push_spec (_heap s) m a nd O P Ea Ei) as (O' & P' & S & L & Pm).
  unfold heap_inv. rewrite Eh, Em, L. repeat split; assumption.
Qed.

Lemma link_map_inv a i c m s nd :
  heap_inv s -> map_inv s ->
  (forall x, x ∈ _heap s -> m !! x = mem s !! x) ->
  m !! a = Some nd -> idx nd = length (_heap s) -> id nd = i ->
  a ∉ _heap s -> _map s !! i = None ->
  map_inv (link a i c m s) /\ _map (link a i c m s) = <[i := a]> (_map s).
Proof.
  intros Hinv Hmap Agree Ea Ei Eid Nin Efresh.
  destruct (link_heap_inv a i c m s nd Hinv Agree Ea Ei) as (_ & Pm & S).
  destruct (link_fields a i c m s) as (_ & _ & Emp & _).
  assert (Emp' : _map (link a i c m s) = <[i := a]> (_map s)).
  { rewrite Emp. unfold map_insert. rewrite Efresh. reflexivity. }
  split; [|exact Emp'].
  intros j x. rewrite Emp'. pose proof (Hmap j x) as Hjx. split.
  - intros Hl. apply lookup_insert_Some in Hl as [(<- & <-)|(Nj & Hl)].
    + split; [rewrite Pm; left|].
      destruct (mem_sim_lookup _ _ _ _ S Ea) as (nd' & E' & Sn).
      apply same_node_fields in Sn as (Eid' & _).
      exists nd'. split; [exact E'|congruence].
    + apply Hjx in Hl as (Hx & nx & Ex & Ex').
      split; [rewrite Pm; right; exact Hx|].
      rewrite <- Agree in Ex by assumption.
      destruct (mem_sim_lookup _ _ _ _ S Ex) as (nd' & E' & Sn).
      apply same_node_fields in Sn as (Eid' & _).
      exists nd'. split; [exact E'|congruence].
  - intros (Hx & nd' & E' & Eid'). rewrite Pm in Hx.
    destruct (mem_sim_lookup _ _ _ _ (mem_sim_sym _ _ S) E') as (nx & Ex & Sn).
    apply same_node_fields in Sn as (Eidx & _).
    apply elem_of_cons in Hx as [->|Hx].
    + assert (Eji : j = i) by congruence. rewrite Eji. apply lookup_insert_eq.
    + rewrite Agree in Ex by assumption.
      assert (Hl : _map s !! j = Some x).
      { apply Hjx. split; [exact Hx|]. exists nx. split; [exact Ex|congruence]. }
      rewrite lookup_insert_ne; [exact Hl|]. intros ->. congruence.
Qed.

(** ** [_addTimer] *)

Definition new_node (timing : Z) (d : T) (f lp : bool) (now : Z) (i : Z) (pos : nat)
  : TimerNode T :=
  mkNode pos i (wrap64 (now + timing)) timing d f lp.

Lemma _addTimer_fields clock timing d f lp s :
  let r := _addTimer clock timing d f lp s in
  let i := Count (_count s) in
  let m := <[brk s := new_node timing d f lp (CurrentTime_ms clock (ticks s)) i
                               (length (_heap s))]> (mem s) in
  fst r = i /\
  _heap (snd r) = _heap (link (brk s) i i m s) /\
  mem (snd r) = mem (link (brk s) i i m s) /\
  _map (snd r) = map_insert i (brk s) (_map s) /\
  _count (snd r) = i /\ brk (snd r) = S (brk s) /\
  ticks (snd r) = S (ticks s) /\ fired (snd r) = fired s /\
  mtx_ (snd r) = mtx_ s.
Proof. repeat split. Qed.

Lemma wf_heap_allocated s x : wf s -> x ∈ _heap s -> (x < brk s)%nat.
Proof.
  intros (Hh & _ & Hb) Hx. apply Hb.
  destruct (heap_inv_node s x Hh Hx) as (nd & E & _). exists nd. exact E.
Qed.

Lemma _addTimer_heap clock timing d f lp s :
  wf s ->
  heap_inv (snd (_addTimer clock timing d f lp s)) /\
  brk_inv (snd (_addTimer clock timing d f lp s)) /\
  _heap (snd (_addTimer clock timing d f lp s)) ≡ₚ brk s :: _heap s /\
  mem_sim (<[brk s := new_node timing d f lp (CurrentTime_ms clock (ticks s))
                               (Count (_count s)) (length (_heap s))]> (mem s))
          (mem (snd (_addTimer clock timing d f lp s))).
Proof.
  intros W.
  destruct (_addTimer_fields clock timing d f lp s) as (_ & Eh & Em & _ & _ & Eb & _).
  cbv zeta in Eh, Em.
  set (i := Count (_count s)) in *.
  set (nd := new_node timing d f lp (CurrentTime_ms clock (ticks s)) i (length (_heap s))) in *.
  set (m := <[brk s := nd]> (mem s)) in *.
  assert (Agree : forall x, x ∈ _heap s -> m !! x = mem s !! x).
  { intros x Hx. pose proof (wf_heap_allocated s x W Hx).
    unfold m. apply lookup_insert_ne. lia. }
  destruct W as (Hh & Hm & Hb).
  destruct (link_heap_inv (brk s) i i m s nd Hh Agree) as (Hh' & Pm & S).
  { unfold m. apply lookup_insert_eq. }
  { reflexivity. }
  split; [unfold heap_inv; rewrite Eh, Em; exact Hh'|].
  split; [|split; [rewrite Eh; exact Pm | rewrite Em; exact S]].
  intros x Hx. rewrite Eb. rewrite Em in Hx.
  apply (mem_sim_is_Some _ _ _ S) in Hx. unfold m in Hx.
  destruct (decide (x = brk s)) as [->|N]; [lia|].
  rewrite lookup_insert_ne in Hx by congruence. apply Hb in Hx. lia.
Qed.

Lemma _addTimer_wf clock timing d f lp s :
  wf s -> _map s !! Count (_count s) = None ->
  wf (snd (_addTimer clock timing d f lp s)) /\
  _map (snd (_addTimer clock timing d f lp s)) = <[Count (_count s) := brk s]> (_map s).
Proof.
  intros W Fresh.
  destruct (_addTimer_heap clock timing d f lp s W) as (Hh' & Hb' & _).
  destruct (_addTimer_fields clock timing d f lp s) as (_ & Eh & Em & Emp & _).
  cbv zeta in Eh, Em, Emp.
  set (i := Count (_count s)) in *.
  set (nd := new_node timing d f lp (CurrentTime_ms clock (ticks s)) i (length (_heap s))) in *.
  set (m := <[brk s := nd]> (mem s)) in *.
  assert (Agree : forall x, x ∈ _heap s -> m !! x = mem s !! x).
  { intros x Hx. pose proof (wf_heap_allocated s x W Hx).
    unfold m. apply lookup_insert_ne. lia. }
  assert (Nin : brk s ∉ _heap s).
  { intros Hx. pose proof (wf_heap_allocated s _ W Hx). lia. }
  destruct W as (Hh & Hm & Hb).
  destruct (link_map_inv (brk s) i i m s nd Hh Hm Agree) as (Hm' & Emp').
  { unfold m. apply lookup_insert_eq. }
  { reflexivity. }
  { reflexivity. }
  { exact Nin. }
  { exact Fresh. }
  destruct (link_fields (brk s) i i m s) as (_ & _ & Elm & _).
  split; [split; [exact Hh'|split; [|exact Hb']]|].
  - intros j x. rewrite Emp, <- Elm, Eh, Em. apply Hm'.
  - rewrite Emp, <- Elm. exact Emp'.
Qed.

(** ** [_addTimer(TNode *node)] *)

(** The node after the three assignments of [_addTimer(TNode *node)]. *)
Definition renewed (pos : nat) (i : Z) (now : Z) (nd : TimerNode T) : TimerNode T :=
  mkNode pos i (wrap64 (now + timing_time_ms nd)) (timing_time_ms nd) (data nd)
         (fb nd) (is_loop nd).

Lemma _addTimer_node_eq clock a s nd :
  mem s !! a = Some nd ->
  snd (_addTimer_node clock a s) =
  link a (Count (_count s)) (Count (_count s))
       (<[a := renewed (length (_heap s)) (Count (_count s))
                       (CurrentTime_ms clock (ticks s)) nd]> (mem s)) s.
Proof.
  intros E. unfold _addTimer_node. cbn [snd]. rewrite E. cbn [from_option].
  f_equal. apply map_eq. intros x. destruct (decide (a = x)) as [->|N].
  - rewrite lookup_alter_eq, lookup_insert_eq, E. reflexivity.
  - rewrite lookup_alter_ne, lookup_insert_ne by assumption. reflexivity.
Qed.

Lemma _addTimer_node_heap clock a s nd :
  heap_inv s -> a ∉ _heap s -> mem s !! a = Some nd ->
  heap_inv (snd (_addTimer_node clock a s)) /\
  _heap (snd (_addTimer_node clock a s)) ≡ₚ a :: _heap s /\
  mem_sim (<[a := renewed (length (_heap s)) (Count (_count s))
                          (CurrentTime_ms clock (ticks s)) nd]> (mem s))
          (mem (snd (_addTimer_node clock a s))) /\
  _count (snd (_addTimer_node clock a s)) = Count (_count s) /\
  brk (snd (_addTimer_node clock a s)) = brk s /\
  ticks (snd (_addTimer_node clock a s)) = S (ticks s) /\
  fired (snd (_addTimer_node clock a s)) = fired s /\
  mtx_ (snd (_addTimer_node clock a s)) = mtx_ s.
Proof.
  intros Hh Nin E. rewrite (_addTimer_node_eq clock a s nd E).
  set (i := Count (_count s)).
  set (nd' := renewed (length (_heap s)) i (CurrentTime_ms clock (ticks s)) nd).
  destruct (link_heap_inv a i i (<[a := nd']> (mem s)) s nd' Hh) as (Hh' & Pm & S).
  - intros x Hx. apply lookup_insert_ne. intros ->. contradiction.
  - apply lookup_insert_eq.
  - reflexivity.
  - split; [exact Hh'|]. split; [exact Pm|]. split; [exact S|]. repeat split.
Qed.

Lemma _addTimer_node_map clock a s nd :
  heap_inv s -> map_inv s -> a ∉ _heap s -> mem s !! a = Some nd ->
  _map s !! Count (_count s) = None ->
  map_inv (snd (_addTimer_node clock a s)) /\
  _map (snd (_addTimer_node clock a s)) = <[Count (_count s) := a]> (_map s).
Proof.
  intros Hh Hm Nin E Fresh. rewrite (_addTimer_node_eq clock a s nd E).
  set (i := Count (_count s)) in *.
  set (nd' := renewed (length (_heap s)) i (CurrentTime_ms clock (ticks s)) nd).
  apply (link_map_inv a i i (<[a := nd']> (mem s)) s nd' Hh Hm).
  - intros x Hx. apply lookup_insert_ne. intros ->. contradiction.
  - apply lookup_insert_eq.
  - reflexivity.
  - reflexivity.
  - exact Nin.
  - exact Fresh.
Qed.

(** ** [invoke] *)

Lemma invoke_fields a s :
  _heap (invoke a s) = _heap s /\ mem (invoke a s) = mem s /\
  _map (invoke a s) = _map s /\ _count (invoke a s) = _count s /\
  brk (invoke a s) = brk s /\ ticks (invoke a s) = ticks s /\
  mtx_ (invoke a s) = mtx_ s /\
  fired (invoke a s) =
    fired s ++ match mem s !! a with
               | Some nd => if fb nd then [(a, nd)] else []
               | None => []
               end.
Proof.
  unfold invoke. destruct (mem s !! a) as [nd|]; [destruct (fb nd)|];
    cbn; rewrite ?app_nil_r; repeat split.
Qed.

Lemma wf_same s s' :
  _heap s' = _heap s -> mem s' = mem s -> _map s' = _map s -> brk s' = brk s ->
  wf s -> wf s'.
Proof.
  intros Eh Em Emp Eb. unfold wf, heap_inv, map_inv, brk_inv.
  rewrite Eh, Em, Emp, Eb. tauto.
Qed.

Lemma heap_inv_same s s' :
  _heap s' = _heap s -> mem s' = mem s -> heap_inv s -> heap_inv s'.
Proof. intros Eh Em. unfold heap_inv. rewrite Eh, Em. tauto. Qed.

Lemma _delNode_heap_inv s a :
  heap_inv s -> a ∈ _heap s -> heap_inv (_delNode a s).
Proof.
  intros Hh Ha.
  destruct (_removeNode_spec s a Hh Ha) as (Hh' & _).
  pose proof (removed_elem s a Hh Ha) as Hel.
  destruct (_delNode_fields a s) as (Eh & _ & Emem & _).
  unfold heap_inv. rewrite Eh, Emem. eapply heap_agree; [|exact Hh'].
  intros x Hx. apply Hel in Hx as [_ N]. apply lookup_delete_ne. congruence.
Qed.

(** ** One turn of the sweep *)

Lemma same_node_renewed pos pos' i now nd nd' :
  same_node nd nd' -> same_node (renewed pos i now nd) (renewed pos' i now nd').
Proof.
  intros S. apply same_node_fields in S as (_ & _ & Et & Ed & Ef & El).
  unfold same_node, renewed, with_idx. cbn. rewrite Et, Ed, Ef, El. reflexivity.
Qed.

Lemma expire_node_spec clock s a nd :
  heap_inv s -> a ∈ _heap s -> mem s !! a = Some nd ->
  heap_inv (expire_node clock a s) /\
  fired (expire_node clock a s) = fired s ++ (if fb nd then [(a, nd)] else []) /\
  brk (expire_node clock a s) = brk s /\
  mtx_ (expire_node clock a s) = mtx_ s /\
  (forall x, x <> a ->
     with_idx 0 <$> (mem (expire_node clock a s) !! x) = with_idx 0 <$> (mem s !! x)) /\
  if is_loop nd then
    _heap (expire_node clock a s) ≡ₚ _heap s /\
    ticks (expire_node clock a s) = S (ticks s) /\
    _count (expire_node clock a s) = Count (_count s) /\
    exists nd', mem (expire_node clock a s) !! a = Some nd' /\
      same_node nd' (renewed 0 (Count (_count s)) (CurrentTime_ms clock (ticks s)) nd)
  else
    _heap s ≡ₚ a :: _heap (expire_node clock a s) /\
    ticks (expire_node clock a s) = ticks s /\
    _count (expire_node clock a s) = _count s /\
    mem (expire_node clock a s) !! a = None.
Proof.
  intros Hh Ha End.
  destruct (invoke_fields a s) as (Eh & Em & Emp & Ec & Eb & Et & Ex & Ef).
  rewrite End in Ef.
  assert (Hh1 : heap_inv (invoke a s)) by (eapply heap_inv_same; eassumption).
  assert (Ha1 : a ∈ _heap (invoke a s)) by (rewrite Eh; exact Ha).
  destruct (_removeNode_spec _ a Hh1 Ha1) as (Hh2 & Pm2 & S2 & _ & Ex2 & Ec2 & Eb2 & Et2 & Ef2).
  pose proof (removed_elem _ a Hh1 Ha1 a) as Nin2.
  assert (Nin : a ∉ _heap (_removeNode a (invoke a s))) by (intros H; apply Nin2 in H; tauto).
  rewrite Em in S2. rewrite Eh in Pm2.
  unfold expire_node. rewrite Em, End. cbn [from_option].
  destruct (is_loop nd) eqn:El.
  - destruct (mem_sim_lookup _ _ _ _ S2 End) as (nd2 & End2 & Sn2).
    destruct (_addTimer_node_heap clock a _ nd2 Hh2 Nin End2)
      as (Hh3 & Pm3 & S3 & Ec3 & Eb3 & Et3 & Ef3 & Ex3).
    rewrite Ec2, Ec in *. rewrite Et2, Et in *.
    set (s3 := snd (_addTimer_node clock a (_removeNode a (invoke a s)))) in *.
    set (nd3 := renewed _ _ _ nd2) in *.
    split; [exact Hh3|]. split; [congruence|]. split; [congruence|].
    split; [congruence|]. split.
    { intros x Nx. rewrite <- (S3 x), lookup_insert_ne by congruence.
      symmetry. apply S2. }
    split; [rewrite Pm3, Pm2; reflexivity|].
    split; [exact Et3|]. split; [exact Ec3|].
    destruct (mem_sim_lookup _ _ a nd3 S3) as (nd' & E' & Sn').
    { apply lookup_insert_eq. }
    exists nd'. split; [exact E'|].
    unfold same_node in *. rewrite <- Sn'. unfold nd3.
    apply same_node_renewed. unfold same_node. symmetry. exact Sn2.
  - destruct (_delNode_fields a (invoke a s)) as (Eh' & _ & Em' & Ex' & Ec' & Eb' & Et' & Ef').
    split; [apply _delNode_heap_inv; assumption|].
    split; [congruence|]. split; [congruence|]. split; [congruence|].
    split.
    { intros x Nx. rewrite Em', lookup_delete_ne by congruence. symmetry. apply S2. }
    split; [rewrite Eh'; exact Pm2|]. split; [congruence|]. split; [congruence|].
    rewrite Em'. apply lookup_delete_eq.
Qed.

(** ** The identifier counter *)

Lemma Count_small c : INT_MIN - 1 <= c < INT_MAX -> Count c = c + 1.
Proof.
  unfold Count, wrap32, INT_MIN, INT_MAX. intros H.
  rewrite Z.mod_small; lia.
Qed.

Lemma Count_top : Count INT_MAX = INT_MIN.
Proof. reflexivity. Qed.

(** Every identifier of the table was drawn from the counter. *)
Definition ids_inv s : Prop := forall i a, _map s !! i = Some a -> i <= _count s.

Definition Inv s : Prop := wf s /\ ids_inv s /\ 0 <= _count s.

Lemma Inv_fresh s : Inv s -> _count s < INT_MAX -> _map s !! Count (_count s) = None.
Proof.
  intros (_ & Hi & H0) Hc. rewrite Count_small by (unfold INT_MIN; lia).
  destruct (_map s !! (_count s + 1)) as [a|] eqn:E; [|reflexivity].
  apply Hi in E. lia.
Qed.

Lemma wf_init : wf (@init T).
Proof.
  split; [split|split].
  - intros i Hi. simpl in Hi. lia.
  - intros i a Hi. simpl in Hi. lia.
  - intros i a. simpl. rewrite lookup_empty. split; [discriminate|].
    intros [H _]. inversion H.
  - intros a [nd H]. simpl in H. rewrite lookup_empty in H. discriminate.
Qed.

Lemma Inv_init : Inv (@init T).
Proof.
  split; [apply wf_init|]. split; [|simpl; lia].
  intros i a H. simpl in H. rewrite lookup_empty in H. discriminate.
Qed.

Lemma set_mtx_fields b s :
  _heap (set_mtx b s) = _heap s /\ mem (set_mtx b s) = mem s /\
  _map (set_mtx b s) = _map s /\ _count (set_mtx b s) = _count s /\
  brk (set_mtx b s) = brk s /\ ticks (set_mtx b s) = ticks s /\
  fired (set_mtx b s) = fired s /\ mtx_ (set_mtx b s) = b.
Proof. repeat split. Qed.

Lemma Inv_same s s' :
  _heap s' = _heap s -> mem s' = mem s -> _map s' = _map s -> brk s' = brk s ->
  _count s' = _count s -> Inv s -> Inv s'.
Proof.
  intros Eh Em Emp Eb Ec (W & Hi & H0).
  split; [eapply wf_same; eassumption|].
  unfold ids_inv. rewrite Emp, Ec. split; assumption.
Qed.

(** *** [DelTimer] *)

Lemma DelTimer_found s i a :
  _map s !! i = Some a ->
  DelTimer i s =
    (true, if negb (mtx_ s) then set_mtx false (_delNode a (set_mtx true s))
           else _delNode a (set_mtx true s)).
Proof. intros E. unfold DelTimer. cbn [_map set_mtx]. rewrite E. reflexivity. Qed.

Lemma DelTimer_absent s i :
  _map s !! i = None -> DelTimer i s = (false, set_mtx true s).
Proof. intros E. unfold DelTimer. cbn [_map set_mtx]. rewrite E. reflexivity. Qed.

Lemma DelTimer_found_fields s i a :
  _map s !! i = Some a ->
  _heap (snd (DelTimer i s)) = _heap (_removeNode a s) /\
  mem (snd (DelTimer i s)) = delete a (mem (_removeNode a s)) /\
  _map (snd (DelTimer i s)) = _map (_removeNode a s) /\
  _count (snd (DelTimer i s)) = _count s /\
  brk (snd (DelTimer i s)) = brk s /\ ticks (snd (DelTimer i s)) = ticks s /\
  fired (snd (DelTimer i s)) = fired s /\ mtx_ (snd (DelTimer i s)) = mtx_ s.
Proof.
  intros E. rewrite (DelTimer_found s i a E). destruct (mtx_ s) eqn:Em; cbn [negb snd];
    repeat split; destruct s; cbn in *; congruence.
Qed.

Lemma wf_lookup s i a :
  wf s -> _map s !! i = Some a ->
  a ∈ _heap s /\ exists nd, mem s !! a = Some nd /\ id nd = i.
Proof. intros (_ & Hm & _) E. apply Hm, E. Qed.

Lemma _delNode_map s a nd :
  heap_inv s -> a ∈ _heap s -> mem s !! a = Some nd ->
  _map (_delNode a s) = delete (id nd) (_map s).
Proof.
  intros Hh Ha E. destruct (_removeNode_spec s a Hh Ha) as (_ & _ & _ & Em & _).
  rewrite E in Em. exact Em.
Qed.

Lemma DelTimer_wf s i : wf s -> wf (snd (DelTimer i s)).
Proof.
  intros W. destruct (_map s !! i) as [a|] eqn:E.
  - destruct (wf_lookup s i a W E) as (Ha & _).
    destruct (DelTimer_found_fields s i a E) as (Eh & Em & Emp & _ & Eb & _).
    eapply (wf_same (_delNode a s)); try assumption.
    apply _delNode_wf; assumption.
  - rewrite (DelTimer_absent s i E). eapply wf_same; try reflexivity. exact W.
Qed.

Lemma DelTimer_map s i : wf s -> _map (snd (DelTimer i s)) = delete i (_map s).
Proof.
  intros W. destruct (_map s !! i) as [a|] eqn:E.
  - destruct (wf_lookup s i a W E) as (Ha & nd & End & Eid).
    destruct (DelTimer_found_fields s i a E) as (_ & _ & Emp & _).
    rewrite Emp. destruct W as (Hh & _).
    change (_map (_removeNode a s)) with (_map (_delNode a s)).
    rewrite (_delNode_map s a nd Hh Ha End). congruence.
  - rewrite (DelTimer_absent s i E). cbn. symmetry. apply delete_id, E.
Qed.

Lemma DelTimer_Inv s i : Inv s -> Inv (snd (DelTimer i s)) /\ _count (snd (DelTimer i s)) = _count s.
Proof.
  intros (W & Hi & H0).
  assert (Ec : _count (snd (DelTimer i s)) = _count s).
  { destruct (_map s !! i) as [a|] eqn:E.
    - apply (DelTimer_found_fields s i a E).
    - rewrite (DelTimer_absent s i E). reflexivity. }
  split; [|exact Ec]. split; [apply DelTimer_wf, W|]. split; [|rewrite Ec; exact H0].
  intros j x. rewrite (DelTimer_map s i W), Ec. intros H.
  apply lookup_delete_Some in H as [_ H]. eapply Hi, H.
Qed.

(** *** [AddTimer] *)

Lemma AddTimer_free clock timing d f lp s :
  mtx_ s = false ->
  AddTimer clock timing d f lp s =
    Ret (Count (_count s),
         set_mtx false (snd (_addTimer clock timing d f lp (set_mtx true s)))).
Proof. intros E. unfold AddTimer. rewrite E. reflexivity. Qed.

Lemma AddTimer_held clock timing d f lp s :
  mtx_ s = true -> AddTimer clock timing d f lp s = Blocked.
Proof. intros E. unfold AddTimer. rewrite E. reflexivity. Qed.

Lemma AddTimer_Ret clock timing d f lp s r :
  AddTimer clock timing d f lp s = Ret r ->
  fst r = Count (_count s) /\
  _heap (snd r) = _heap (snd (_addTimer clock timing d f lp s)) /\
  mem (snd r) = mem (snd (_addTimer clock timing d f lp s)) /\
  _map (snd r) = _map (snd (_addTimer clock timing d f lp s)) /\
  _count (snd r) = Count (_count s) /\ brk (snd r) = S (brk s) /\
  ticks (snd r) = S (ticks s) /\ fired (snd r) = fired s /\ mtx_ (snd r) = false.
Proof.
  unfold AddTimer. destruct (mtx_ s); [discriminate|].
  intros E. injection E as <-. repeat split.
Qed.

Lemma AddTimer_Inv clock timing d f lp s r :
  Inv s -> _count s < INT_MAX ->
  AddTimer clock timing d f lp s = Ret r ->
  Inv (snd r) /\ _count (snd r) = _count s + 1 /\ fst r = _count s + 1.
Proof.
  intros I Hc E. pose proof (Inv_fresh s I Hc) as Fresh.
  destruct I as (W & Hi & H0).
  destruct (AddTimer_Ret _ _ _ _ _ _ _ E) as (Er & Eh & Em & Emp & Ec & Eb & _).
  destruct (_addTimer_wf clock timing d f lp s W Fresh) as (W' & Emp').
  destruct (_addTimer_fields clock timing d f lp s) as (_ & _ & _ & _ & _ & Eb' & _).
  rewrite Count_small in Ec, Er by (unfold INT_MIN; lia).
  split; [|split; assumption].
  split; [eapply wf_same; [exact Eh|exact Em|exact Emp|congruence|exact W']|].
  split; [|lia].
  intros j x. rewrite Emp, Emp', Ec. intros H.
  apply lookup_insert_Some in H as [(<- & _)|(_ & H)].
  - rewrite Count_small by (unfold INT_MIN; lia). lia.
  - apply Hi in H. lia.
Qed.

(** *** One turn of the sweep keeps the invariants *)

Lemma expire_node_wf clock s a :
  wf s -> a ∈ _heap s -> _map s !! Count (_count s) = None ->
  wf (expire_node clock a s) /\
  forall j x, _map (expire_node clock a s) !! j = Some x ->
    (j = Count (_count s) /\ from_option is_loop false (mem s !! a) = true) \/
    _map s !! j = Some x.
Proof.
  intros W Ha Fresh.
  destruct (invoke_fields a s) as (Eh & Em & Emp & Ec & Eb & Et & Ex & Ef).
  assert (W1 : wf (invoke a s)) by (eapply wf_same; eassumption).
  assert (Ha1 : a ∈ _heap (invoke a s)) by (rewrite Eh; exact Ha).
  destruct W1 as (Hh1 & Hm1 & Hb1).
  destruct (heap_inv_node _ a Hh1 Ha1) as (nd & End & _).
  unfold expire_node. rewrite End. rewrite Em in End. rewrite End. cbn [from_option].
  rewrite <- Em in End.
  destruct (is_loop nd).
  - pose proof (_removeNode_wf _ a (conj Hh1 (conj Hm1 Hb1)) Ha1) as (Hh2 & Hm2 & Hb2).
    destruct (_removeNode_spec _ a Hh1 Ha1) as (_ & _ & S2 & Emp2 & _ & Ec2 & Eb2 & _).
    pose proof (removed_elem _ a Hh1 Ha1 a) as Nin2.
    assert (Nin : a ∉ _heap (_removeNode a (invoke a s))) by (intros H; apply Nin2 in H; tauto).
    destruct (mem_sim_lookup _ _ _ _ S2 End) as (nd2 & End2 & _).
    set (s2 := _removeNode a (invoke a s)) in *.
    assert (Fresh2 : _map s2 !! Count (_count s2) = None).
    { rewrite Emp2, Ec2, Ec, Emp. apply lookup_delete_None. right. exact Fresh. }
    destruct (_addTimer_node_heap clock a s2 nd2 Hh2 Nin End2)
      as (Hh3 & _ & S3 & _ & Eb3 & _).
    destruct (_addTimer_node_map clock a s2 nd2 Hh2 Hm2 Nin End2 Fresh2) as (Hm3 & Emp3).
    split; [split; [exact Hh3|split; [exact Hm3|]]|].
    + intros x Hx. rewrite Eb3. apply (mem_sim_is_Some _ _ _ S3) in Hx.
      destruct (decide (x = a)) as [->|N].
      * apply Hb2. exists nd2. exact End2.
      * rewrite lookup_insert_ne in Hx by congruence. apply Hb2, Hx.
    + intros j x. rewrite Emp3, Ec2, Ec. intros H.
      apply lookup_insert_Some in H as [(<- & _)|(_ & H)]; [left; split; reflexivity|right].
      rewrite Emp2, Emp in H. apply lookup_delete_Some in H as [_ H]. exact H.
  - split; [apply _delNode_wf; [exact (conj Hh1 (conj Hm1 Hb1))|exact Ha1]|].
    intros j x H. right.
    destruct (_removeNode_spec _ a Hh1 Ha1) as (_ & _ & _ & Emp2 & _).
    change (_map (_delNode a (invoke a s))) with (_map (_removeNode a (invoke a s))) in H.
    rewrite Emp2, Emp in H. apply lookup_delete_Some in H as [_ H]. exact H.
Qed.

Lemma expire_node_count clock s a :
  _count (expire_node clock a s) =
  if from_option is_loop false (mem s !! a) then Count (_count s) else _count s.
Proof.
  destruct (invoke_fields a s) as (_ & Em & _ & Ec & _).
  unfold expire_node. rewrite Em.
  destruct (from_option is_loop false (mem s !! a)); [|exact Ec].
  cbn. rewrite Ec. reflexivity.
Qed.

Lemma expire_node_Inv clock s a :
  Inv s -> a ∈ _heap s -> _count s < INT_MAX ->
  Inv (expire_node clock a s) /\
  _count s <= _count (expire_node clock a s) <= _count s + 1.
Proof.
  intros I Ha Hc. pose proof (Inv_fresh s I Hc) as Fresh.
  destruct I as (W & Hi & H0).
  destruct (expire_node_wf clock s a W Ha Fresh) as (W' & Hmap).
  pose proof (expire_node_count clock s a) as Ec.
  rewrite Count_small in Ec, Hmap by (unfold INT_MIN; lia).
  assert (Hb : _count s <= _count (expire_node clock a s) <= _count s + 1).
  { rewrite Ec. destruct (from_option is_loop false (mem s !! a)); lia. }
  split; [|exact Hb]. split; [exact W'|]. split; [|lia].
  intros j x H. apply Hmap in H as [[-> El]|H].
  - rewrite Ec, El. lia.
  - apply Hi in H. lia.
Qed.

(** *** The sweep keeps the invariants *)

Lemma expire_loop_S clock fuel now s :
  expire_loop clock (S fuel) now s =
  match _heap s with
  | [] => Ret s
  | a :: _ =>
      if now <? expire_of (mem s) a then Ret s
      else expire_loop clock fuel now (expire_node clock a s)
  end.
Proof. reflexivity. Qed.

Lemma expire_loop_Inv clock now fuel : forall s s',
  Inv s -> _count s + Z.of_nat fuel <= INT_MAX ->
  expire_loop clock fuel now s = Ret s' ->
  Inv s' /\ _count s <= _count s' <= _count s + Z.of_nat fuel.
Proof.
  induction fuel as [|fuel IH]; intros s s' I Hc E; [discriminate|].
  rewrite expire_loop_S in E.
  destruct (_heap s) as [|a tl] eqn:Eh.
  - injection E as <-. split; [exact I|lia].
  - destruct (now <? expire_of (mem s) a).
    + injection E as <-. split; [exact I|lia].
    + assert (Ha : a ∈ _heap s) by (rewrite Eh; left).
      destruct (expire_node_Inv clock s a I Ha) as (I1 & Hc1); [lia|].
      destruct (IH (expire_node clock a s) s' I1) as (I' & Hc'); [lia|exact E|].
      split; [exact I'|lia].
Qed.

Lemma ExpireTimer_Ret clock fuel s s' :
  ExpireTimer clock fuel s = Ret s' ->
  mtx_ s = false /\
  ((_heap s = [] /\ s' = s) \/
   (_heap s <> [] /\
    exists s2,
      expire_loop clock fuel (CurrentTime_ms clock (ticks s))
        (mkTimer true (_heap s) (_map s) (_count s) (mem s) (brk s)
                 (S (ticks s)) (fired s)) = Ret s2 /\
      s' = set_mtx false s2)).
Proof.
  unfold ExpireTimer. destruct (mtx_ s); [discriminate|].
  intros E. split; [reflexivity|].
  destruct (_heap s) as [|a tl] eqn:Eh.
  - left. split; [reflexivity|]. congruence.
  - right. split; [discriminate|].
    destruct (expire_loop _ _ _ _) as [s2| |]; try discriminate.
    exists s2. split; [reflexivity|]. congruence.
Qed.

Lemma ExpireTimer_Inv clock fuel s s' :
  Inv s -> _count s + Z.of_nat fuel <= INT_MAX ->
  ExpireTimer clock fuel s = Ret s' ->
  Inv s' /\ _count s <= _count s' <= _count s + Z.of_nat fuel.
Proof.
  intros I Hc E.
  destruct (ExpireTimer_Ret _ _ _ _ E) as (_ & [(_ & ->)|(_ & s2 & E2 & ->)]).
  - split; [exact I|lia].
  - apply expire_loop_Inv in E2 as (I2 & Hc2).
    + split; [|exact Hc2]. eapply Inv_same; [..|exact I2]; reflexivity.
    + eapply Inv_same; [..|exact I]; reflexivity.
    + exact Hc.
Qed.

(** *** Sequences of calls keep the invariants *)

Lemma step_Inv clock o s r :
  Inv s -> _count s + draws o <= INT_MAX -> step clock o s = Ret r ->
  Inv (snd r) /\ _count s <= _count (snd r) <= _count s + draws o /\
  Forall (fun i => _count s < i <= _count (snd r)) (fst r).
Proof.
  intros I Hc E. destruct o as [timing d f lp|i|fuel]; cbn [step draws] in *.
  - destruct (AddTimer clock timing d f lp s) as [r1| |] eqn:Ea; try discriminate.
    injection E as <-. cbn [fst snd].
    destruct (AddTimer_Inv clock timing d f lp s r1 I) as (I' & Ec & Er); [lia|exact Ea|].
    split; [exact I'|]. split; [lia|]. constructor; [lia|constructor].
  - injection E as <-. cbn [fst snd].
    destruct (DelTimer_Inv s i I) as (I' & Ec).
    split; [exact I'|]. split; [lia|constructor].
  - destruct (ExpireTimer clock fuel s) as [s1| |] eqn:Ee; try discriminate.
    injection E as <-. cbn [fst snd].
    destruct (ExpireTimer_Inv _ _ _ _ I Hc Ee) as (I' & Ec).
    split; [exact I'|]. split; [lia|constructor].
Qed.

Lemma draws_nonneg (o : op T) : 0 <= draws o.
Proof. destruct o; cbn; lia. Qed.

Lemma budget_nonneg (os : list (op T)) : 0 <= budget os.
Proof.
  induction os as [|o os IH]; cbn; [lia|]. pose proof (draws_nonneg o).
  fold (budget os). lia.
Qed.

Lemma budget_cons (o : op T) os : budget (o :: os) = draws o + budget os.
Proof. reflexivity. Qed.

Lemma run_cons clock o os s :
  run clock (o :: os) s =
  match step clock o s with
  | Ret r1 =>
      match run clock os (snd r1) with
      | Ret r2 => Ret (fst r1 ++ fst r2, snd r2)
      | Blocked => Blocked
      | OutOfFuel => OutOfFuel
      end
  | Blocked => Blocked
  | OutOfFuel => OutOfFuel
  end.
Proof. reflexivity. Qed.

Lemma run_Inv clock os : forall s r,
  Inv s -> _count s + budget os <= INT_MAX -> run clock os s = Ret r ->
  Inv (snd r) /\ _count s <= _count (snd r) <= _count s + budget os /\
  Forall (fun i => _count s < i <= _count (snd r)) (fst r) /\
  StronglySorted Z.lt (fst r).
Proof.
  induction os as [|o os IH]; intros s r I Hc E.
  - injection E as <-. cbn. split; [exact I|]. split; [lia|]. split; constructor.
  - rewrite run_cons in E. rewrite budget_cons in *.
    pose proof (draws_nonneg o). pose proof (budget_nonneg os).
    destruct (step clock o s) as [r1| |] eqn:Es; try discriminate.
    destruct (run clock os (snd r1)) as [r2| |] eqn:Er; try discriminate.
    injection E as <-. cbn [fst snd].
    destruct (step_Inv clock o s r1 I) as (I1 & Hc1 & F1); [lia|exact Es|].
    destruct (IH (snd r1) r2 I1) as (I2 & Hc2 & F2 & S2); [lia|exact Er|].
    split; [exact I2|]. split; [lia|]. split.
    + apply Forall_app. split.
      * eapply Forall_impl; [exact F1|]. cbn. intros; lia.
      * eapply Forall_impl; [exact F2|]. cbn. intros; lia.
    + destruct o; cbn [step] in Es.
      * destruct (AddTimer _ _ _ _ _ _) as [ra| |]; try discriminate.
        injection Es as <-. cbn [fst snd] in *. constructor; [exact S2|].
        apply Forall_inv in F1. eapply Forall_impl; [exact F2|]. cbn. intros; lia.
      * injection Es as <-. exact S2.
      * destruct (ExpireTimer _ _ _) as [ra| |]; try discriminate.
        injection Es as <-. exact S2.
Qed.

(** ** What holds of every state: the vector only loses or gains nodes
    where the source says so *)

Lemma shiftUp_loop_perm fuel : forall p h m, fst (shiftUp_loop fuel p h m) ≡ₚ h.
Proof.
  induction fuel as [|fuel IH]; intros p h m; [reflexivity|].
  rewrite shiftUp_loop_S. destruct (_ || _); [reflexivity|].
  rewrite IH. apply swap_perm.
Qed.

Lemma shiftDown_loop_perm fuel n : forall p h m,
  fst (snd (shiftDown_loop fuel n p h m)) ≡ₚ h.
Proof.
  induction fuel as [|fuel IH]; intros p h m; [reflexivity|].
  rewrite shiftDown_loop_S. destruct (_ <=? _)%nat; [reflexivity|].
  destruct (negb _); [reflexivity|]. rewrite IH. apply swap_perm.
Qed.

Lemma remove_hm_perm i h m : fst (remove_hm i h m) ≡ₚ h.
Proof.
  unfold remove_hm. destruct (_ =? _)%nat; [reflexivity|].
  unfold _shiftDown, _shiftUp. cbn [fst snd].
  destruct (_ <? _)%nat.
  - rewrite shiftDown_loop_perm. apply swap_perm.
  - rewrite shiftUp_loop_perm, shiftDown_loop_perm. apply swap_perm.
Qed.

Lemma _removeNode_subset a s x : x ∈ _heap (_removeNode a s) -> x ∈ _heap s.
Proof.
  rewrite _removeNode_eq. cbv zeta. cbn [_heap]. unfold pop_back. intros H.
  apply subseteq_take in H. rewrite remove_hm_perm in H. exact H.
Qed.

Lemma link_perm a i c m s : _heap (link a i c m s) ≡ₚ a :: _heap s.
Proof.
  unfold link, _shiftUp. cbn [_heap fst]. rewrite shiftUp_loop_perm.
  symmetry. apply Permutation_cons_append.
Qed.

Lemma expire_node_subset clock a s x :
  a ∈ _heap s -> x ∈ _heap (expire_node clock a s) -> x ∈ _heap s.
Proof.
  intros Ha. destruct (invoke_fields a s) as (Eh & _).
  unfold expire_node. destruct (from_option is_loop false _).
  - unfold _addTimer_node. cbn [snd]. rewrite link_perm.
    intros [->|H]%elem_of_cons; [exact Ha|].
    apply _removeNode_subset in H. rewrite Eh in H. exact H.
  - intros H. change (x ∈ _heap (_removeNode a (invoke a s))) in H.
    apply _removeNode_subset in H. rewrite Eh in H. exact H.
Qed.

Lemma expire_node_fired clock a s :
  exists L, fired (expire_node clock a s) = fired s ++ L /\
            forall e, e ∈ L -> fst e = a.
Proof.
  destruct (invoke_fields a s) as (_ & _ & _ & _ & _ & _ & _ & Ef).
  exists (match mem s !! a with
          | Some nd => if fb nd then [(a, nd)] else []
          | None => []
          end).
  split.
  - rewrite <- Ef. unfold expire_node. destruct (from_option is_loop false _); reflexivity.
  - intros e He. destruct (mem s !! a) as [nd|]; [destruct (fb nd)|].
    + apply list_elem_of_singleton in He. subst e. reflexivity.
    + inversion He.
    + inversion He.
Qed.

Lemma expire_node_brk clock a s : brk (expire_node clock a s) = brk s.
Proof.
  destruct (invoke_fields a s) as (_ & _ & _ & _ & Eb & _).
  unfold expire_node. destruct (from_option is_loop false _); exact Eb.
Qed.

Lemma expire_loop_frame clock now fuel : forall s s',
  expire_loop clock fuel now s = Ret s' ->
  (forall x, x ∈ _heap s' -> x ∈ _heap s) /\ brk s' = brk s /\
  exists L, fired s' = fired s ++ L /\ forall e, e ∈ L -> fst e ∈ _heap s.
Proof.
  induction fuel as [|fuel IH]; intros s s' E; [discriminate|].
  rewrite expire_loop_S in E.
  assert (Stop : s' = s -> (forall x, x ∈ _heap s' -> x ∈ _heap s) /\ brk s' = brk s /\
            exists L, fired s' = fired s ++ L /\ forall e, e ∈ L -> fst e ∈ _heap s).
  { intros ->. split; [tauto|]. split; [reflexivity|]. exists [].
    rewrite app_nil_r. split; [reflexivity|]. intros e He. inversion He. }
  destruct (_heap s) as [|a tl] eqn:Eh; [apply Stop; congruence|].
  destruct (now <? expire_of (mem s) a); [apply Stop; congruence|].
  assert (Ha : a ∈ _heap s) by (rewrite Eh; left).
  destruct (IH _ _ E) as (Hsub & Eb & L & Ef & HL).
  destruct (expire_node_fired clock a s) as (L0 & Ef0 & HL0).
  rewrite <- Eh. split; [|split].
  - intros x Hx. eapply expire_node_subset; [exact Ha|]. apply Hsub, Hx.
  - rewrite Eb. apply expire_node_brk.
  - exists (L0 ++ L). split; [rewrite Ef, Ef0, app_assoc; reflexivity|].
    intros e [He|He]%elem_of_app.
    + rewrite (HL0 e He). exact Ha.
    + eapply expire_node_subset; [exact Ha|]. apply HL, He.
Qed.

(** A node that is neither in the heap nor unallocated. *)
Definition gone (a : addr) s : Prop := (a ∉ _heap s) /\ (a < brk s)%nat.

Lemma step_gone clock a o s r :
  step clock o s = Ret r -> gone a s ->
  gone a (snd r) /\ exists L, fired (snd r) = fired s ++ L /\ a ∉ L.*1.
Proof.
  intros E [Nin Lt]. destruct o as [timing d f lp|i|fuel]; cbn [step] in E.
  - destruct (AddTimer clock timing d f lp s) as [r1| |] eqn:Ea; try discriminate.
    injection E as <-. cbn [fst snd].
    destruct (AddTimer_Ret _ _ _ _ _ _ _ Ea) as (_ & Eh & _ & _ & _ & Eb & _ & Ef & _).
    split; [split|].
    + destruct (_addTimer_fields clock timing d f lp s) as (_ & Eh' & _).
      cbv zeta in Eh'. rewrite Eh, Eh', link_perm.
      intros [->|H]%elem_of_cons; [lia|contradiction].
    + rewrite Eb. lia.
    + exists []. rewrite app_nil_r. split; [exact Ef|]. intros H. inversion H.
  - injection E as <-. cbn [fst snd].
    assert (G : gone a (snd (DelTimer i s)) /\ fired (snd (DelTimer i s)) = fired s).
    { destruct (_map s !! i) as [x|] eqn:Ei.
      - destruct (DelTimer_found_fields s i x Ei) as (Eh & _ & _ & _ & Eb & _ & Ef & _).
        split; [split|exact Ef].
        + rewrite Eh. intros H. apply _removeNode_subset in H. contradiction.
        + rewrite Eb. exact Lt.
      - rewrite (DelTimer_absent s i Ei). split; [split; assumption|reflexivity]. }
    destruct G as (G & Ef). split; [exact G|].
    exists []. rewrite app_nil_r. split; [exact Ef|]. intros H. inversion H.
  - destruct (ExpireTimer clock fuel s) as [s1| |] eqn:Ee; try discriminate.
    injection E as <-. cbn [fst snd].
    destruct (ExpireTimer_Ret _ _ _ _ Ee) as (_ & [(_ & ->)|(_ & s2 & E2 & ->)]).
    + split; [split; assumption|]. exists []. rewrite app_nil_r.
      split; [reflexivity|]. intros H. inversion H.
    + apply expire_loop_frame in E2 as (Hsub & Eb & L & Ef & HL).
      cbn [_heap brk fired] in *. split; [split|].
      * intros H. apply Hsub in H. contradiction.
      * cbn. rewrite Eb. exact Lt.
      * exists L. split; [exact Ef|]. intros H.
        apply list_elem_of_fmap in H as (e & -> & He). apply HL in He. contradiction.
Qed.

Lemma run_gone clock a os : forall s r,
  run clock os s = Ret r -> gone a s ->
  gone a (snd r) /\ exists L, fired (snd r) = fired s ++ L /\ a ∉ L.*1.
Proof.
  induction os as [|o os IH]; intros s r E G.
  - injection E as <-. split; [exact G|]. exists []. rewrite app_nil_r.
    split; [reflexivity|]. intros H. inversion H.
  - rewrite run_cons in E.
    destruct (step clock o s) as [r1| |] eqn:Es; try discriminate.
    destruct (run clock os (snd r1)) as [r2| |] eqn:Er; try discriminate.
    injection E as <-. cbn [fst snd].
    destruct (step_gone _ _ _ _ _ Es G) as (G1 & L1 & Ef1 & N1).
    destruct (IH _ _ Er G1) as (G2 & L2 & Ef2 & N2).
    split; [exact G2|]. exists (L1 ++ L2).
    split; [rewrite Ef2, Ef1, app_assoc; reflexivity|].
    rewrite fmap_app. intros [H|H]%elem_of_app; contradiction.
Qed.

(** ** The sweep: which nodes fire, and in which order *)

Definition dueb (now : Z) m (a : addr) : bool := expire_of m a <=? now.

Definition fb_of m (a : addr) : bool := from_option fb false (m !! a).

(** The nodes of the heap that are due at [now] and have a callback. *)
Definition to_fire (now : Z) s : list addr :=
  filter (fun a => dueb now (mem s) a && fb_of (mem s) a = true) (_heap s).

Definition due_nodes (now : Z) s : list addr :=
  filter (fun a => dueb now (mem s) a = true) (_heap s).

(** The expiration times carried by a trace of callbacks. *)
Definition deadlines (L : list (addr * TimerNode T)) : list Z :=
  (fun e => expire_ms (snd e)) <$> L.

(** Every repeating node of the heap has a positive period, and every
    later clock reading [k > t0] is at least [now] and, added to the
    period, still fits in 64 bits. *)
Definition reschedules_later (clock : nat -> Z) (now : Z) (t0 : nat) s : Prop :=
  forall a nd, a ∈ _heap s -> mem s !! a = Some nd -> is_loop nd = true ->
    0 < timing_time_ms nd /\
    forall k, (t0 < k)%nat ->
      now <= CurrentTime_ms clock k /\
      CurrentTime_ms clock k + timing_time_ms nd < 2 ^ 64.

Lemma heap_root_min s a tl x :
  heap_inv s -> _heap s = a :: tl -> x ∈ _heap s ->
  expire_of (mem s) a <= expire_of (mem s) x.
Proof.
  intros [O _] Eh Hx. apply list_elem_of_lookup in Hx as [i Ei].
  pose proof (ord_root_min _ _ O i (lookup_lt_Some _ _ _ Ei)) as H.
  unfold key in H. rewrite Ei, Eh in H. exact H.
Qed.

Lemma filter_none {A} (P : A -> Prop) `{!forall x, Decision (P x)} (l : list A) :
  (forall x, x ∈ l -> ~ P x) -> filter P l = [].
Proof.
  induction l as [|y l IH]; intros Hn; [reflexivity|].
  rewrite filter_cons_False by (apply Hn; left).
  apply IH. intros x Hx. apply Hn. right. exact Hx.
Qed.

Lemma filter_agree {A} (P Q : A -> Prop) `{!forall x, Decision (P x)}
  `{!forall x, Decision (Q x)} (l : list A) :
  (forall x, x ∈ l -> P x <-> Q x) -> filter P l = filter Q l.
Proof.
  induction l as [|y l IH]; intros Hpq; [reflexivity|].
  rewrite !filter_cons.
  rewrite IH by (intros x Hx; apply Hpq; right; exact Hx).
  destruct (decide (P y)) as [p|np], (decide (Q y)) as [q|nq]; try reflexivity.
  - exfalso. apply nq, (Hpq y); [left|exact p].
  - exfalso. apply np, (Hpq y); [left|exact q].
Qed.

(** After a turn on the root [a] of [a :: tl], the heap holds [tl], and
    [a] too when it was put back; a property that the remaining nodes keep
    and that [a] has lost selects the same nodes. *)
Lemma filter_after_turn (P P1 : addr -> bool) (a : addr) (tl h1 : list addr) :
  (forall x, x ∈ tl -> P1 x = P x) ->
  h1 ≡ₚ tl \/ (h1 ≡ₚ a :: tl /\ P1 a = false) ->
  filter (fun x => P1 x = true) h1 ≡ₚ filter (fun x => P x = true) tl.
Proof.
  intros Ag [Pm|[Pm Ea]].
  - rewrite Pm. rewrite (filter_agree _ (fun x => P x = true)); [reflexivity|].
    intros x Hx. rewrite Ag by assumption. reflexivity.
  - rewrite Pm. rewrite filter_cons_False by (rewrite Ea; discriminate).
    rewrite (filter_agree _ (fun x => P x = true)); [reflexivity|].
    intros x Hx. rewrite Ag by assumption. reflexivity.
Qed.

Lemma expire_of_agree m1 m2 x :
  with_idx 0 <$> (m1 !! x) = with_idx 0 <$> (m2 !! x) -> expire_of m1 x = expire_of m2 x.
Proof.
  intros H. unfold expire_of.
  destruct (m1 !! x) as [n1|], (m2 !! x) as [n2|]; try discriminate; [|reflexivity].
  cbn in *. assert (S : same_node n1 n2) by (unfold same_node; congruence).
  apply same_node_fields in S. tauto.
Qed.

Lemma fb_of_agree m1 m2 x :
  with_idx 0 <$> (m1 !! x) = with_idx 0 <$> (m2 !! x) -> fb_of m1 x = fb_of m2 x.
Proof.
  intros H. unfold fb_of.
  destruct (m1 !! x) as [n1|], (m2 !! x) as [n2|]; try discriminate; [|reflexivity].
  cbn in *. assert (S : same_node n1 n2) by (unfold same_node; congruence).
  apply same_node_fields in S. tauto.
Qed.

Lemma CurrentTime_ms_range clock k : 0 <= CurrentTime_ms clock k < 2 ^ 64.
Proof. unfold CurrentTime_ms, wrap64. apply Z.mod_pos_bound. lia. Qed.

Lemma sim_lookup m1 m2 x n1 :
  with_idx 0 <$> (m1 !! x) = with_idx 0 <$> (m2 !! x) -> m1 !! x = Some n1 ->
  exists n2, m2 !! x = Some n2 /\ same_node n1 n2.
Proof.
  intros H E. rewrite E in H. destruct (m2 !! x) as [n2|]; [|discriminate].
  exists n2. split; [reflexivity|]. unfold same_node. cbn in H. congruence.
Qed.

(** One turn of the loop on the root [a] of a heap [a :: tl]. *)
Lemma turn_spec clock now t0 s a tl nd :
  heap_inv s -> _heap s = a :: tl -> mem s !! a = Some nd ->
  (t0 < ticks s)%nat -> reschedules_later clock now t0 s ->
  heap_inv (expire_node clock a s) /\
  (t0 < ticks (expire_node clock a s))%nat /\
  reschedules_later clock now t0 (expire_node clock a s) /\
  fired (expire_node clock a s) = fired s ++ (if fb nd then [(a, nd)] else []) /\
  (forall x, x ∈ tl ->
     with_idx 0 <$> (mem (expire_node clock a s) !! x) = with_idx 0 <$> (mem s !! x)) /\
  (_heap (expire_node clock a s) ≡ₚ tl \/
   (_heap (expire_node clock a s) ≡ₚ a :: tl /\
    now < expire_of (mem (expire_node clock a s)) a /\ is_loop nd = true)) /\
  (a ∉ tl).
Proof.
  intros Hh Eh End Ht R.
  assert (Ha : a ∈ _heap s) by (rewrite Eh; left).
  pose proof (heap_inv_NoDup s Hh) as ND. rewrite Eh in ND.
  apply NoDup_cons in ND as [Nin _].
  destruct (expire_node_spec clock s a nd Hh Ha End) as (Hh1 & Ef & _ & _ & Hoth & H).
  assert (Sim : forall x, x ∈ tl ->
     with_idx 0 <$> (mem (expire_node clock a s) !! x) = with_idx 0 <$> (mem s !! x)).
  { intros x Hx. apply Hoth. intros ->. contradiction. }
  assert (Rtl : forall x nx, x ∈ tl -> mem (expire_node clock a s) !! x = Some nx ->
            is_loop nx = true ->
            0 < timing_time_ms nx /\
            forall k, (t0 < k)%nat ->
              now <= CurrentTime_ms clock k /\
              CurrentTime_ms clock k + timing_time_ms nx < 2 ^ 64).
  { intros x nx Hx Enx Elx.
    destruct (sim_lookup _ _ x nx (Sim x Hx) Enx) as (nx0 & Enx0 & Sx).
    apply same_node_fields in Sx as (_ & _ & Et & _ & _ & El).
    rewrite Et. apply (R x nx0); [rewrite Eh; right; exact Hx|exact Enx0|congruence]. }
  destruct (is_loop nd) eqn:El.
  - destruct H as (Pm & Et & _ & nd' & E' & Sn).
    apply same_node_fields in Sn as (_ & Ee & Etm & _ & _ & Elp). cbn in Ee, Etm, Elp.
    destruct (R a nd Ha End El) as (Tpos & Hk).
    destruct (Hk (ticks s) Ht) as (Hnow & Hfit).
    pose proof (CurrentTime_ms_range clock (ticks s)) as Hr.
    assert (Ex : expire_of (mem (expire_node clock a s)) a
                 = CurrentTime_ms clock (ticks s) + timing_time_ms nd).
    { unfold expire_of. rewrite E'. cbn. rewrite Ee. unfold wrap64.
      apply Z.mod_small. lia. }
    split; [exact Hh1|]. split; [lia|]. split.
    { intros x nx Hx Enx Elx. rewrite Pm, Eh in Hx.
      apply elem_of_cons in Hx as [->|Hx]; [|apply (Rtl x nx Hx Enx Elx)].
      assert (nx = nd') by congruence. subst nx. rewrite Etm.
      split; [exact Tpos|exact Hk]. }
    split; [exact Ef|]. split; [exact Sim|]. split; [|exact Nin].
    right. split; [rewrite Pm, Eh; reflexivity|]. split; [rewrite Ex; lia|reflexivity].
  - destruct H as (Pm & Et & _ & _).
    assert (Pm' : _heap (expire_node clock a s) ≡ₚ tl).
    { rewrite Eh in Pm. symmetry. eapply Permutation_cons_inv. exact Pm. }
    split; [exact Hh1|]. split; [lia|]. split.
    { intros x nx Hx Enx Elx. rewrite Pm' in Hx. apply (Rtl x nx Hx Enx Elx). }
    split; [exact Ef|]. split; [exact Sim|]. split; [left; exact Pm'|exact Nin].
Qed.

Lemma HdRel_Forall (z : Z) (l : list Z) : Forall (fun d => z <= d) l -> HdRel Z.le z l.
Proof. intros H. destruct H; constructor. assumption. Qed.

(** The loop of [ExpireTimer], when repeating nodes are rescheduled later
    than [now]: it ends, within one turn per due node and one more; it has
    invoked the callback of each due node that has one, once, in the order
    of the deadlines; no node that is left is due. *)
Lemma expire_loop_total clock now t0 fuel : forall s,
  heap_inv s -> (t0 < ticks s)%nat -> reschedules_later clock now t0 s ->
  (length (due_nodes now s) < fuel)%nat ->
  exists s' L,
    expire_loop clock fuel now s = Ret s' /\
    fired s' = fired s ++ L /\
    heap_inv s' /\
    L.*1 ≡ₚ to_fire now s /\
    (forall x, x ∈ _heap s' -> now < expire_of (mem s') x) /\
    Sorted Z.le (deadlines L) /\
    (Forall (fun d => d <= now) (deadlines L) /\
     forall z, (forall x, x ∈ _heap s -> z <= expire_of (mem s) x) ->
               Forall (fun d => z <= d) (deadlines L) /\
               forall x, x ∈ _heap s' -> z <= expire_of (mem s') x) /\
    (length (_heap s') <= length (_heap s))%nat /\
    (forall x nx, x ∈ _heap s' -> mem s' !! x = Some nx -> is_loop nx = true ->
       exists n0, x ∈ _heap s /\ mem s !! x = Some n0 /\ is_loop n0 = true).
Proof.
  induction fuel as [|fuel IH]; intros s Hh Ht R Hf; [lia|].
  rewrite expire_loop_S. unfold to_fire, due_nodes in *.
  destruct (_heap s) as [|a tl] eqn:Eh.
  - exists s, []. rewrite app_nil_r.
    split; [reflexivity|]. split; [reflexivity|]. split; [exact Hh|].
    split; [reflexivity|].
    split; [intros x Hx; rewrite Eh in Hx; inversion Hx|].
    split; [constructor|].
    split; [split; [constructor|intros z Hz; split; [constructor|]]|].
    { intros x Hx. rewrite Eh in Hx. inversion Hx. }
    split; [rewrite Eh; reflexivity|].
    intros x nx Hx. rewrite Eh in Hx. inversion Hx.
  - assert (Ha : a ∈ _heap s) by (rewrite Eh; left).
    assert (Hmin : forall x, x ∈ tl -> expire_of (mem s) a <= expire_of (mem s) x).
    { intros x Hx. apply (heap_root_min s a tl x Hh Eh). rewrite Eh. right. exact Hx. }
    destruct (Z.ltb_spec now (expire_of (mem s) a)) as [Lt|Ge].
    + assert (Hall : forall x, x ∈ a :: tl -> now < expire_of (mem s) x).
      { intros x Hx.
        assert (expire_of (mem s) a <= expire_of (mem s) x)
          by (apply (heap_root_min s a tl x Hh Eh); rewrite Eh; exact Hx).
        lia. }
      exists s, []. rewrite app_nil_r.
      split; [reflexivity|]. split; [reflexivity|]. split; [exact Hh|].
      split.
      { cbn [fmap list_fmap]. rewrite filter_none; [reflexivity|].
        intros x Hx. specialize (Hall x Hx). unfold dueb.
        destruct (Z.leb_spec (expire_of (mem s) x) now); [lia|]. cbn. discriminate. }
      split; [rewrite Eh; exact Hall|].
      split; [constructor|].
      split; [split; [constructor|intros z Hz; split; [constructor|]]|].
      { intros x Hx. rewrite Eh in Hx. apply Hz, Hx. }
      split; [rewrite Eh; reflexivity|].
      intros x nx Hx Enx Elx. exists nx. rewrite Eh in Hx. repeat split; assumption.
    + destruct (heap_inv_node s a Hh Ha) as (nd & End & _).
      assert (Ek : expire_of (mem s) a = expire_ms nd) by (unfold expire_of; rewrite End; reflexivity).
      destruct (turn_spec clock now t0 s a tl nd Hh Eh End Ht R)
        as (Hh1 & Ht1 & R1 & Ef1 & Sim & Alt & Nin).
      set (s1 := expire_node clock a s) in *.
      assert (Da : dueb now (mem s) a = true) by (unfold dueb; apply Z.leb_le; lia).
      assert (Alt' : forall P1 : addr -> bool, (forall x, P1 x = true -> dueb now (mem s1) x = true) ->
                _heap s1 ≡ₚ tl \/ (_heap s1 ≡ₚ a :: tl /\ P1 a = false)).
      { intros P1 HP. destruct Alt as [Pm|[Pm [Lt _]]]; [left; exact Pm|right].
        split; [exact Pm|]. destruct (P1 a) eqn:E1; [|reflexivity].
        apply HP in E1. unfold dueb in E1. apply Z.leb_le in E1. lia. }
      assert (Pdue : due_nodes now s1 ≡ₚ filter (fun x => dueb now (mem s) x = true) tl).
      { apply (filter_after_turn (dueb now (mem s)) (dueb now (mem s1)) a).
        - intros x Hx. unfold dueb. rewrite (expire_of_agree _ _ x (Sim x Hx)). reflexivity.
        - apply (Alt' (dueb now (mem s1))). tauto. }
      assert (Pfire : to_fire now s1 ≡ₚ
                filter (fun x => dueb now (mem s) x && fb_of (mem s) x = true) tl).
      { apply (filter_after_turn (fun x => dueb now (mem s) x && fb_of (mem s) x)
                 (fun x => dueb now (mem s1) x && fb_of (mem s1) x) a).
        - intros x Hx. unfold dueb.
          rewrite (expire_of_agree _ _ x (Sim x Hx)), (fb_of_agree _ _ x (Sim x Hx)).
          reflexivity.
        - apply (Alt' (fun x => dueb now (mem s1) x && fb_of (mem s1) x)).
          intros x Hx. apply andb_true_iff in Hx. tauto. }
      destruct (IH s1 Hh1 Ht1 R1) as (s' & L1 & E' & Ef' & Hh' & PmL & Hleft & Srt & (Fnow & Fz) & Len & Hloop).
      { unfold due_nodes in Pdue. rewrite Pdue.
        rewrite filter_cons_True in Hf by exact Da. cbn in Hf. lia. }
      assert (Hlb : forall z, z <= expire_of (mem s) a ->
                forall x, x ∈ _heap s1 -> z <= expire_of (mem s1) x).
      { intros z Hz x Hx. destruct Alt as [Pm|[Pm [Lt _]]].
        - rewrite Pm in Hx. rewrite (expire_of_agree _ _ x (Sim x Hx)).
          specialize (Hmin x Hx). lia.
        - rewrite Pm in Hx. apply elem_of_cons in Hx as [->|Hx]; [lia|].
          rewrite (expire_of_agree _ _ x (Sim x Hx)). specialize (Hmin x Hx). lia. }
      pose proof (proj1 (Fz _ (Hlb _ (Z.le_refl _)))) as Fa.
      exists s', ((if fb nd then [(a, nd)] else []) ++ L1).
      split; [exact E'|]. split; [rewrite Ef', Ef1, app_assoc; reflexivity|].
      split; [exact Hh'|]. split.
      { assert (Pa : dueb now (mem s) a && fb_of (mem s) a = fb nd).
        { unfold fb_of. rewrite End, Da. reflexivity. }
        rewrite fmap_app, PmL. unfold to_fire in Pfire. rewrite Pfire.
        destruct (fb nd).
        - rewrite filter_cons_True by exact Pa. reflexivity.
        - rewrite filter_cons_False by (rewrite Pa; discriminate). reflexivity. }
      split; [exact Hleft|].
      unfold deadlines in *. rewrite fmap_app.
      split; [|split; [split|split]].
      * destruct (fb nd); cbn; [|exact Srt]. constructor; [exact Srt|].
        apply HdRel_Forall. eapply Forall_impl; [exact Fa|]. cbn. intros d Hd. lia.
      * apply Forall_app. split; [|exact Fnow].
        destruct (fb nd); cbn; constructor; [lia|constructor].
      * intros z Hz. assert (Hz0 : z <= expire_of (mem s) a) by (apply Hz; left).
        split; [|apply Fz, Hlb, Hz0].
        apply Forall_app. split; [|apply Fz, Hlb, Hz0].
        destruct (fb nd); cbn; constructor; [lia|constructor].
      * etransitivity; [exact Len|].
        destruct Alt as [Pm|[Pm _]]; rewrite Pm; cbn; lia.
      * intros x nx Hx Enx Elx.
        destruct (Hloop x nx Hx Enx Elx) as (n1 & Hx1 & En1 & El1).
        destruct Alt as [Pm|[Pm [_ Eln]]].
        -- rewrite Pm in Hx1.
           destruct (sim_lookup _ _ x n1 (Sim x Hx1) En1) as (n0 & En0 & Sx).
           apply same_node_fields in Sx as (_ & _ & _ & _ & _ & El).
           exists n0. split; [right; exact Hx1|]. split; [exact En0|congruence].
        -- rewrite Pm in Hx1. apply elem_of_cons in Hx1 as [->|Hx1].
           ++ exists nd. split; [left|]. split; assumption.
           ++ destruct (sim_lookup _ _ x n1 (Sim x Hx1) En1) as (n0 & En0 & Sx).
              apply same_node_fields in Sx as (_ & _ & _ & _ & _ & El).
              exists n0. split; [right; exact Hx1|]. split; [exact En0|congruence].
Qed.

(** [ExpireTimer] as a whole, under the same conditions. *)
Lemma ExpireTimer_total clock s fuel :
  heap_inv s -> mtx_ s = false -> (length (_heap s) < fuel)%nat ->
  reschedules_later clock (CurrentTime_ms clock (ticks s)) (ticks s) s ->
  exists s' L,
    ExpireTimer clock fuel s = Ret s' /\
    fired s' = fired s ++ L /\
    heap_inv s' /\ mtx_ s' = false /\
    L.*1 ≡ₚ to_fire (CurrentTime_ms clock (ticks s)) s /\
    (forall x, x ∈ _heap s' ->
       CurrentTime_ms clock (ticks s) < expire_of (mem s') x) /\
    Sorted Z.le (deadlines L) /\
    (Forall (fun d => d <= CurrentTime_ms clock (ticks s)) (deadlines L) /\
     forall z, (forall x, x ∈ _heap s -> z <= expire_of (mem s) x) ->
               Forall (fun d => z <= d) (deadlines L) /\
               forall x, x ∈ _heap s' -> z <= expire_of (mem s') x) /\
    (length (_heap s') <= length (_heap s))%nat /\
    (forall x nx, x ∈ _heap s' -> mem s' !! x = Some nx -> is_loop nx = true ->
       exists n0, x ∈ _heap s /\ mem s !! x = Some n0 /\ is_loop n0 = true) /\
    (_heap s = [] -> s' = s).
Proof.
  intros Hh Hx Hf R. unfold ExpireTimer. rewrite Hx.
  destruct (_heap s) as [|a tl] eqn:Eh.
  - exists s, []. rewrite app_nil_r. unfold to_fire. rewrite Eh.
    split; [reflexivity|]. split; [reflexivity|]. split; [exact Hh|].
    split; [exact Hx|]. split; [reflexivity|].
    split; [intros x H; inversion H|].
    split; [constructor|].
    split; [split; [constructor|intros z Hz; split; [constructor|]]|].
    { intros x H. inversion H. }
    split; [reflexivity|]. split; [|reflexivity].
    intros x nx H. inversion H.
  - set (now := CurrentTime_ms clock (ticks s)) in *.
    set (s1 := mkTimer true (a :: tl) (_map s) (_count s) (mem s) (brk s)
                       (S (ticks s)) (fired s)).
    assert (Hh1 : heap_inv s1).
    { eapply heap_inv_same; [| |exact Hh]; [cbn; congruence|reflexivity]. }
    assert (R1 : reschedules_later clock now (ticks s) s1).
    { intros x nx H1 H2. apply (R x nx); [rewrite Eh; exact H1|exact H2]. }
    destruct (expire_loop_total clock now (ticks s) fuel s1 Hh1)
      as (s' & L & E' & Ef' & Hh' & PmL & Hleft & Srt & Fa & Len & Hloop).
    { cbn. lia. }
    { exact R1. }
    { unfold due_nodes. cbn [_heap s1].
      pose proof (length_filter (fun a => dueb now (mem s1) a = true) (a :: tl)). lia. }
    exists (set_mtx false s'), L. rewrite E'.
    split; [reflexivity|]. split; [exact Ef'|].
    split; [eapply heap_inv_same; [| |exact Hh']; reflexivity|].
    split; [reflexivity|].
    split; [unfold to_fire in *; rewrite Eh; exact PmL|].
    split; [exact Hleft|]. split; [exact Srt|].
    split; [|split; [exact Len|split; [|discriminate]]].
    { destruct Fa as [Fnow Fz]. split; [exact Fnow|].
      intros z Hz. apply (Fz z). exact Hz. }
    intros x nx H1 H2 H3. destruct (Hloop x nx H1 H2 H3) as (n0 & G1 & G2 & G3).
    exists n0. repeat split; assumption.
Qed.

(** All the nodes of the heap are one-shot. *)
Definition oneshot s : Prop :=
  forall a nd, a ∈ _heap s -> mem s !! a = Some nd -> is_loop nd = false.

Lemma oneshot_reschedules clock now t0 s : oneshot s -> reschedules_later clock now t0 s.
Proof. intros O a nd Ha End El. rewrite (O a nd Ha End) in El. discriminate. Qed.

Lemma sorted_app (l1 l2 : list Z) :
  Sorted Z.le l1 -> Sorted Z.le l2 ->
  (forall d1, d1 ∈ l1 -> Forall (fun d => d1 <= d) l2) ->
  Sorted Z.le (l1 ++ l2).
Proof.
  induction l1 as [|d l1 IH]; intros S1 S2 H; [exact S2|].
  cbn. apply Sorted_inv in S1 as [S1 Hd]. constructor.
  - apply IH; [exact S1|exact S2|]. intros d1 Hd1. apply H. right. exact Hd1.
  - destruct l1 as [|d' l1]; cbn.
    + apply HdRel_Forall. apply H. left.
    + constructor. inversion Hd. assumption.
Qed.

(** A sequence of sweeps over a heap of one-shot nodes. *)
Lemma sweeps_oneshot clock fuels : forall s,
  heap_inv s -> mtx_ s = false -> oneshot s ->
  Forall (fun f => (length (_heap s) < f)%nat) fuels ->
  exists s' L,
    run clock (Sweep <$> fuels) s = Ret ([], s') /\
    fired s' = fired s ++ L /\
    Sorted Z.le (deadlines L) /\
    forall z, (forall x, x ∈ _heap s -> z <= expire_of (mem s) x) ->
              Forall (fun d => z <= d) (deadlines L).
Proof.
  induction fuels as [|f fuels IH]; intros s Hh Hx O Hf.
  - exists s, []. rewrite app_nil_r. cbn.
    split; [reflexivity|]. split; [reflexivity|]. split; [constructor|].
    intros; constructor.
  - apply Forall_cons in Hf as [Hf Hfs].
    destruct (ExpireTimer_total clock s f Hh Hx Hf (oneshot_reschedules _ _ _ s O))
      as (s1 & L1 & E1 & Ef1 & Hh1 & Hx1 & _ & Hleft & Srt1 & (Fnow & Fz) & Len & Hloop & _).
    assert (O1 : oneshot s1).
    { intros x nx H1 H2. destruct (is_loop nx) eqn:El; [|reflexivity].
      destruct (Hloop x nx H1 H2 El) as (n0 & G1 & G2 & G3).
      rewrite (O x n0 G1 G2) in G3. discriminate. }
    destruct (IH s1 Hh1 Hx1 O1) as (s' & L2 & E2 & Ef2 & Srt2 & Fz2).
    { eapply Forall_impl; [exact Hfs|]. cbn. intros; lia. }
    exists s', (L1 ++ L2). rewrite fmap_cons, run_cons. cbn [step]. rewrite E1.
    cbn [fst snd]. rewrite E2. cbn [fst snd app].
    split; [reflexivity|]. split; [rewrite Ef2, Ef1, app_assoc; reflexivity|].
    unfold deadlines in *. rewrite fmap_app. split.
    + apply sorted_app; [exact Srt1|exact Srt2|].
      intros d1 Hd1. apply Fz2. intros x Hx1'.
      rewrite Forall_forall in Fnow. specialize (Fnow d1 Hd1).
      specialize (Hleft x Hx1'). lia.
    + intros z Hz. destruct (Fz z Hz) as [F1 Hz1].
      apply Forall_app. split; [exact F1|]. apply Fz2, Hz1.
Qed.

(** A repeating node that is due and whose rescheduled deadline is not
    later than [now] keeps the loop turning while the clock shows [now]. *)
Definition spins (now : Z) s : Prop :=
  exists a nd, a ∈ _heap s /\ mem s !! a = Some nd /\ is_loop nd = true /\
    expire_ms nd <= now /\ wrap64 (now + timing_time_ms nd) <= now.

Lemma expire_loop_spin clock now fuel : forall s,
  heap_inv s -> (forall k, (ticks s <= k)%nat -> CurrentTime_ms clock k = now) ->
  spins now s -> expire_loop clock fuel now s = OutOfFuel.
Proof.
  induction fuel as [|fuel IH]; intros s Hh Hclk (a & nd & Ha & End & El & Hdue & Hre);
    [reflexivity|].
  rewrite expire_loop_S.
  destruct (_heap s) as [|r tl] eqn:Eh; [inversion Ha|].
  assert (Hr : r ∈ _heap s) by (rewrite Eh; left).
  assert (Hmin : expire_of (mem s) r <= expire_of (mem s) a).
  { apply (heap_root_min s r tl a Hh Eh). rewrite Eh. exact Ha. }
  assert (Ea : expire_of (mem s) a = expire_ms nd) by (unfold expire_of; rewrite End; reflexivity).
  destruct (Z.ltb_spec now (expire_of (mem s) r)) as [Lt|_]; [lia|].
  destruct (heap_inv_node s r Hh Hr) as (nr & Enr & _).
  destruct (expire_node_spec clock s r nr Hh Hr Enr) as (Hh1 & _ & _ & _ & Hoth & H).
  assert (Ht : (ticks s <= ticks (expire_node clock r s))%nat).
  { destruct (is_loop nr); destruct H as (_ & Et & _); lia. }
  apply IH; [exact Hh1| |].
  - intros k Hk. apply Hclk. lia.
  - destruct (decide (a = r)) as [->|Nar].
    + assert (nr = nd) by congruence. subst nr. rewrite El in H.
      destruct H as (Pm & _ & _ & nd' & E' & Sn).
      apply same_node_fields in Sn as (_ & Ee & Etm & _ & _ & Elp). cbn in Ee, Etm, Elp.
      rewrite (Hclk (ticks s) (Nat.le_refl _)) in Ee.
      exists r, nd'. split; [rewrite Pm, Eh; left|]. split; [exact E'|].
      split; [congruence|]. rewrite Ee, Etm. split; exact Hre.
    + specialize (Hoth a Nar).
      destruct (sim_lookup _ _ a nd (eq_sym Hoth) End) as (nd1 & End1 & Sn).
      apply same_node_fields in Sn as (_ & Ee & Etm & _ & _ & Elp).
      exists a, nd1. split.
      { destruct (is_loop nr).
        - destruct H as (Pm & _). rewrite Pm, Eh. exact Ha.
        - destruct H as (Pm & _). rewrite Eh in Pm. rewrite Pm in Ha.
          apply elem_of_cons in Ha as [->|Ha]; [contradiction|exact Ha]. }
      split; [exact End1|]. split; [congruence|]. rewrite <- Ee, <- Etm. split; assumption.
Qed.

Lemma ExpireTimer_spin clock s :
  heap_inv s -> mtx_ s = false ->
  (forall k, (ticks s <= k)%nat ->
     CurrentTime_ms clock k = CurrentTime_ms clock (ticks s)) ->
  spins (CurrentTime_ms clock (ticks s)) s ->
  forall fuel, ExpireTimer clock fuel s = OutOfFuel.
Proof.
  intros Hh Hx Hclk Hs fuel. unfold ExpireTimer. rewrite Hx.
  destruct (_heap s) as [|a tl] eqn:Eh.
  { destruct Hs as (x & _ & Hin & _). rewrite Eh in Hin. inversion Hin. }
  rewrite expire_loop_spin; [reflexivity| | |].
  - eapply heap_inv_same; [| |exact Hh]; [cbn; congruence|reflexivity].
  - cbn. intros k Hk. apply Hclk. lia.
  - destruct Hs as (x & nx & H1 & H2 & H3). exists x, nx. cbn.
    rewrite Eh in H1. repeat split; tauto.
Qed.

(** Ways to check the side conditions on a given state. *)
Lemma oneshot_check s :
  forallb (fun a => negb (from_option is_loop false (mem s !! a))) (_heap s) = true ->
  oneshot s.
Proof.
  intros H a nd Ha End. rewrite forallb_forall in H.
  specialize (H a (proj1 (list_elem_of_In _ _) Ha)). rewrite End in H. cbn in H.
  destruct (is_loop nd); [discriminate|reflexivity].
Qed.

Lemma reschedules_later_frozen t now t0 s :
  now <= wrap64 t ->
  forallb (fun a => match mem s !! a with
                    | Some nd => negb (is_loop nd) ||
                                 ((0 <? timing_time_ms nd) &&
                                  (wrap64 t + timing_time_ms nd <? 2 ^ 64))
                    | None => true
                    end) (_heap s) = true ->
  reschedules_later (fun _ => t) now t0 s.
Proof.
  intros Hn H a nd Ha End El. rewrite forallb_forall in H.
  specialize (H a (proj1 (list_elem_of_In _ _) Ha)). rewrite End, El in H. cbn in H.
  apply andb_true_iff in H as [H1 H2]. apply Z.ltb_lt in H1, H2.
  split; [exact H1|]. intros k _. unfold CurrentTime_ms. split; assumption.
Qed.

Lemma run_wf clock (os : list (op T)) r :
  run clock os init = Ret r -> budget os <= INT_MAX -> wf (snd r).
Proof.
  intros E Hb.
  destruct (run_Inv clock os init r Inv_init) as ((W & _) & _); [cbn; lia|exact E|].
  exact W.
Qed.

Lemma wf_heap_inv s : wf s -> heap_inv s.
Proof. intros (H & _). exact H. Qed.

(** The first time a node appears in the trace of the loop, it is
    recorded as it was at the entry (up to [idx]); only nodes with a
    callback are recorded. *)
Lemma expire_loop_first_fire clock now fuel : forall s s',
  heap_inv s -> expire_loop clock fuel now s = Ret s' ->
  exists L, fired s' = fired s ++ L /\
    (forall e, e ∈ L -> fb (snd e) = true) /\
    forall La e Lb, L = La ++ e :: Lb -> fst e ∉ La.*1 ->
      exists n0, mem s !! fst e = Some n0 /\ same_node n0 (snd e).
Proof.
  induction fuel as [|fuel IH]; intros s s' Hh E; [discriminate|].
  rewrite expire_loop_S in E.
  assert (Stop : s' = s -> exists L, fired s' = fired s ++ L /\
    (forall e, e ∈ L -> fb (snd e) = true) /\
    forall La e Lb, L = La ++ e :: Lb -> fst e ∉ La.*1 ->
      exists n0, mem s !! fst e = Some n0 /\ same_node n0 (snd e)).
  { intros ->. exists []. rewrite app_nil_r. split; [reflexivity|].
    split; [intros e He; inversion He|].
    intros La e Lb EL. destruct La; discriminate. }
  destruct (_heap s) as [|a tl] eqn:Eh; [apply Stop; congruence|].
  destruct (now <? expire_of (mem s) a); [apply Stop; congruence|]. clear Stop.
  assert (Ha : a ∈ _heap s) by (rewrite Eh; left).
  destruct (heap_inv_node s a Hh Ha) as (nd & End & _).
  destruct (expire_node_spec clock s a nd Hh Ha End) as (Hh1 & Ef1 & _ & _ & Hoth & H).
  destruct (IH _ _ Hh1 E) as (L1 & Ef' & Hfb1 & Hfirst1).
  assert (Step : forall La e Lb, L1 = La ++ e :: Lb -> fst e ∉ La.*1 ->
            (fst e = a -> fb nd = true -> False) ->
            exists n0, mem s !! fst e = Some n0 /\ same_node n0 (snd e)).
  { intros La e Lb EL Hn Hna.
    destruct (Hfirst1 La e Lb EL Hn) as (n1 & En1 & Sn1).
    assert (He : e ∈ L1) by (rewrite EL; apply elem_of_app; right; left).
    pose proof (Hfb1 e He) as Fe.
    destruct (decide (fst e = a)) as [Ea|Na].
    - exfalso. rewrite Ea in En1.
      assert (Fn1 : fb n1 = true).
      { apply same_node_fields in Sn1 as (_ & _ & _ & _ & F & _). congruence. }
      destruct (fb nd) eqn:Fnd; [apply Hna; [exact Ea|congruence]|].
      destruct (is_loop nd).
      + destruct H as (_ & _ & _ & nd' & E' & Sn').
        apply same_node_fields in Sn' as (_ & _ & _ & _ & F' & _). cbn in F'.
        assert (nd' = n1) by congruence. subst nd'. congruence.
      + destruct H as (_ & _ & _ & En). congruence.
    - destruct (sim_lookup _ _ (fst e) n1 (Hoth (fst e) Na) En1) as (n0 & En0 & S0).
      exists n0. split; [exact En0|]. unfold same_node in *. congruence. }
  exists ((if fb nd then [(a, nd)] else []) ++ L1).
  split; [rewrite Ef', Ef1, app_assoc; reflexivity|]. split.
  - intros e [He|He]%elem_of_app; [|apply Hfb1, He].
    destruct (fb nd) eqn:Fnd; [|inversion He].
    apply list_elem_of_singleton in He. subst e. exact Fnd.
  - intros La e Lb EL Hn. destruct (fb nd) eqn:Fnd; cbn [app] in EL.
    + destruct La as [|x La]; cbn [app] in EL.
      * injection EL as <- _. exists nd. split; [exact End|reflexivity].
      * injection EL as <- EL. rewrite fmap_cons in Hn. cbn [fst] in Hn.
        apply not_elem_of_cons in Hn as [Hne Hn].
        apply (Step La e Lb EL Hn). intros Ea _. exact (Hne Ea).
    + apply (Step La e Lb EL Hn). intros _ F. congruence.
Qed.

(** In a sweep that invokes no node twice, every callback sees the node
    as it was at the entry. *)
Lemma ExpireTimer_first_fire clock fuel s s' (L : list (addr * TimerNode T)) :
  heap_inv s -> ExpireTimer clock fuel s = Ret s' ->
  fired s' = fired s ++ L -> NoDup L.*1 ->
  forall e, e ∈ L -> exists n0, mem s !! fst e = Some n0 /\ same_node n0 (snd e).
Proof.
  intros Hh E Ef ND e He.
  destruct (ExpireTimer_Ret _ _ _ _ E) as (_ & [(_ & ->)|(_ & s2 & E2 & ->)]).
  - assert (L = []) by (apply (app_inv_head (fired s)); rewrite app_nil_r; congruence).
    subst L. inversion He.
  - assert (Hh1 : heap_inv (mkTimer true (_heap s) (_map s) (_count s) (mem s) (brk s)
                                    (S (ticks s)) (fired s)))
      by (eapply heap_inv_same; [| |exact Hh]; reflexivity).
    destruct (expire_loop_first_fire clock _ fuel _ s2 Hh1 E2) as (L' & Ef' & _ & Hfirst).
    cbn [fired set_mtx] in Ef. cbn [fired mem] in Ef', Hfirst.
    assert (L = L') by (apply (app_inv_head (fired s)); congruence). subst L'.
    apply list_elem_of_split in He as (La & Lb & ->).
    apply (Hfirst La e Lb eq_refl).
    rewrite fmap_app, fmap_cons in ND. apply NoDup_app in ND as (_ & ND & _).
    intros Hin. apply (ND _ Hin). left.
Qed.

(** The loop of [ExpireTimer] on a heap of one-shot nodes: it reads no
    clock, removes due nodes only, and leaves the other nodes as they are. *)
Lemma expire_loop_oneshot clock now fuel : forall s s',
  heap_inv s -> oneshot s -> expire_loop clock fuel now s = Ret s' ->
  ticks s' = ticks s /\ oneshot s' /\
  (forall x, x ∈ _heap s -> x ∈ _heap s' \/ expire_of (mem s) x <= now) /\
  (forall x, x ∈ _heap s' ->
     x ∈ _heap s /\ with_idx 0 <$> (mem s' !! x) = with_idx 0 <$> (mem s !! x)).
Proof.
  induction fuel as [|fuel IH]; intros s s' Hh O E; [discriminate|].
  rewrite expire_loop_S in E.
  assert (Stop : s' = s ->
    ticks s' = ticks s /\ oneshot s' /\
    (forall x, x ∈ _heap s -> x ∈ _heap s' \/ expire_of (mem s) x <= now) /\
    (forall x, x ∈ _heap s' ->
       x ∈ _heap s /\ with_idx 0 <$> (mem s' !! x) = with_idx 0 <$> (mem s !! x))).
  { intros ->. split; [reflexivity|]. split; [exact O|].
    split; [intros x Hx; left; exact Hx|]. intros x Hx. split; [exact Hx|reflexivity]. }
  destruct (_heap s) as [|a tl] eqn:Eh; [apply Stop; congruence|].
  destruct (Z.ltb_spec now (expire_of (mem s) a)) as [_|Due]; [apply Stop; congruence|].
  clear Stop. rewrite <- Eh.
  assert (Ha : a ∈ _heap s) by (rewrite Eh; left).
  destruct (heap_inv_node s a Hh Ha) as (nd & End & _).
  assert (El : is_loop nd = false) by (apply (O a nd Ha End)).
  destruct (expire_node_spec clock s a nd Hh Ha End) as (Hh1 & _ & _ & _ & Hoth & H).
  rewrite El in H. destruct H as (Pm & Et & _ & _).
  pose proof (heap_inv_NoDup s Hh) as ND. rewrite Pm in ND.
  apply NoDup_cons in ND as [Nin _].
  assert (O1 : oneshot (expire_node clock a s)).
  { intros x nx Hx Enx. assert (Nx : x <> a) by (intros ->; contradiction).
    destruct (sim_lookup _ _ x nx (Hoth x Nx) Enx) as (n0 & En0 & S0).
    apply same_node_fields in S0 as (_ & _ & _ & _ & _ & El0). rewrite El0.
    apply (O x n0); [rewrite Pm; right; exact Hx|exact En0]. }
  destruct (IH _ s' Hh1 O1 E) as (Et' & O' & Hdue & Hrem).
  split; [congruence|]. split; [exact O'|]. split.
  - intros x Hx. rewrite Pm in Hx. apply elem_of_cons in Hx as [->|Hx].
    + right. exact Due.
    + assert (Nx : x <> a) by (intros ->; contradiction).
      destruct (Hdue x Hx) as [G|G]; [left; exact G|right].
      rewrite <- (expire_of_agree _ _ x (Hoth x Nx)). exact G.
  - intros x Hx. destruct (Hrem x Hx) as (Hx1 & Sim).
    assert (Nx : x <> a) by (intros ->; contradiction).
    split; [rewrite Pm; right; exact Hx1|]. rewrite Sim. apply Hoth, Nx.
Qed.

(** One sweep over a heap of one-shot nodes. *)
Lemma ExpireTimer_oneshot clock s fuel :
  heap_inv s -> mtx_ s = false -> oneshot s -> (length (_heap s) < fuel)%nat ->
  exists s' L,
    ExpireTimer clock fuel s = Ret s' /\
    fired s' = fired s ++ L /\
    heap_inv s' /\ mtx_ s' = false /\ oneshot s' /\
    L.*1 ≡ₚ to_fire (CurrentTime_ms clock (ticks s)) s /\
    (forall e, e ∈ L -> exists n0, mem s !! fst e = Some n0 /\ same_node n0 (snd e)) /\
    (forall x, x ∈ _heap s' <->
       x ∈ _heap s /\ CurrentTime_ms clock (ticks s) < expire_of (mem s) x) /\
    (forall x, x ∈ _heap s' ->
       with_idx 0 <$> (mem s' !! x) = with_idx 0 <$> (mem s !! x)) /\
    (_heap s <> [] -> ticks s' = S (ticks s)) /\
    (length (_heap s') <= length (_heap s))%nat.
Proof.
  intros Hh Hx O Hf.
  destruct (ExpireTimer_total clock s fuel Hh Hx Hf (oneshot_reschedules _ _ _ s O))
    as (s' & L & E & Ef & Hh' & Hx' & PmL & Hleft & _ & _ & Len & _).
  assert (ND : NoDup L.*1).
  { rewrite PmL. unfold to_fire. apply NoDup_filter, heap_inv_NoDup, Hh. }
  pose proof (ExpireTimer_first_fire clock fuel s s' L Hh E Ef ND) as Hent.
  assert (Rest : oneshot s' /\
    (forall x, x ∈ _heap s ->
       x ∈ _heap s' \/ expire_of (mem s) x <= CurrentTime_ms clock (ticks s)) /\
    (forall x, x ∈ _heap s' ->
       x ∈ _heap s /\ with_idx 0 <$> (mem s' !! x) = with_idx 0 <$> (mem s !! x)) /\
    (_heap s <> [] -> ticks s' = S (ticks s))).
  { destruct (ExpireTimer_Ret _ _ _ _ E) as (_ & [(Eh & ->)|(Hne & s2 & E2 & ->)]).
    - split; [exact O|]. split; [intros x Hx0; left; exact Hx0|].
      split; [intros x Hx0; split; [exact Hx0|reflexivity]|].
      intros N. contradiction.
    - assert (Hh1 : heap_inv (mkTimer true (_heap s) (_map s) (_count s) (mem s) (brk s)
                                      (S (ticks s)) (fired s)))
        by (eapply heap_inv_same; [| |exact Hh]; reflexivity).
      destruct (expire_loop_oneshot clock _ fuel _ s2 Hh1 O E2) as (Et & O2 & Hdue & Hrem).
      split; [exact O2|]. split; [exact Hdue|]. split; [exact Hrem|].
      intros _. exact Et. }
  destruct Rest as (O' & Hdue & Hrem & Htick).
  exists s', L. split; [exact E|]. split; [exact Ef|]. split; [exact Hh'|].
  split; [exact Hx'|]. split; [exact O'|]. split; [exact PmL|]. split; [exact Hent|].
  split; [|split; [intros x Hx0; apply Hrem, Hx0|split; [exact Htick|exact Len]]].
  intros x. split.
  - intros Hx0. destruct (Hrem x Hx0) as (G1 & G2). split; [exact G1|].
    rewrite <- (expire_of_agree _ _ x G2). apply Hleft, Hx0.
  - intros (G1 & G2). destruct (Hdue x G1) as [G|G]; [exact G|lia].
Qed.

(** A sequence of sweeps over a heap of one-shot nodes: which callbacks
    are invoked, and which nodes are left.  The [k]-th sweep reads the
    clock for the [(ticks s + k)]-th time, as long as the heap is not
    empty. *)
Lemma sweeps_oneshot_fires clock fuels : forall s,
  heap_inv s -> mtx_ s = false -> oneshot s ->
  Forall (fun f => (length (_heap s) < f)%nat) fuels ->
  exists s' L,
    run clock (Sweep <$> fuels) s = Ret ([], s') /\
    fired s' = fired s ++ L /\
    NoDup L.*1 /\
    (forall e, e ∈ L -> fst e ∈ _heap s /\
       exists n0, mem s !! fst e = Some n0 /\ same_node n0 (snd e)) /\
    (forall a, a ∈ L.*1 <->
       a ∈ _heap s /\ fb_of (mem s) a = true /\
       exists k, (k < length fuels)%nat /\
         expire_of (mem s) a <= CurrentTime_ms clock (ticks s + k)) /\
    (forall x, x ∈ _heap s' <->
       x ∈ _heap s /\
       forall k, (k < length fuels)%nat ->
         CurrentTime_ms clock (ticks s + k) < expire_of (mem s) x).
Proof.
  induction fuels as [|f fuels IH]; intros s Hh Hx O Hf.
  - exists s, []. rewrite app_nil_r. cbn [fmap list_fmap run length].
    split; [reflexivity|]. split; [reflexivity|]. split; [constructor|].
    split; [intros e He; inversion He|]. split.
    + intros a. split; [intros Ha; inversion Ha|]. intros (_ & _ & k & Hk & _). lia.
    + intros x. split; [|intros [G _]; exact G].
      intros Hx0. split; [exact Hx0|]. intros k Hk. lia.
  - apply Forall_cons in Hf as [Hf Hfs].
    destruct (ExpireTimer_oneshot clock s f Hh Hx O Hf)
      as (s1 & L1 & E1 & Ef1 & Hh1 & Hx1 & O1 & PmL & Hent1 & Hheap1 & Hsim1 & Htick & Len).
    destruct (IH s1 Hh1 Hx1 O1) as (s' & L2 & E2 & Ef2 & ND2 & Hent2 & Hiff2 & Hheap2).
    { eapply Forall_impl; [exact Hfs|]. cbn. intros; lia. }
    assert (ND1 : NoDup L1.*1).
    { rewrite PmL. unfold to_fire. apply NoDup_filter, heap_inv_NoDup, Hh. }
    assert (InL1 : forall a, a ∈ L1.*1 <->
              a ∈ _heap s /\ expire_of (mem s) a <= CurrentTime_ms clock (ticks s) /\
              fb_of (mem s) a = true).
    { intros a. rewrite PmL. unfold to_fire. rewrite list_elem_of_filter.
      unfold dueb. rewrite andb_true_iff, Z.leb_le. tauto. }
    assert (Tick : forall a, a ∈ _heap s -> ticks s1 = S (ticks s)).
    { intros a Ha. apply Htick. intros Eh. rewrite Eh in Ha. inversion Ha. }
    exists s', (L1 ++ L2). rewrite fmap_cons, run_cons. cbn [step]. rewrite E1.
    cbn [fst snd]. rewrite E2. cbn [fst snd app length].
    split; [reflexivity|]. split; [rewrite Ef2, Ef1, app_assoc; reflexivity|].
    split; [|split; [|split]].
    + rewrite fmap_app. apply NoDup_app. split; [exact ND1|]. split; [|exact ND2].
      intros a H1 H2. apply InL1 in H1 as (_ & Hd & _).
      apply Hiff2 in H2 as (H2 & _). apply Hheap1 in H2 as (_ & H2). lia.
    + intros e [He|He]%elem_of_app.
      * split; [|apply Hent1, He].
        assert (Hin : fst e ∈ L1.*1).
        { apply list_elem_of_fmap. exists e. split; [reflexivity|exact He]. }
        apply InL1 in Hin as (G & _). exact G.
      * destruct (Hent2 e He) as (G1 & n1 & En1 & Sn1).
        pose proof (proj1 (Hheap1 _) G1) as (G0 & _). split; [exact G0|].
        destruct (sim_lookup _ _ (fst e) n1 (Hsim1 _ G1) En1) as (n0 & En0 & S0).
        exists n0. split; [exact En0|]. unfold same_node in *. congruence.
    + intros a. rewrite fmap_app, elem_of_app. split.
      * intros [H1|H2].
        -- apply InL1 in H1 as (G1 & G2 & G3). split; [exact G1|]. split; [exact G3|].
           exists 0%nat. split; [lia|]. rewrite Nat.add_0_r. exact G2.
        -- apply Hiff2 in H2 as (G1 & G2 & k & Hk & G3).
           pose proof (Hsim1 a G1) as Sim.
           pose proof (proj1 (Hheap1 _) G1) as (G0 & _).
           split; [exact G0|]. split; [rewrite <- (fb_of_agree _ _ a Sim); exact G2|].
           exists (S k). split; [lia|].
           rewrite <- (expire_of_agree _ _ a Sim).
           replace (ticks s + S k)%nat with (ticks s1 + k)%nat
             by (rewrite (Tick a G0); lia).
           exact G3.
      * intros (G1 & G2 & k & Hk & G3).
        destruct (Z_le_gt_dec (expire_of (mem s) a) (CurrentTime_ms clock (ticks s)))
          as [D|D].
        -- left. apply InL1. tauto.
        -- right.
           assert (G1' : a ∈ _heap s1) by (apply Hheap1; split; [exact G1|lia]).
           pose proof (Hsim1 a G1') as Sim. apply Hiff2.
           split; [exact G1'|]. split; [rewrite (fb_of_agree _ _ a Sim); exact G2|].
           destruct k as [|k]; [rewrite Nat.add_0_r in G3; lia|].
           exists k. split; [lia|]. rewrite (expire_of_agree _ _ a Sim).
           replace (ticks s1 + k)%nat with (ticks s + S k)%nat
             by (rewrite (Tick a G1); lia).
           exact G3.
    + intros x. rewrite Hheap2. split.
      * intros (G1 & G2). pose proof (Hsim1 x G1) as Sim.
        pose proof (proj1 (Hheap1 _) G1) as (G0 & Gl). split; [exact G0|].
        intros k Hk. destruct k as [|k]; [rewrite Nat.add_0_r; exact Gl|].
        assert (Hk' : (k < length fuels)%nat) by lia.
        specialize (G2 k Hk'). rewrite (expire_of_agree _ _ x Sim) in G2.
        replace (ticks s + S k)%nat with (ticks s1 + k)%nat
          by (rewrite (Tick x G0); lia).
        exact G2.
      * intros (G0 & G2).
        assert (G1 : x ∈ _heap s1).
        { apply Hheap1. split; [exact G0|].
          assert (H0 : (0 < S (length fuels))%nat) by lia.
          specialize (G2 0%nat H0). rewrite Nat.add_0_r in G2. exact G2. }
        pose proof (Hsim1 x G1) as Sim. split; [exact G1|].
        intros k Hk. rewrite (expire_of_agree _ _ x Sim).
        replace (ticks s1 + k)%nat with (ticks s + S k)%nat
          by (rewrite (Tick x G0); lia).
        apply G2. lia.
Qed.

(** C3.  On a heap of one-shot nodes, a sequence of sweeps invokes the
    callbacks in non-decreasing order of [expire_ms]: every sweep returns;
    the callbacks invoked are those of the nodes of the heap that have one
    and whose [expire_ms] is at most the clock reading of one of the
    sweeps, each invoked once and with the node as it was scheduled; the
    invocations are in non-decreasing order of [expire_ms]; the nodes left
    in the heap are those whose [expire_ms] is later than every reading.
    (Each sweep is given enough turns to end; the order does not depend on
    the deadlines being distinct nor on the times of the sweeps.
    [heap_inv] holds in every state reached from the initial one, see
    [reachable_sound].) *)
Theorem oneshot_order clock s fuels :
  heap_inv s -> mtx_ s = false -> oneshot s ->
  Forall (fun f => (length (_heap s) < f)%nat) fuels ->
  exists s' L,
    run clock (Sweep <$> fuels) s = Ret ([], s') /\
    fired s' = fired s ++ L /\
    Sorted Z.le (deadlines L) /\
    NoDup L.*1 /\
    (forall e, e ∈ L -> fst e ∈ _heap s /\
       exists n0, mem s !! fst e = Some n0 /\ same_node n0 (snd e)) /\
    (forall a, a ∈ L.*1 <->
       a ∈ _heap s /\ fb_of (mem s) a = true /\
       exists k, (k < length fuels)%nat /\
         expire_of (mem s) a <= CurrentTime_ms clock (ticks s + k)) /\
    (forall x, x ∈ _heap s' <->
       x ∈ _heap s /\
       forall k, (k < length fuels)%nat ->
         CurrentTime_ms clock (ticks s + k) < expire_of (mem s) x).
Proof.
  intros Hh Hx O Hf.
  destruct (sweeps_oneshot clock fuels s Hh Hx O Hf) as (s' & L & E & Ef & Srt & _).
  destruct (sweeps_oneshot_fires clock fuels s Hh Hx O Hf)
    as (s2 & L2 & E2 & Ef2 & ND & Hent & Hiff & Hheap).
  assert (s2 = s') by congruence. subst s2.
  assert (L2 = L) by (apply (app_inv_head (fired s)); congruence). subst L2.
  exists s', L. split; [exact E|]. split; [exact Ef|]. split; [exact Srt|].
  split; [exact ND|]. split; [exact Hent|]. split; [exact Hiff|exact Hheap].
Qed.

(** C4, amended.  [ExpireTimer], entered with the mutex free on a heap
    whose repeating nodes are rescheduled later than the captured time
    [now] (positive period, clock not running backwards, no overflow of
    64 bits), returns; it has invoked the callback of every node that has
    one and whose [expire_ms] is at most [now] exactly once, and of no other
    node; no node that is left is due.  With an empty heap the state is
    unchanged; with a root that is not due nothing is invoked and the heap,
    the table and the nodes are unchanged. *)
Theorem sweep_fires_due clock s fuel :
  heap_inv s -> mtx_ s = false -> (length (_heap s) < fuel)%nat ->
  reschedules_later clock (CurrentTime_ms clock (ticks s)) (ticks s) s ->
  exists s' L,
    ExpireTimer clock fuel s = Ret s' /\
    fired s' = fired s ++ L /\
    NoDup L.*1 /\
    (forall a, a ∈ L.*1 <->
       (a ∈ _heap s /\ expire_of (mem s) a <= CurrentTime_ms clock (ticks s) /\
        fb_of (mem s) a = true)) /\
    (forall x, x ∈ _heap s' -> CurrentTime_ms clock (ticks s) < expire_of (mem s') x) /\
    (_heap s = [] -> s' = s) /\
    (forall a tl, _heap s = a :: tl ->
       CurrentTime_ms clock (ticks s) < expire_of (mem s) a ->
       L = [] /\ _heap s' = _heap s /\ _map s' = _map s /\ mem s' = mem s).
Proof.
  intros Hh Hx Hf R.
  destruct (ExpireTimer_total clock s fuel Hh Hx Hf R)
    as (s' & L & E & Ef & _ & _ & Pm & Hleft & _ & _ & _ & _ & Hemp).
  exists s', L. split; [exact E|]. split; [exact Ef|].
  split; [|split; [|split; [exact Hleft|split; [exact Hemp|]]]].
  - rewrite Pm. unfold to_fire. apply NoDup_filter, heap_inv_NoDup, Hh.
  - intros a. rewrite Pm. unfold to_fire. rewrite list_elem_of_filter.
    unfold dueb. rewrite andb_true_iff, Z.leb_le. tauto.
  - intros a tl Eh Lt. unfold ExpireTimer in E. rewrite Hx, Eh in E.
    destruct fuel as [|fuel]; [lia|]. rewrite expire_loop_S in E. cbn [_heap mem] in E.
    destruct (Z.ltb_spec (CurrentTime_ms clock (ticks s)) (expire_of (mem s) a)); [|lia].
    injection E as <-. cbn in Ef. cbn. split; [|repeat split; congruence].
    apply (app_inv_head (fired s)). rewrite app_nil_r. congruence.
Qed.

(** C10, amended.  [ExpireTimer] returns when it is entered with the mutex
    free and every repeating node of the heap is rescheduled later than the
    captured time [now]: its period is positive, the clock does not run
    backwards and the new deadline does not overflow 64 bits.  When instead
    some due repeating node is rescheduled at a deadline not later than
    [now] (period 0, or an overflowing one) and the clock keeps showing
    [now], the loop never exits. *)
Theorem sweep_terminates clock s :
  heap_inv s -> mtx_ s = false ->
  (reschedules_later clock (CurrentTime_ms clock (ticks s)) (ticks s) s ->
   exists s', ExpireTimer clock (S (length (_heap s))) s = Ret s') /\
  ((forall k, (ticks s <= k)%nat ->
      CurrentTime_ms clock k = CurrentTime_ms clock (ticks s)) ->
   spins (CurrentTime_ms clock (ticks s)) s ->
   forall fuel, ExpireTimer clock fuel s = OutOfFuel).
Proof.
  intros Hh Hx. split.
  - intros R.
    destruct (ExpireTimer_total clock s (S (length (_heap s))) Hh Hx (Nat.lt_succ_diag_r _) R)
      as (s' & L & E & _).
    exists s'. exact E.
  - intros Hclk Hs. apply ExpireTimer_spin; assumption.
Qed.

(** ** The bounds of the two [for (;;)] loops are large enough *)

Lemma shiftUp_loop_fuel f1 : forall f2 p h m,
  (p < f1)%nat -> (p < f2)%nat -> shiftUp_loop f1 p h m = shiftUp_loop f2 p h m.
Proof.
  induction f1 as [|f1 IH]; intros f2 p h m H1 H2; [lia|].
  destruct f2 as [|f2]; [lia|]. rewrite !shiftUp_loop_S.
  destruct (Nat.eqb_spec (parent p) p) as [E|N]; [reflexivity|].
  cbn [orb]. destruct (negb _); [reflexivity|].
  assert (0 < p)%nat.
  { destruct (decide (p = 0%nat)) as [->|]; [|lia]. exfalso. apply N. reflexivity. }
  pose proof (parent_lt p). apply IH; lia.
Qed.

Lemma shiftDown_loop_fuel n f1 : forall f2 p h m,
  (n - p <= f1)%nat -> (n - p <= f2)%nat ->
  shiftDown_loop f1 n p h m = shiftDown_loop f2 n p h m.
Proof.
  induction f1 as [|f1 IH]; intros f2 p h m H1 H2.
  - destruct f2 as [|f2]; [reflexivity|]. rewrite shiftDown_loop_S.
    destruct (Nat.leb_spec n (2 * p + 1)); [reflexivity|lia].
  - destruct f2 as [|f2].
    + rewrite shiftDown_loop_S.
      destruct (Nat.leb_spec n (2 * p + 1)); [reflexivity|lia].
    + rewrite !shiftDown_loop_S.
      destruct (Nat.leb_spec n (2 * p + 1)) as [L|L]; [reflexivity|].
      destruct (negb _); [reflexivity|].
      destruct (min_child_spec n h m p L) as (_ & Hpc & _).
      apply IH; lia.
Qed.

(** [_shiftUp] satisfies the equation of its loop. *)
Lemma _shiftUp_unfold p h m :
  _shiftUp p h m =
  if (parent p =? p)%nat || negb (_lessThan h m p (parent p)) then (h, m)
  else _shiftUp (parent p) (swap h (parent p) p)
         (store_idx (swap h (parent p) p)
            (store_idx (swap h (parent p) p) m (parent p)) p).
Proof.
  unfold _shiftUp. rewrite shiftUp_loop_S.
  destruct (Nat.eqb_spec (parent p) p) as [E|N]; [reflexivity|].
  cbn [orb]. destruct (negb _); [reflexivity|].
  assert (0 < p)%nat.
  { destruct (decide (p = 0%nat)) as [->|]; [|lia]. exfalso. apply N. reflexivity. }
  pose proof (parent_lt p). apply shiftUp_loop_fuel; lia.
Qed.

(** ** The polling thread *)

Lemma track_min_spec timing mn :
  0 <= mn <= INT_MAX -> 0 <= timing -> track_min timing mn = Z.min mn timing.
Proof.
  unfold track_min, wrap64, wrap32, INT_MAX. intros Hm Ht.
  rewrite (Z.mod_small mn) by lia.
  destruct (Z.ltb_spec timing mn).
  - rewrite Z.mod_small by lia. lia.
  - lia.
Qed.

(** C8, amended.  One turn of the polling loop calls [ExpireTimer] and then
    sleeps for the tracked minimum divided by 10, an integer division: the
    sleep is 0 when the minimum is below 10, there is no lower bound of one
    unit.  The tracked minimum (non-negative, as it starts) never grows:
    an [AddTimer] replaces it by the smaller of itself and the requested
    time, and [ExpireTimer] leaves it alone. *)
Theorem polling_interval clock fuel (l : MinHeapTimerLoop T) timing d f lp :
  (forall r, loop_turn clock fuel l = Ret r ->
     ExpireTimer clock fuel (base l) = Ret (base (fst r)) /\
     snd r = Z.quot (min_timing_time_ms l) 10 /\
     min_timing_time_ms (fst r) = min_timing_time_ms l) /\
  (0 <= min_timing_time_ms l <= INT_MAX -> 0 <= timing ->
   forall r, Loop_AddTimer clock timing d f lp l = Ret r ->
     min_timing_time_ms (snd r) = Z.min (min_timing_time_ms l) timing /\
     min_timing_time_ms (snd r) <= min_timing_time_ms l /\
     0 <= min_timing_time_ms (snd r) <= INT_MAX).
Proof.
  split.
  - intros r E. unfold loop_turn in E.
    destruct (ExpireTimer clock fuel (base l)) as [s'| |]; try discriminate.
    injection E as <-. repeat split.
  - intros Hm Ht r E. unfold Loop_AddTimer in E.
    destruct (mtx_ (base l)); [discriminate|]. injection E as <-.
    cbn [snd min_timing_time_ms Loop_addTimer].
    rewrite track_min_spec by assumption. lia.
Qed.

Lemma run_app clock (os1 os2 : list (op T)) : forall s,
  run clock (os1 ++ os2) s =
  match run clock os1 s with
  | Ret r1 =>
      match run clock os2 (snd r1) with
      | Ret r2 => Ret (fst r1 ++ fst r2, snd r2)
      | Blocked => Blocked
      | OutOfFuel => OutOfFuel
      end
  | Blocked => Blocked
  | OutOfFuel => OutOfFuel
  end.
Proof.
  induction os1 as [|o os1 IH]; intros s.
  - cbn. destruct (run clock os2 s) as [[l s']| |]; reflexivity.
  - cbn [app]. rewrite !run_cons. destruct (step clock o s) as [r1| |]; try reflexivity.
    rewrite IH. destruct (run clock os1 (snd r1)) as [r2| |]; try reflexivity.
    cbn [fst snd]. destruct (run clock os2 (snd r2)) as [r3| |]; try reflexivity.
    cbn [fst snd]. rewrite app_assoc. reflexivity.
Qed.

(** ** What holds whatever the counter does

    When the counter has wrapped onto a live identifier, [_map.insert]
    keeps the old entry and the new node has no entry of its own; what
    remains true is that every entry of the table leads to a node of the
    heap that carries the key as its identifier. *)

Definition map_sound s : Prop :=
  forall i a, _map s !! i = Some a ->
    (a ∈ _heap s /\ exists nd, mem s !! a = Some nd /\ id nd = i).

Definition sound s : Prop := heap_inv s /\ map_sound s /\ brk_inv s.

Lemma wf_sound s : wf s -> sound s.
Proof.
  intros (Hh & Hm & Hb). split; [exact Hh|]. split; [|exact Hb].
  intros i a E. apply Hm, E.
Qed.

Lemma sound_same s s' :
  _heap s' = _heap s -> mem s' = mem s -> _map s' = _map s -> brk s' = brk s ->
  sound s -> sound s'.
Proof.
  intros Eh Em Emp Eb. unfold sound, heap_inv, map_sound, brk_inv.
  rewrite Eh, Em, Emp, Eb. tauto.
Qed.

Lemma _removeNode_sound s a : sound s -> a ∈ _heap s -> sound (_removeNode a s).
Proof.
  intros (Hh & Hm & Hb) Ha.
  destruct (_removeNode_spec s a Hh Ha) as (Hh' & _ & S & Emp & _ & _ & Eb & _).
  destruct (heap_inv_node s a Hh Ha) as (nd & End & _).
  rewrite End in Emp. cbn [from_option] in Emp.
  split; [exact Hh'|]. split.
  - intros k x E. rewrite Emp in E. apply lookup_delete_Some in E as [Nk E].
    destruct (Hm k x E) as (Hx & nx & Enx & Eid).
    assert (Nx : x <> a) by (intros ->; congruence).
    split; [apply (removed_elem s a Hh Ha); split; assumption|].
    destruct (mem_sim_lookup _ _ _ _ S Enx) as (nx' & Enx' & Sx).
    apply same_node_fields in Sx as (Eid' & _).
    exists nx'. split; [exact Enx'|congruence].
  - intros x Hx. rewrite Eb. apply Hb. eapply mem_sim_is_Some; eassumption.
Qed.

Lemma _delNode_sound s a : sound s -> a ∈ _heap s -> sound (_delNode a s).
Proof.
  intros W Ha. pose proof (_removeNode_sound s a W Ha) as (Hh' & Hm' & Hb').
  destruct W as (Hh & Hm & Hb).
  pose proof (removed_elem s a Hh Ha) as Hel.
  destruct (_delNode_fields a s) as (Eh & Emp & Emem & _ & _ & Eb & _).
  assert (Agree : forall x, x ∈ _heap (_removeNode a s) ->
                    delete a (mem (_removeNode a s)) !! x = mem (_removeNode a s) !! x).
  { intros x Hx. apply Hel in Hx as [_ N]. apply lookup_delete_ne. congruence. }
  split; [apply _delNode_heap_inv; assumption|]. split.
  - intros i x. rewrite Emp, Eh, Emem. intros E.
    destruct (Hm' i x E) as (Hx & Hnd). split; [exact Hx|].
    rewrite Agree by assumption. exact Hnd.
  - intros x Hx. rewrite Eb. apply Hb'. rewrite Emem in Hx.
    destruct Hx as [nd Hx]. apply lookup_delete_Some in Hx as [_ Hx]. exists nd. exact Hx.
Qed.

Lemma link_map_sound a i c m s nd :
  heap_inv s -> map_sound s ->
  (forall x, x ∈ _heap s -> m !! x = mem s !! x) ->
  m !! a = Some nd -> idx nd = length (_heap s) -> id nd = i ->
  map_sound (link a i c m s).
Proof.
  intros Hh Hm Agree Ea Ei Eid.
  destruct (link_heap_inv a i c m s nd Hh Agree Ea Ei) as (_ & Pm & S).
  destruct (link_fields a i c m s) as (_ & _ & Emp & _).
  assert (Old : forall k x, _map s !! k = Some x ->
            x ∈ _heap (link a i c m s) /\
            exists nd', mem (link a i c m s) !! x = Some nd' /\ id nd' = k).
  { intros k x E. destruct (Hm k x E) as (Hx & nx & Enx & Eidx).
    split; [rewrite Pm; right; exact Hx|].
    rewrite <- Agree in Enx by assumption.
    destruct (mem_sim_lookup _ _ _ _ S Enx) as (nd' & E' & Sn).
    apply same_node_fields in Sn as (Eid' & _).
    exists nd'. split; [exact E'|congruence]. }
  intros k x. rewrite Emp. unfold map_insert.
  destruct (_map s !! i) as [y|] eqn:Ey; [apply Old|].
  intros E. apply lookup_insert_Some in E as [(<- & <-)|(_ & E)]; [|apply Old, E].
  split; [rewrite Pm; left|].
  destruct (mem_sim_lookup _ _ _ _ S Ea) as (nd' & E' & Sn).
  apply same_node_fields in Sn as (Eid' & _).
  exists nd'. split; [exact E'|congruence].
Qed.

Lemma sound_heap_allocated s x : sound s -> x ∈ _heap s -> (x < brk s)%nat.
Proof.
  intros (Hh & _ & Hb) Hx. apply Hb.
  destruct (heap_inv_node s x Hh Hx) as (nd & E & _). exists nd. exact E.
Qed.

Lemma _addTimer_sound clock timing d f lp s :
  sound s -> sound (snd (_addTimer clock timing d f lp s)).
Proof.
  intros W.
  destruct (_addTimer_fields clock timing d f lp s) as (_ & Eh & Em & Emp & _ & Eb & _).
  cbv zeta in Eh, Em, Emp.
  set (i := Count (_count s)) in *.
  set (nd := new_node timing d f lp (CurrentTime_ms clock (ticks s)) i (length (_heap s))) in *.
  set (m := <[brk s := nd]> (mem s)) in *.
  assert (Agree : forall x, x ∈ _heap s -> m !! x = mem s !! x).
  { intros x Hx. pose proof (sound_heap_allocated s x W Hx).
    unfold m. apply lookup_insert_ne. lia. }
  destruct W as (Hh & Hm & Hb).
  assert (Ea : m !! brk s = Some nd) by (unfold m; apply lookup_insert_eq).
  destruct (link_heap_inv (brk s) i i m s nd Hh Agree Ea eq_refl) as (Hh' & Pm & S).
  pose proof (link_map_sound (brk s) i i m s nd Hh Hm Agree Ea eq_refl eq_refl) as Hm'.
  destruct (link_fields (brk s) i i m s) as (_ & _ & Elm & _).
  split; [unfold heap_inv; rewrite Eh, Em; exact Hh'|]. split.
  - intros j x. rewrite Emp, <- Elm, Eh, Em. apply Hm'.
  - intros x Hx. rewrite Eb. rewrite Em in Hx.
    apply (mem_sim_is_Some _ _ _ S) in Hx. unfold m in Hx.
    destruct (decide (x = brk s)) as [->|N]; [lia|].
    rewrite lookup_insert_ne in Hx by congruence. apply Hb in Hx. lia.
Qed.

Lemma _addTimer_node_sound clock a s nd :
  sound s -> a ∉ _heap s -> mem s !! a = Some nd ->
  sound (snd (_addTimer_node clock a s)).
Proof.
  intros (Hh & Hm & Hb) Nin E.
  destruct (_addTimer_node_heap clock a s nd Hh Nin E) as (Hh' & _ & S & _ & Eb & _).
  split; [exact Hh'|]. split.
  - rewrite (_addTimer_node_eq clock a s nd E).
    apply (link_map_sound a _ _ _ s
             (renewed (length (_heap s)) (Count (_count s))
                      (CurrentTime_ms clock (ticks s)) nd) Hh Hm).
    + intros x Hx. apply lookup_insert_ne. intros ->. contradiction.
    + apply lookup_insert_eq.
    + reflexivity.
    + reflexivity.
  - intros x Hx. rewrite Eb. apply (mem_sim_is_Some _ _ _ S) in Hx.
    destruct (decide (x = a)) as [->|N].
    + apply Hb. exists nd. exact E.
    + rewrite lookup_insert_ne in Hx by congruence. apply Hb, Hx.
Qed.

Lemma expire_node_sound clock s a :
  sound s -> a ∈ _heap s -> sound (expire_node clock a s).
Proof.
  intros W Ha.
  destruct (invoke_fields a s) as (Eh & Em & Emp & _ & Eb & _).
  assert (W1 : sound (invoke a s)) by (eapply sound_same; eassumption).
  assert (Ha1 : a ∈ _heap (invoke a s)) by (rewrite Eh; exact Ha).
  pose proof W1 as (Hh1 & _ & _).
  destruct (heap_inv_node _ a Hh1 Ha1) as (nd & End & _).
  unfold expire_node. rewrite End. cbn [from_option].
  destruct (is_loop nd).
  - pose proof (_removeNode_sound _ a W1 Ha1) as W2.
    destruct (_removeNode_spec _ a Hh1 Ha1) as (_ & _ & S2 & _).
    pose proof (removed_elem _ a Hh1 Ha1 a) as Nin2.
    destruct (mem_sim_lookup _ _ _ _ S2 End) as (nd2 & End2 & _).
    apply (_addTimer_node_sound clock a _ nd2 W2); [|exact End2].
    intros H. apply Nin2 in H. tauto.
  - apply _delNode_sound; assumption.
Qed.

Lemma expire_loop_sound clock now fuel : forall s s',
  sound s -> expire_loop clock fuel now s = Ret s' -> sound s'.
Proof.
  induction fuel as [|fuel IH]; intros s s' W E; [discriminate|].
  rewrite expire_loop_S in E.
  destruct (_heap s) as [|a tl] eqn:Eh; [congruence|].
  destruct (now <? expire_of (mem s) a); [congruence|].
  apply (IH _ _ (expire_node_sound clock s a W ltac:(rewrite Eh; left)) E).
Qed.

Lemma step_sound clock o s r : sound s -> step clock o s = Ret r -> sound (snd r).
Proof.
  intros W E. destruct o as [timing d f lp|i|fuel]; cbn [step] in E.
  - destruct (AddTimer clock timing d f lp s) as [r1| |] eqn:Ea; try discriminate.
    injection E as <-. cbn [fst snd].
    destruct (AddTimer_Ret _ _ _ _ _ _ _ Ea) as (_ & Eh & Em & Emp & _ & Eb & _).
    destruct (_addTimer_fields clock timing d f lp s) as (_ & _ & _ & _ & _ & Eb' & _).
    eapply sound_same; [exact Eh|exact Em|exact Emp|congruence|].
    apply _addTimer_sound, W.
  - injection E as <-. cbn [fst snd].
    destruct (_map s !! i) as [a|] eqn:Ei.
    + destruct (DelTimer_found_fields s i a Ei) as (Eh & Em & Emp & _ & Eb & _).
      eapply (sound_same (_delNode a s)); try assumption.
      apply _delNode_sound; [exact W|]. destruct W as (_ & Hm & _). apply (Hm i a Ei).
    + rewrite (DelTimer_absent s i Ei). eapply sound_same; try reflexivity. exact W.
  - destruct (ExpireTimer clock fuel s) as [s1| |] eqn:Ee; try discriminate.
    injection E as <-. cbn [fst snd].
    destruct (ExpireTimer_Ret _ _ _ _ Ee) as (_ & [(_ & ->)|(_ & s2 & E2 & ->)]);
      [exact W|].
    apply expire_loop_sound in E2.
    + eapply sound_same; [..|exact E2]; reflexivity.
    + eapply sound_same; [..|exact W]; reflexivity.
Qed.

Lemma run_sound clock os : forall s r,
  sound s -> run clock os s = Ret r -> sound (snd r).
Proof.
  induction os as [|o os IH]; intros s r W E.
  - injection E as <-. exact W.
  - rewrite run_cons in E.
    destruct (step clock o s) as [r1| |] eqn:Es; try discriminate.
    destruct (run clock os (snd r1)) as [r2| |] eqn:Er; try discriminate.
    injection E as <-. cbn [snd].
    apply (IH _ _ (step_sound _ _ _ _ W Es) Er).
Qed.

Lemma DelTimer_sound s i : sound s -> sound (snd (DelTimer i s)).
Proof.
  intros W. apply (step_sound (fun _ => 0) (Cancel i) s ([], snd (DelTimer i s)) W).
  reflexivity.
Qed.

Lemma DelTimer_map_sound s i : sound s -> _map (snd (DelTimer i s)) = delete i (_map s).
Proof.
  intros (Hh & Hm & _). destruct (_map s !! i) as [a|] eqn:E.
  - destruct (Hm i a E) as (Ha & nd & End & Eid).
    destruct (DelTimer_found_fields s i a E) as (_ & _ & Emp & _).
    rewrite Emp.
    change (_map (_removeNode a s)) with (_map (_delNode a s)).
    rewrite (_delNode_map s a nd Hh Ha End). congruence.
  - rewrite (DelTimer_absent s i E). cbn. symmetry. apply delete_id, E.
Qed.

(** Every state reached from the initial one is sound. *)
Lemma reachable_sound clock (os : list (op T)) r :
  run clock os init = Ret r -> sound (snd r).
Proof. apply run_sound, wf_sound, wf_init. Qed.

(** ** The state invariant, as the specification words it *)

(** (1) every parent expires no later than its children. *)
Definition heap_property s : Prop :=
  forall i,
    ((2 * i + 1 < length (_heap s))%nat ->
       key (_heap s) (mem s) i <= key (_heap s) (mem s) (2 * i + 1)) /\
    ((2 * i + 2 < length (_heap s))%nat ->
       key (_heap s) (mem s) i <= key (_heap s) (mem s) (2 * i + 2)).

(** (2) the [idx] field of every node of the heap is its position. *)
Definition positions s : Prop :=
  forall i a, _heap s !! i = Some a -> exists nd, mem s !! a = Some nd /\ idx nd = i.

(** (3) is [map_inv]. *)
Definition state_invariant s : Prop := heap_property s /\ positions s /\ map_inv s.

Lemma heap_inv_property s : heap_inv s -> heap_property s /\ positions s.
Proof.
  intros (O & P). split.
  - exact (proj1 (ord_children _ _) O).
  - intros i a E. apply P; [eapply lookup_lt_Some, E|exact E].
Qed.

Lemma wf_state_invariant s : wf s -> state_invariant s.
Proof.
  intros (Hh & Hm & _). destruct (heap_inv_property s Hh) as [H1 H2].
  split; [exact H1|]. split; [exact H2|exact Hm].
Qed.

(** C2, amended.  Starting from the initial state, after every sequence of
    [AddTimer], [DelTimer] and [ExpireTimer] calls that return: (1) the
    heap property holds; (2) every node records its position; (3) every
    entry of the lookup table leads to a node of the heap that carries the
    key as its identifier -- and, provided the calls draw at most [INT_MAX]
    identifiers from the 32-bit counter [_count], the table holds exactly
    the identifiers of the nodes of the heap, each mapped to its node. *)
Theorem invariant_after_calls clock (os : list (op T)) r :
  run clock os init = Ret r ->
  heap_property (snd r) /\ positions (snd r) /\ map_sound (snd r) /\
  (budget os <= INT_MAX -> state_invariant (snd r)).
Proof.
  intros E.
  destruct (run_sound clock os init r (wf_sound _ wf_init) E) as (Hh & Hm & _).
  destruct (heap_inv_property _ Hh) as [H1 H2].
  split; [exact H1|]. split; [exact H2|]. split; [exact Hm|].
  intros Hb. apply wf_state_invariant.
  destruct (run_Inv clock os init r Inv_init) as ((W & _) & _); [cbn; lia|exact E|].
  exact W.
Qed.


(** C7.  For an identifier that is not in the lookup table, [DelTimer]
    returns [false] and leaves the heap and the lookup table (and the
    nodes) as they were; after any [DelTimer i], a second [DelTimer i]
    returns [false].  This holds in every state reached from the initial
    one ([reachable_sound]).  (Of the state, only the mutex changes: on
    this path the source returns without unlocking, see
    [DelTimer_leaves_mutex_held].) *)
Theorem cancel_unknown s i :
  sound s ->
  (_map s !! i = None ->
   fst (DelTimer i s) = false /\
   _heap (snd (DelTimer i s)) = _heap s /\
   _map (snd (DelTimer i s)) = _map s /\
   mem (snd (DelTimer i s)) = mem s) /\
  fst (DelTimer i (snd (DelTimer i s))) = false.
Proof.
  intros W. split.
  - intros E. rewrite (DelTimer_absent s i E). repeat split.
  - rewrite (DelTimer_absent (snd (DelTimer i s)) i); [reflexivity|].
    rewrite (DelTimer_map_sound s i W). apply lookup_delete_eq.
Qed.

(** The mutex after a [DelTimer] that finds nothing: it stays locked, and
    the next [AddTimer] or [ExpireTimer] waits for ever. *)
Lemma DelTimer_leaves_mutex_held clock s i timing d f lp fuel :
  _map s !! i = None ->
  mtx_ (snd (DelTimer i s)) = true /\
  AddTimer clock timing d f lp (snd (DelTimer i s)) = Blocked /\
  ExpireTimer clock fuel (snd (DelTimer i s)) = Blocked.
Proof. intros E. rewrite (DelTimer_absent s i E). repeat split. Qed.

(** C6.  In every sound state (so in every state reached from the initial
    one, [reachable_sound]), for an identifier [i] of the lookup table,
    mapped to node [a]: [DelTimer i] returns [true]; [a] leaves the heap,
    [i] leaves the table, the object is freed, every other node stays in
    the heap with its fields (but [idx]), the state is sound again (and
    satisfies the whole invariant if it did), and in no later sequence of
    calls is the callback of [a] invoked. *)
Theorem cancel_live clock s i a :
  sound s -> _map s !! i = Some a ->
  fst (DelTimer i s) = true /\
  (a ∉ _heap (snd (DelTimer i s))) /\
  _heap s ≡ₚ a :: _heap (snd (DelTimer i s)) /\
  _map (snd (DelTimer i s)) = delete i (_map s) /\
  mem (snd (DelTimer i s)) !! a = None /\
  (forall x, x <> a ->
     with_idx 0 <$> (mem (snd (DelTimer i s)) !! x) = with_idx 0 <$> (mem s !! x)) /\
  sound (snd (DelTimer i s)) /\
  (wf s -> state_invariant (snd (DelTimer i s))) /\
  forall (os : list (op T)) r,
    run clock os (snd (DelTimer i s)) = Ret r ->
    exists L, fired (snd r) = fired (snd (DelTimer i s)) ++ L /\ a ∉ L.*1.
Proof.
  intros W E.
  pose proof W as (Hh & Hm & Hb).
  destruct (Hm i a E) as (Ha & nd & End & Eid).
  destruct (DelTimer_found_fields s i a E) as (Eh & Em & Emp & _ & Eb & _).
  destruct (_removeNode_spec s a Hh Ha) as (_ & Pm & S & _).
  pose proof (removed_elem s a Hh Ha a) as Nin.
  assert (Nin' : a ∉ _heap (snd (DelTimer i s))).
  { rewrite Eh. intros H. apply Nin in H. tauto. }
  split; [rewrite (DelTimer_found s i a E); reflexivity|].
  split; [exact Nin'|]. split; [rewrite Eh; exact Pm|].
  split; [apply DelTimer_map_sound, W|].
  split; [rewrite Em; apply lookup_delete_eq|].
  split; [intros x Nx; rewrite Em, lookup_delete_ne by congruence; symmetry; apply S|].
  split; [apply DelTimer_sound, W|].
  split; [intros W'; apply wf_state_invariant, DelTimer_wf, W'|].
  intros os r Er. apply (run_gone clock a os _ r Er).
  split; [exact Nin'|]. rewrite Eb. apply Hb. exists nd. exact End.
Qed.

(** C5, amended.  When a repeating node fires, its new expiration is the
    clock value read at the reinsertion, after the callback has returned,
    plus the period (modulo 2^64).  It is the sweep's captured time plus
    the period when the clock still shows that time and the sum fits. *)
Theorem repeat_expiration clock s a nd :
  heap_inv s -> a ∈ _heap s -> mem s !! a = Some nd -> is_loop nd = true ->
  expire_of (mem (expire_node clock a s)) a
    = wrap64 (CurrentTime_ms clock (ticks s) + timing_time_ms nd) /\
  forall now,
    CurrentTime_ms clock (ticks s) = now -> 0 <= now + timing_time_ms nd < 2 ^ 64 ->
    expire_of (mem (expire_node clock a s)) a = now + timing_time_ms nd.
Proof.
  intros Hh Ha End El.
  destruct (expire_node_spec clock s a nd Hh Ha End) as (_ & _ & _ & _ & _ & H).
  rewrite El in H. destruct H as (_ & _ & _ & nd' & E' & Sn).
  apply same_node_fields in Sn as (_ & Ee & _).
  assert (G : expire_of (mem (expire_node clock a s)) a
              = wrap64 (CurrentTime_ms clock (ticks s) + timing_time_ms nd)).
  { unfold expire_of. rewrite E'. exact Ee. }
  split; [exact G|]. intros now En Hr. rewrite G, En. unfold wrap64.
  apply Z.mod_small. exact Hr.
Qed.

(** C1, amended.  When a repeating node fires, the same object is put back
    in the heap under a fresh identifier, the next value of [_count]: the
    lookup table maps the new identifier to the node and no longer holds
    the old one.  [DelTimer] with the old identifier returns [false], with
    the new one [true]. *)
Theorem repeat_identifier clock s a nd :
  wf s -> a ∈ _heap s -> mem s !! a = Some nd -> is_loop nd = true ->
  _map s !! Count (_count s) = None ->
  a ∈ _heap (expire_node clock a s) /\
  from_option id 0 (mem (expire_node clock a s) !! a) = Count (_count s) /\
  _map (expire_node clock a s) !! Count (_count s) = Some a /\
  _map (expire_node clock a s) !! id nd = None /\
  fst (DelTimer (id nd) (expire_node clock a s)) = false /\
  fst (DelTimer (Count (_count s)) (expire_node clock a s)) = true.
Proof.
  intros W Ha End El Fresh.
  pose proof W as (Hh & Hm & _).
  destruct (expire_node_spec clock s a nd Hh Ha End) as (_ & _ & _ & _ & _ & H).
  rewrite El in H. destruct H as (Pm & _ & _ & nd' & E' & Sn).
  apply same_node_fields in Sn as (Ei & _). cbn in Ei.
  destruct (expire_node_wf clock s a W Ha Fresh) as (W' & Hmap).
  assert (Ha' : a ∈ _heap (expire_node clock a s)) by (rewrite Pm; exact Ha).
  assert (Enew : _map (expire_node clock a s) !! Count (_count s) = Some a).
  { destruct W' as (_ & Hm' & _). apply Hm'. split; [exact Ha'|].
    exists nd'. split; [exact E'|exact Ei]. }
  assert (Eold : _map s !! id nd = Some a).
  { apply Hm. split; [exact Ha|]. exists nd. split; [exact End|reflexivity]. }
  assert (Ne : id nd <> Count (_count s)) by congruence.
  assert (Egone : _map (expire_node clock a s) !! id nd = None).
  { destruct (_map (expire_node clock a s) !! id nd) as [x|] eqn:Ex; [|reflexivity].
    exfalso. destruct (Hmap _ _ Ex) as [[? _]|Hx]; [congruence|].
    assert (x = a) by congruence. subst x.
    destruct W' as (_ & Hm' & _). apply Hm' in Ex as (_ & nx & Enx & Eidx).
    congruence. }
  split; [exact Ha'|]. split; [rewrite E'; exact Ei|]. split; [exact Enew|].
  split; [exact Egone|]. split.
  - rewrite (DelTimer_absent _ _ Egone). reflexivity.
  - rewrite (DelTimer_found _ _ a Enew). reflexivity.
Qed.

End Proofs.

(** * Concrete runs *)

Module Example.

Definition frozen (t : Z) : nat -> Z := fun _ => t.

(** The state a sequence of calls leaves, from the initial state. *)
Definition after (c : nat -> Z) (os : list (op unit)) : list Z * MinHeapTimer unit :=
  match run c os init with
  | Ret r => r
  | _ => ([], init)
  end.

(** Three one-shot timers and a repeating one, a cancellation and a sweep. *)
Definition calls : list (op unit) :=
  [Schedule 50 tt true false; Schedule 10 tt true false;
   Schedule 30 tt true true; Cancel 1; Sweep 5; Schedule 5 tt false false].

Definition clk : nat -> Z := Scenario.readings [0; 0; 0; 35; 36; 40].

Definition after_calls : list Z * MinHeapTimer unit := after clk calls.

(** Scenario A: one-shot timers of 50, 10 and 30 ms scheduled at time 0. *)
Definition scenario_A : MinHeapTimer unit :=
  snd (after (frozen 0)
         [Schedule 50 tt true false; Schedule 10 tt true false;
          Schedule 30 tt true false]).

(** The three sweeps read the clock after the three [AddTimer]s. *)
Definition clock_A : nat -> Z := Scenario.readings [0; 0; 0; 10; 30; 50].

(** Scenario B: a repeating timer of 20 ms scheduled at time 0; the first
    sweep reads 20, and the clock shows 23 when the node is put back. *)
Definition clock_B : nat -> Z := Scenario.readings [0; 20; 23].

Definition scheduled_B : MinHeapTimer unit :=
  snd (after clock_B [Schedule 20 tt true true]).

Definition node_B : TimerNode unit := mkNode 0 1 20 20 tt true true.

Definition fired_B : MinHeapTimer unit :=
  snd (after clock_B [Schedule 20 tt true true; Sweep 5]).

(** A repeating timer of period 0; the clock shows 5 twice, then 6. *)
Definition clock_0 : nat -> Z := Scenario.readings [0; 5; 5; 6].

Definition scheduled_0 : MinHeapTimer unit :=
  snd (after clock_0 [Schedule 0 tt true true]).

Definition swept_0 : MinHeapTimer unit :=
  snd (after clock_0 [Schedule 0 tt true true; Sweep 9]).

(** A repeating timer whose period makes the deadline overflow 64 bits. *)
Definition scheduled_wrap : MinHeapTimer unit :=
  snd (after (frozen 5) [Schedule (2 ^ 64 - 1) tt true true]).

Definition node_wrap : TimerNode unit := mkNode 0 1 4 (2 ^ 64 - 1) tt true true.

(** Two timers, for cancellations. *)
Definition two_timers : MinHeapTimer unit :=
  snd (after (frozen 0) [Schedule 10 tt true false; Schedule 10 tt true false]).

(** The polling loop after an [AddTimer] of 5 ms, with
    [TIMER_LOOP_TIME = 1000]. *)
Definition loop_5 : MinHeapTimerLoop unit :=
  match Loop_AddTimer (frozen 0) 5 tt true false (init_loop 1000) with
  | Ret r => snd r
  | _ => init_loop 1000
  end.

End Example.

Lemma invariant_after_calls_witness :
  run Example.clk Example.calls init = Ret Example.after_calls /\
  budget Example.calls <= INT_MAX /\
  heap_property (snd Example.after_calls) /\ positions (snd Example.after_calls) /\
  map_sound (snd Example.after_calls) /\ state_invariant (snd Example.after_calls).
Proof.
  assert (E : run Example.clk Example.calls init = Ret Example.after_calls)
    by (vm_compute; reflexivity).
  assert (B : budget Example.calls <= INT_MAX) by (vm_compute; discriminate).
  split; [exact E|]. split; [exact B|].
  destruct (invariant_after_calls Example.clk Example.calls Example.after_calls E)
    as (H1 & H2 & H3 & H4).
  split; [exact H1|]. split; [exact H2|]. split; [exact H3|exact (H4 B)].
Defined.


(** The states of the examples are reached from the initial state, hence
    well formed. *)
Lemma after_wf c os :
  (match run c os (@init unit) with Ret _ => true | _ => false end) = true ->
  budget os <= INT_MAX -> wf (snd (Example.after c os)).
Proof.
  intros E B. unfold Example.after.
  destruct (run c os init) as [r| |] eqn:Er; try discriminate.
  eapply run_wf; eassumption.
Qed.

Lemma scenario_A_wf : wf Example.scenario_A.
Proof. apply after_wf; [vm_compute; reflexivity|vm_compute; discriminate]. Qed.

Lemma scheduled_B_wf : wf Example.scheduled_B.
Proof. apply after_wf; [vm_compute; reflexivity|vm_compute; discriminate]. Qed.

Lemma scheduled_0_wf : wf Example.scheduled_0.
Proof. apply after_wf; [vm_compute; reflexivity|vm_compute; discriminate]. Qed.

Lemma scheduled_wrap_wf : wf Example.scheduled_wrap.
Proof. apply after_wf; [vm_compute; reflexivity|vm_compute; discriminate]. Qed.

Lemma two_timers_wf : wf Example.two_timers.
Proof. apply after_wf; [vm_compute; reflexivity|vm_compute; discriminate]. Qed.

Lemma root_in_heap (s : MinHeapTimer unit) a :
  head (_heap s) = Some a -> a ∈ _heap s.
Proof. destruct (_heap s); [discriminate|]. intros [= ->]. left. Qed.

Lemma oneshot_order_witness :
  heap_inv Example.scenario_A /\ mtx_ Example.scenario_A = false /\
  oneshot Example.scenario_A /\
  Forall (fun f => (length (_heap Example.scenario_A) < f)%nat) [4; 4; 4]%nat /\
  exists s' L,
    run Example.clock_A (Sweep <$> [4; 4; 4]%nat) Example.scenario_A = Ret ([], s') /\
    fired s' = fired Example.scenario_A ++ L /\
    Sorted Z.le (deadlines L) /\
    NoDup L.*1 /\
    (forall e, e ∈ L -> fst e ∈ _heap Example.scenario_A /\
       exists n0, mem Example.scenario_A !! fst e = Some n0 /\ same_node n0 (snd e)) /\
    (forall a, a ∈ L.*1 <->
       a ∈ _heap Example.scenario_A /\ fb_of (mem Example.scenario_A) a = true /\
       exists k, (k < length [4; 4; 4]%nat)%nat /\
         expire_of (mem Example.scenario_A) a
         <= CurrentTime_ms Example.clock_A (ticks Example.scenario_A + k)) /\
    (forall x, x ∈ _heap s' <->
       x ∈ _heap Example.scenario_A /\
       forall k, (k < length [4; 4; 4]%nat)%nat ->
         CurrentTime_ms Example.clock_A (ticks Example.scenario_A + k)
         < expire_of (mem Example.scenario_A) x).
Proof.
  assert (H1 : heap_inv Example.scenario_A) by exact (wf_heap_inv _ scenario_A_wf).
  assert (H2 : mtx_ Example.scenario_A = false) by reflexivity.
  assert (H3 : oneshot Example.scenario_A) by (apply oneshot_check; vm_compute; reflexivity).
  assert (H4 : Forall (fun f => (length (_heap Example.scenario_A) < f)%nat) [4; 4; 4]%nat).
  { repeat constructor; vm_compute; lia. }
  split; [exact H1|]. split; [exact H2|]. split; [exact H3|]. split; [exact H4|].
  exact (oneshot_order Example.clock_A Example.scenario_A [4; 4; 4]%nat H1 H2 H3 H4).
Defined.

Lemma repeat_identifier_witness :
  wf Example.scheduled_B /\ 0%nat ∈ _heap Example.scheduled_B /\
  mem Example.scheduled_B !! 0%nat = Some Example.node_B /\
  is_loop Example.node_B = true /\
  _map Example.scheduled_B !! Count (_count Example.scheduled_B) = None /\
  0%nat ∈ _heap (expire_node Example.clock_B 0%nat Example.scheduled_B) /\
  from_option id 0 (mem (expire_node Example.clock_B 0%nat Example.scheduled_B) !! 0%nat)
    = Count (_count Example.scheduled_B) /\
  _map (expire_node Example.clock_B 0%nat Example.scheduled_B)
    !! Count (_count Example.scheduled_B) = Some 0%nat /\
  _map (expire_node Example.clock_B 0%nat Example.scheduled_B) !! id Example.node_B = None /\
  fst (DelTimer (id Example.node_B)
         (expire_node Example.clock_B 0%nat Example.scheduled_B)) = false /\
  fst (DelTimer (Count (_count Example.scheduled_B))
         (expire_node Example.clock_B 0%nat Example.scheduled_B)) = true.
Proof.
  assert (H1 : wf Example.scheduled_B) by exact scheduled_B_wf.
  assert (H2 : 0%nat ∈ _heap Example.scheduled_B) by (apply root_in_heap; reflexivity).
  assert (H3 : mem Example.scheduled_B !! 0%nat = Some Example.node_B)
    by (vm_compute; reflexivity).
  assert (H4 : is_loop Example.node_B = true) by reflexivity.
  assert (H5 : _map Example.scheduled_B !! Count (_count Example.scheduled_B) = None)
    by (vm_compute; reflexivity).
  split; [exact H1|]. split; [exact H2|]. split; [exact H3|].
  split; [exact H4|]. split; [exact H5|].
  exact (repeat_identifier Example.clock_B Example.scheduled_B 0%nat Example.node_B
           H1 H2 H3 H4 H5).
Defined.

Lemma repeat_expiration_witness :
  heap_inv Example.scheduled_B /\ 0%nat ∈ _heap Example.scheduled_B /\
  mem Example.scheduled_B !! 0%nat = Some Example.node_B /\
  is_loop Example.node_B = true /\
  expire_of (mem (expire_node (Example.frozen 20) 0%nat Example.scheduled_B)) 0%nat
    = wrap64 (CurrentTime_ms (Example.frozen 20) (ticks Example.scheduled_B)
              + timing_time_ms Example.node_B) /\
  forall now,
    CurrentTime_ms (Example.frozen 20) (ticks Example.scheduled_B) = now ->
    0 <= now + timing_time_ms Example.node_B < 2 ^ 64 ->
    expire_of (mem (expire_node (Example.frozen 20) 0%nat Example.scheduled_B)) 0%nat
      = now + timing_time_ms Example.node_B.
Proof.
  assert (H1 : heap_inv Example.scheduled_B) by exact (wf_heap_inv _ scheduled_B_wf).
  assert (H2 : 0%nat ∈ _heap Example.scheduled_B) by (apply root_in_heap; reflexivity).
  assert (H3 : mem Example.scheduled_B !! 0%nat = Some Example.node_B)
    by (vm_compute; reflexivity).
  assert (H4 : is_loop Example.node_B = true) by reflexivity.
  split; [exact H1|]. split; [exact H2|]. split; [exact H3|]. split; [exact H4|].
  exact (repeat_expiration (Example.frozen 20) Example.scheduled_B 0%nat Example.node_B
           H1 H2 H3 H4).
Defined.

Lemma cancel_live_witness :
  sound Example.two_timers /\ _map Example.two_timers !! 1 = Some 0%nat /\
  fst (DelTimer 1 Example.two_timers) = true /\
  (0%nat ∉ _heap (snd (DelTimer 1 Example.two_timers))) /\
  _heap Example.two_timers ≡ₚ 0%nat :: _heap (snd (DelTimer 1 Example.two_timers)) /\
  _map (snd (DelTimer 1 Example.two_timers)) = delete 1 (_map Example.two_timers) /\
  mem (snd (DelTimer 1 Example.two_timers)) !! 0%nat = None /\
  (forall x, x <> 0%nat ->
     with_idx 0 <$> (mem (snd (DelTimer 1 Example.two_timers)) !! x)
     = with_idx 0 <$> (mem Example.two_timers !! x)) /\
  sound (snd (DelTimer 1 Example.two_timers)) /\
  (wf Example.two_timers -> state_invariant (snd (DelTimer 1 Example.two_timers))) /\
  forall (os : list (op unit)) r,
    run (Example.frozen 0) os (snd (DelTimer 1 Example.two_timers)) = Ret r ->
    exists L, fired (snd r) = fired (snd (DelTimer 1 Example.two_timers)) ++ L /\
              0%nat ∉ L.*1.
Proof.
  assert (H1 : sound Example.two_timers) by exact (wf_sound _ two_timers_wf).
  assert (H2 : _map Example.two_timers !! 1 = Some 0%nat) by (vm_compute; reflexivity).
  split; [exact H1|]. split; [exact H2|].
  exact (cancel_live (Example.frozen 0) Example.two_timers 1 0%nat H1 H2).
Defined.

Lemma cancel_unknown_witness :
  sound Example.two_timers /\
  (_map Example.two_timers !! 7 = None ->
   fst (DelTimer 7 Example.two_timers) = false /\
   _heap (snd (DelTimer 7 Example.two_timers)) = _heap Example.two_timers /\
   _map (snd (DelTimer 7 Example.two_timers)) = _map Example.two_timers /\
   mem (snd (DelTimer 7 Example.two_timers)) = mem Example.two_timers) /\
  fst (DelTimer 7 (snd (DelTimer 7 Example.two_timers))) = false.
Proof.
  assert (H1 : sound Example.two_timers) by exact (wf_sound _ two_timers_wf).
  split; [exact H1|].
  exact (cancel_unknown Example.two_timers 7 H1).
Defined.

Lemma sweep_fires_due_witness :
  heap_inv Example.scheduled_B /\ mtx_ Example.scheduled_B = false /\
  (length (_heap Example.scheduled_B) < 2)%nat /\
  reschedules_later (Example.frozen 20)
    (CurrentTime_ms (Example.frozen 20) (ticks Example.scheduled_B))
    (ticks Example.scheduled_B) Example.scheduled_B /\
  exists s' L,
    ExpireTimer (Example.frozen 20) 2 Example.scheduled_B = Ret s' /\
    fired s' = fired Example.scheduled_B ++ L /\
    NoDup L.*1 /\
    (forall a, a ∈ L.*1 <->
       (a ∈ _heap Example.scheduled_B /\
        expire_of (mem Example.scheduled_B) a
          <= CurrentTime_ms (Example.frozen 20) (ticks Example.scheduled_B) /\
        fb_of (mem Example.scheduled_B) a = true)) /\
    (forall x, x ∈ _heap s' ->
       CurrentTime_ms (Example.frozen 20) (ticks Example.scheduled_B)
         < expire_of (mem s') x) /\
    (_heap Example.scheduled_B = [] -> s' = Example.scheduled_B) /\
    (forall a tl, _heap Example.scheduled_B = a :: tl ->
       CurrentTime_ms (Example.frozen 20) (ticks Example.scheduled_B)
         < expire_of (mem Example.scheduled_B) a ->
       L = [] /\ _heap s' = _heap Example.scheduled_B /\
       _map s' = _map Example.scheduled_B /\ mem s' = mem Example.scheduled_B).
Proof.
  assert (H1 : heap_inv Example.scheduled_B) by exact (wf_heap_inv _ scheduled_B_wf).
  assert (H2 : mtx_ Example.scheduled_B = false) by reflexivity.
  assert (H3 : (length (_heap Example.scheduled_B) < 2)%nat) by (vm_compute; lia).
  assert (H4 : reschedules_later (Example.frozen 20)
                 (CurrentTime_ms (Example.frozen 20) (ticks Example.scheduled_B))
                 (ticks Example.scheduled_B) Example.scheduled_B).
  { apply reschedules_later_frozen; [vm_compute; discriminate|vm_compute; reflexivity]. }
  split; [exact H1|]. split; [exact H2|]. split; [exact H3|]. split; [exact H4|].
  exact (sweep_fires_due (Example.frozen 20) Example.scheduled_B 2 H1 H2 H3 H4).
Defined.

Lemma sweep_terminates_witness :
  heap_inv Example.scheduled_B /\ mtx_ Example.scheduled_B = false /\
  reschedules_later (Example.frozen 20)
    (CurrentTime_ms (Example.frozen 20) (ticks Example.scheduled_B))
    (ticks Example.scheduled_B) Example.scheduled_B /\
  (exists s', ExpireTimer (Example.frozen 20) (S (length (_heap Example.scheduled_B)))
                Example.scheduled_B = Ret s') /\
  heap_inv Example.scheduled_0 /\ mtx_ Example.scheduled_0 = false /\
  (forall k, (ticks Example.scheduled_0 <= k)%nat ->
     CurrentTime_ms (Example.frozen 0) k
     = CurrentTime_ms (Example.frozen 0) (ticks Example.scheduled_0)) /\
  spins (CurrentTime_ms (Example.frozen 0) (ticks Example.scheduled_0)) Example.scheduled_0 /\
  forall fuel, ExpireTimer (Example.frozen 0) fuel Example.scheduled_0 = OutOfFuel.
Proof.
  assert (H1 : heap_inv Example.scheduled_B) by exact (wf_heap_inv _ scheduled_B_wf).
  assert (H2 : mtx_ Example.scheduled_B = false) by reflexivity.
  assert (H3 : reschedules_later (Example.frozen 20)
                 (CurrentTime_ms (Example.frozen 20) (ticks Example.scheduled_B))
                 (ticks Example.scheduled_B) Example.scheduled_B).
  { apply reschedules_later_frozen; [vm_compute; discriminate|vm_compute; reflexivity]. }
  assert (H4 : heap_inv Example.scheduled_0) by exact (wf_heap_inv _ scheduled_0_wf).
  assert (H5 : mtx_ Example.scheduled_0 = false) by reflexivity.
  assert (H6 : forall k, (ticks Example.scheduled_0 <= k)%nat ->
     CurrentTime_ms (Example.frozen 0) k
     = CurrentTime_ms (Example.frozen 0) (ticks Example.scheduled_0)) by reflexivity.
  assert (H7 : spins (CurrentTime_ms (Example.frozen 0) (ticks Example.scheduled_0))
                 Example.scheduled_0).
  { exists 0%nat, (mkNode 0 1 0 0 tt true true).
    split; [apply root_in_heap; reflexivity|].
    split; [vm_compute; reflexivity|]. split; [reflexivity|].
    split; vm_compute; discriminate. }
  split; [exact H1|]. split; [exact H2|]. split; [exact H3|].
  split; [exact (proj1 (sweep_terminates (Example.frozen 20) Example.scheduled_B H1 H2) H3)|].
  split; [exact H4|]. split; [exact H5|]. split; [exact H6|]. split; [exact H7|].
  exact (proj2 (sweep_terminates (Example.frozen 0) Example.scheduled_0 H4 H5) H6 H7).
Defined.

Lemma polling_interval_witness :
  0 <= min_timing_time_ms (@init_loop unit 1000) <= INT_MAX /\ 0 <= 5 /\
  forall r,
    Loop_AddTimer (Example.frozen 0) 5 tt true false (init_loop 1000) = Ret r ->
    min_timing_time_ms (snd r) = Z.min (min_timing_time_ms (@init_loop unit 1000)) 5 /\
    min_timing_time_ms (snd r) <= min_timing_time_ms (@init_loop unit 1000) /\
    0 <= min_timing_time_ms (snd r) <= INT_MAX.
Proof.
  assert (H1 : 0 <= min_timing_time_ms (@init_loop unit 1000) <= INT_MAX)
    by (vm_compute; split; discriminate).
  assert (H2 : 0 <= 5) by lia.
  split; [exact H1|]. split; [exact H2|].
  exact (proj2 (polling_interval (Example.frozen 0) 3 (init_loop 1000) 5 tt true false)
           H1 H2).
Defined.

(** * The scenarios of the specification *)

(** Scenario A: timers of 50, 10 and 30 ms; sweeps at 10, 30 and 50 fire
    the second, the third and the first, one per sweep. *)
Example scenario_A_order :
  Scenario.fired_ids (snd (Example.after (Example.frozen 0)
    [Schedule 50 tt true false; Schedule 10 tt true false; Schedule 30 tt true false]))
    = [] /\
  match run Example.clock_A [Sweep 4] Example.scenario_A with
  | Ret r => Scenario.fired_ids (snd r) = [2]
  | _ => False
  end /\
  match run Example.clock_A [Sweep 4; Sweep 4] Example.scenario_A with
  | Ret r => Scenario.fired_ids (snd r) = [2; 3]
  | _ => False
  end /\
  match run Example.clock_A [Sweep 4; Sweep 4; Sweep 4] Example.scenario_A with
  | Ret r => Scenario.fired_ids (snd r) = [2; 3; 1] /\ _heap (snd r) = []
  | _ => False
  end.
Proof. vm_compute. repeat split. Qed.

(** Scenario B, on a clock that stands still during each sweep: a
    repeating timer of 20 ms scheduled at 0, sweeps at 20, 40 and 60; three
    firings, and the deadlines 40, 60 and 80 after them.  (The node is
    known as 1, 2 and 3 when it fires.) *)
Example scenario_B_deadlines :
  let clock := Scenario.readings [0; 20; 20; 40; 40; 60; 60] in
  match run clock [Schedule 20 tt true true; Sweep 2] init with
  | Ret r => Scenario.heap_view (snd r) = [(2, 40, 0%nat)]
  | _ => False
  end /\
  match run clock [Schedule 20 tt true true; Sweep 2; Sweep 2] init with
  | Ret r => Scenario.heap_view (snd r) = [(3, 60, 0%nat)]
  | _ => False
  end /\
  match run clock [Schedule 20 tt true true; Sweep 2; Sweep 2; Sweep 2] init with
  | Ret r => Scenario.heap_view (snd r) = [(4, 80, 0%nat)] /\
             Scenario.fired_ids (snd r) = [1; 2; 3]
  | _ => False
  end.
Proof. vm_compute. repeat split. Qed.

(** Scenario C: two timers of the same interval, one cancelled at once;
    the sweep after the deadline fires the other one only. *)
Example scenario_C_survivor :
  match run (Scenario.readings [0; 0; 10])
            [Schedule 10 tt true false; Schedule 10 tt true false; Cancel 1; Sweep 3]
            init with
  | Ret r => Scenario.fired_ids (snd r) = [2] /\ _heap (snd r) = []
  | _ => False
  end.
Proof. vm_compute. repeat split. Qed.

(** * Where the code departs from the specification *)

(** Against C1: [AddTimer] returned 1; after the first firing the node of
    the repeating timer carries the identifier 2, the lookup table has no
    entry for 1 and [DelTimer 1] returns [false]. *)
Lemma repeat_identifier_counterexample :
  run Example.clock_B [Schedule 20 tt true true; Sweep 5] init
    = Ret ([1], Example.fired_B) /\
  (fired Example.fired_B).*1 = [0%nat] /\
  Scenario.heap_view Example.fired_B = [(2, 43, 0%nat)] /\
  _map Example.fired_B !! 1 = None /\
  fst (DelTimer 1 Example.fired_B) = false.
Proof. vm_compute. repeat split. Qed.

(** Against C5: the sweep captured the time 20 and the period is 20, but
    the clock showed 23 when the node was put back: the new deadline is
    43, not 40. *)
Lemma repeat_expiration_counterexample :
  CurrentTime_ms Example.clock_B (ticks Example.scheduled_B) = 20 /\
  mem Example.scheduled_B !! 0%nat = Some Example.node_B /\
  timing_time_ms Example.node_B = 20 /\
  ExpireTimer Example.clock_B 5 Example.scheduled_B = Ret Example.fired_B /\
  expire_of (mem Example.fired_B) 0%nat = 43 /\
  expire_of (mem Example.fired_B) 0%nat <> 20 + 20.
Proof. vm_compute. repeat split. discriminate. Qed.

(** Against C4: the heap holds one node, repeating with period 0; a single
    sweep that captures the time 5 invokes its callback twice (the clock
    still shows 5 at the first reinsertion, 6 at the second). *)
Lemma sweep_fires_due_counterexample :
  _heap Example.scheduled_0 = [0%nat] /\
  ExpireTimer Example.clock_0 9 Example.scheduled_0 = Ret Example.swept_0 /\
  (fired Example.swept_0).*1 = [0%nat; 0%nat].
Proof. vm_compute. repeat split. Qed.

(** Against C8: with a tracked minimum of 5 ms the loop sleeps 0 ms. *)
Lemma polling_interval_counterexample :
  min_timing_time_ms Example.loop_5 = 5 /\
  exists r, loop_turn (Example.frozen 0) 3 Example.loop_5 = Ret r /\
            snd r = 0 /\ ~ 1 <= snd r.
Proof.
  split; [reflexivity|].
  eexists. split; [vm_compute; reflexivity|]. cbn. split; [reflexivity|lia].
Qed.

(** Against C10.  First half: the only node is repeating with a positive
    period, 2^64 - 1, and is due; its new deadline overflows to 4, and on
    a clock that shows 5 the sweep never returns.  Second half: a due
    repeating node of period 0 does not keep the sweep for ever when the
    clock advances. *)
Lemma sweep_terminates_counterexample :
  (forall a nd, a ∈ _heap Example.scheduled_wrap ->
     mem Example.scheduled_wrap !! a = Some nd -> is_loop nd = true ->
     0 < timing_time_ms nd) /\
  mtx_ Example.scheduled_wrap = false /\
  (forall fuel, ExpireTimer (Example.frozen 5) fuel Example.scheduled_wrap = OutOfFuel) /\
  mem Example.scheduled_0 !! 0%nat = Some (mkNode 0 1 0 0 tt true true) /\
  ExpireTimer Example.clock_0 9 Example.scheduled_0 = Ret Example.swept_0.
Proof.
  assert (Eh : _heap Example.scheduled_wrap = [0%nat]) by reflexivity.
  assert (Em : mem Example.scheduled_wrap !! 0%nat = Some Example.node_wrap)
    by (vm_compute; reflexivity).
  split; [|split; [reflexivity|split; [|split; vm_compute; reflexivity]]].
  - intros a nd Ha End _. rewrite Eh in Ha. apply list_elem_of_singleton in Ha. subst a.
    unfold addr in *. rewrite Em in End. injection End as <-. reflexivity.
  - apply ExpireTimer_spin.
    + exact (wf_heap_inv _ scheduled_wrap_wf).
    + reflexivity.
    + reflexivity.
    + exists 0%nat, Example.node_wrap. rewrite Eh.
      split; [left|]. split; [exact Em|]. split; [reflexivity|].
      split; vm_compute; discriminate.
Qed.

(** The mutex after a [DelTimer] of an unknown identifier, on an example:
    the next [AddTimer] never returns. *)
Example DelTimer_then_AddTimer_blocks :
  fst (DelTimer 7 (@init unit)) = false /\
  AddTimer (Example.frozen 0) 10 tt true false (snd (DelTimer 7 (@init unit))) = Blocked.
Proof. split; reflexivity. Qed.

(** * The identifier counter wraps around

    A client that keeps one timer alive and schedules and cancels another
    one over and over draws every value of the 32-bit counter in turn. *)

Module Wrap.

Definition clock0 : nat -> Z := Example.frozen 0.

Definition base_node : TimerNode unit := mkNode 0 1 0 0 tt false false.

Definition base (c : Z) (b t : nat) : MinHeapTimer unit :=
  mkTimer false [0%nat] {[1 := 0%nat]} c {[0%nat := base_node]} b t [].

Definition added (c : Z) (b t : nat) : MinHeapTimer unit :=
  mkTimer false [0%nat; b] (map_insert (Count c) b {[1 := 0%nat]}) (Count c)
          (<[b := mkNode 1 (Count c) 0 0 tt false false]> {[0%nat := base_node]})
          (S b) (S t) [].

Lemma AddTimer_base c b t :
  b <> 0%nat ->
  AddTimer clock0 0 tt false false (base c b t) = Ret (Count c, added c b t).
Proof.
  intros Nb. unfold AddTimer, base. cbn [mtx_]. f_equal. f_equal.
  unfold _addTimer, link, set_mtx, added. cbn [fst snd mtx_ _heap _map _count mem brk ticks fired app length].
  change (CurrentTime_ms clock0 t) with 0. change (wrap64 (0 + 0)) with 0.
  replace (2 - 1)%nat with 1%nat by reflexivity.
  unfold _shiftUp. rewrite shiftUp_loop_S. change (parent 1) with 0%nat.
  cbn [Nat.eqb orb].
  unfold _lessThan, key. cbn [lookup list_lookup from_option].
  unfold expire_of.
  rewrite lookup_insert_eq, lookup_insert_ne, lookup_singleton_eq by congruence.
  cbn. reflexivity.
Qed.

Lemma DelTimer_added c b t :
  Count c <> 1 -> b <> 0%nat ->
  DelTimer (Count c) (added c b t) = (true, base (Count c) (S b) (S t)).
Proof.
  intros Nc Nb.
  assert (Em : map_insert (Count c) b ({[1 := 0%nat]} : gmap Z addr)
               = <[Count c := b]> {[1 := 0%nat]}).
  { unfold map_insert. rewrite lookup_singleton_ne by congruence. reflexivity. }
  rewrite (DelTimer_found _ _ b).
  2:{ cbn [_map added]. rewrite Em. apply lookup_insert_eq. }
  cbn [mtx_ added negb]. f_equal.
  unfold _delNode. rewrite _removeNode_eq. cbv zeta.
  unfold set_mtx, base, added. cbn [mtx_ _heap _map _count mem brk ticks fired].
  rewrite Em. rewrite lookup_insert_eq. cbn [from_option idx length].
  unfold remove_hm. cbn [length Nat.sub Nat.eqb fst snd].
  rewrite lookup_insert_eq. cbn [from_option id].
  rewrite delete_insert_eq, delete_id by (apply lookup_singleton_ne; congruence).
  rewrite delete_insert_eq, delete_id by (apply lookup_singleton_ne; congruence).
  reflexivity.
Qed.

Fixpoint churn (n : nat) (c : Z) : list (op unit) :=
  match n with
  | O => []
  | S n' => Schedule 0 tt false false :: Cancel (Count c) :: churn n' (Count c)
  end.

Fixpoint churn_ids (n : nat) (c : Z) : list Z :=
  match n with
  | O => []
  | S n' => Count c :: churn_ids n' (Count c)
  end.

Lemma churn_run n : forall c b t,
  (forall j, (j < n)%nat -> Nat.iter (S j) Count c <> 1) -> b <> 0%nat ->
  run clock0 (churn n c) (base c b t)
  = Ret (churn_ids n c, base (Nat.iter n Count c) (n + b) (n + t)).
Proof.
  induction n as [|n IH]; intros c b t Hc Nb; [reflexivity|].
  cbn [churn churn_ids]. rewrite run_cons. cbn [step].
  rewrite AddTimer_base by exact Nb. cbn [fst snd].
  rewrite run_cons. cbn [step]. rewrite DelTimer_added; [|exact (Hc 0%nat ltac:(lia))|exact Nb].
  cbn [fst snd]. rewrite IH.
  - cbn [fst snd app]. rewrite <- Nat.iter_succ_r.
    replace (n + S b)%nat with (S n + b)%nat by lia.
    replace (n + S t)%nat with (S n + t)%nat by lia. reflexivity.
  - intros j Hj. rewrite <- Nat.iter_succ_r. apply Hc. lia.
  - lia.
Qed.

Lemma wrap32_succ x : wrap32 (wrap32 x + 1) = wrap32 (x + 1).
Proof.
  unfold wrap32. f_equal.
  replace ((x + 2 ^ 31) mod 2 ^ 32 - 2 ^ 31 + 1 + 2 ^ 31)
    with ((x + 2 ^ 31) mod 2 ^ 32 + 1) by lia.
  rewrite Zplus_mod_idemp_l. f_equal. lia.
Qed.

Lemma Count_iter n : forall c, Nat.iter n Count (wrap32 c) = wrap32 (c + Z.of_nat n).
Proof.
  induction n as [|n IH]; intros c.
  - cbn. f_equal. lia.
  - rewrite Nat.iter_succ, IH. unfold Count. rewrite wrap32_succ. f_equal. lia.
Qed.

Lemma wrap32_one k : 0 < k < 2 ^ 32 -> wrap32 (1 + k) <> 1.
Proof.
  unfold wrap32. intros Hk E.
  assert (E' : (1 + k + 2 ^ 31) mod 2 ^ 32 = 1 + 2 ^ 31) by lia.
  destruct (Z_lt_le_dec (1 + k + 2 ^ 31) (2 ^ 32)) as [L|L].
  - rewrite Z.mod_small in E' by lia. lia.
  - replace (1 + k + 2 ^ 31) with ((1 + k + 2 ^ 31 - 2 ^ 32) + 1 * 2 ^ 32) in E' by lia.
    rewrite Z_mod_plus_full, Z.mod_small in E' by lia. lia.
Qed.

Lemma Count_iter_1 n : Nat.iter n Count 1 = wrap32 (1 + Z.of_nat n).
Proof. exact (Count_iter n 1). Qed.

Lemma churn_from_1 n :
  Z.of_nat n < 2 ^ 32 ->
  run clock0 (churn n 1) (base 1 1 1)
  = Ret (churn_ids n 1, base (wrap32 (1 + Z.of_nat n)) (n + 1) (n + 1)).
Proof.
  intros Hn. rewrite churn_run.
  - rewrite Count_iter_1. reflexivity.
  - intros j Hj. rewrite Count_iter_1. apply wrap32_one. lia.
  - discriminate.
Qed.

Lemma first_AddTimer :
  AddTimer clock0 0 tt false false init = Ret (1, base 1 1 1).
Proof. vm_compute. reflexivity. Qed.

(** The calls: one timer that stays, [n] times a timer that is scheduled
    and cancelled at once, and one more timer. *)
Definition calls (n : nat) : list (op unit) :=
  Schedule 0 tt false false :: churn n 1 ++ [Schedule 0 tt false false].

Lemma calls_run n :
  Z.of_nat n < 2 ^ 32 ->
  run clock0 (calls n) init
  = Ret (1 :: churn_ids n 1 ++ [Count (wrap32 (1 + Z.of_nat n))],
         added (wrap32 (1 + Z.of_nat n)) (n + 1) (n + 1)).
Proof.
  intros Hn. unfold calls. rewrite run_cons. cbn [step].
  rewrite first_AddTimer. cbn [fst snd].
  rewrite run_app, (churn_from_1 n Hn). cbn [fst snd].
  rewrite run_cons. cbn [step]. rewrite AddTimer_base by lia.
  cbn [fst snd run app]. reflexivity.
Qed.

Definition rounds_to_zero : nat := Z.to_nat (2 ^ 32 - 1).


Lemma rounds_to_zero_Z : Z.of_nat rounds_to_zero = 2 ^ 32 - 1.
Proof. unfold rounds_to_zero. apply Z2Nat.id. discriminate. Qed.

End Wrap.


(** Against C2: after [2^32] identifiers the counter is back at 0 while
    the timer with identifier 1 is still alive; the next [AddTimer] draws
    1 again, [std::map::insert] keeps the old entry, and the new node is in
    the heap without an entry of its own in the lookup table. *)
Lemma invariant_after_calls_counterexample :
  exists r,
    run Wrap.clock0 (Wrap.calls Wrap.rounds_to_zero) init = Ret r /\
    ~ state_invariant (snd r).
Proof.
  eexists. split.
  - apply Wrap.calls_run. rewrite Wrap.rounds_to_zero_Z. reflexivity.
  - cbn [snd]. rewrite Wrap.rounds_to_zero_Z.
    change (wrap32 (1 + (2 ^ 32 - 1))) with 0.
    set (b := (Wrap.rounds_to_zero + 1)%nat).
    assert (Nb : b <> 0%nat) by (unfold b; lia).
    intros (_ & _ & Hm).
    destruct (Hm 1 b) as [_ Hback].
    assert (E : _map (Wrap.added 0 b b) !! 1 = Some b).
    { apply Hback. split.
      - cbn [_heap Wrap.added]. right. left.
      - eexists. split; [cbn [mem Wrap.added]; apply lookup_insert_eq|reflexivity]. }
    cbn [_map Wrap.added] in E. unfold map_insert in E.
    change (Count 0) with 1 in E.
    rewrite lookup_singleton_eq in E. cbv iota in E.
    rewrite lookup_singleton_eq in E. injection E as E. congruence.
Qed.

(** * Further properties of the code *)

Section Further.

Context {T : Type}.
Implicit Types (h : list addr) (m : gmap addr (TimerNode T)) (s : MinHeapTimer T).

(** ** The two repairs, on any vector *)

Lemma shiftUp_loop_sim fuel : forall p h m, mem_sim m (snd (shiftUp_loop fuel p h m)).
Proof.
  induction fuel as [|fuel IH]; intros p h m; [apply mem_sim_refl|].
  rewrite shiftUp_loop_S. destruct (_ || _); [apply mem_sim_refl|].
  eapply mem_sim_trans; [|apply IH].
  eapply mem_sim_trans; apply mem_sim_store_idx.
Qed.

Lemma shiftDown_loop_sim fuel n : forall p h m,
  mem_sim m (snd (snd (shiftDown_loop fuel n p h m))).
Proof.
  induction fuel as [|fuel IH]; intros p h m; [apply mem_sim_refl|].
  rewrite shiftDown_loop_S. destruct (_ <=? _)%nat; [apply mem_sim_refl|].
  destruct (negb _); [apply mem_sim_refl|].
  eapply mem_sim_trans; [|apply IH].
  eapply mem_sim_trans; apply mem_sim_store_idx.
Qed.

(** X6.  Whatever the vector and the nodes, [_shiftUp] and [_shiftDown]
    only permute the vector (no pointer is lost or duplicated, the length
    is kept) and write no field of a node but [idx]. *)
Theorem sifts_permute pos h m :
  fst (_shiftUp pos h m) ≡ₚ h /\
  length (fst (_shiftUp pos h m)) = length h /\
  mem_sim m (snd (_shiftUp pos h m)) /\
  fst (snd (_shiftDown pos h m)) ≡ₚ h /\
  length (fst (snd (_shiftDown pos h m))) = length h /\
  mem_sim m (snd (snd (_shiftDown pos h m))).
Proof.
  unfold _shiftUp, _shiftDown. cbn [fst snd].
  pose proof (shiftUp_loop_perm (S pos) pos h m) as P1.
  pose proof (shiftDown_loop_perm (length h - 1) (length h - 1) pos h m) as P2.
  split; [exact P1|]. split; [rewrite P1; reflexivity|].
  split; [apply shiftUp_loop_sim|]. split; [exact P2|].
  split; [rewrite P2; reflexivity|]. apply shiftDown_loop_sim.
Qed.

(** X7.  What [_shiftDown] returns.  [false]: no child of [pos] (among the
    slots before the last one, which is the one being removed) has a
    smaller deadline, and nothing was written.  [true]: some such child
    has a strictly smaller deadline than the node at [pos]. *)
Theorem _shiftDown_reports pos h m :
  (fst (_shiftDown pos h m) = false ->
   snd (_shiftDown pos h m) = (h, m) /\
   forall c, (0 < c < length h - 1)%nat -> parent c = pos ->
             key h m pos <= key h m c) /\
  (fst (_shiftDown pos h m) = true ->
   exists c, (0 < c < length h - 1)%nat /\ parent c = pos /\
             key h m c < key h m pos).
Proof.
  unfold _shiftDown. cbn [fst snd].
  destruct (shiftDown_loop_first (length h - 1) (length h - 1) pos h m)
    as [(E & Es & Hc)|(Lt & c & Hc & Epc & Hlt)]; [lia| |].
  - rewrite E, Nat.ltb_irrefl. split; [|discriminate].
    intros _. split; [exact Es|]. intros c Hcr Ec. apply Hc; assumption.
  - rewrite (proj2 (Nat.ltb_lt _ _) Lt). split; [discriminate|].
    intros _. exists c. repeat split; try assumption; lia.
Qed.

(** ** The mutex *)

(** X1.  [DelTimer] of an identifier that is not in the table returns
    with the mutex held.  From then on no [AddTimer], [ExpireTimer] or
    [GetTimerNode] returns, and no later [DelTimer] releases the mutex. *)
Theorem unknown_cancel_holds_mutex clock s i :
  _map s !! i = None ->
  mtx_ (snd (DelTimer i s)) = true /\
  (forall timing d f lp,
     AddTimer clock timing d f lp (snd (DelTimer i s)) = Blocked) /\
  (forall fuel, ExpireTimer clock fuel (snd (DelTimer i s)) = Blocked) /\
  GetTimerNode (snd (DelTimer i s)) = Blocked /\
  (forall j, mtx_ (snd (DelTimer j (snd (DelTimer i s)))) = true).
Proof.
  intros E. rewrite (DelTimer_absent s i E). cbn [snd].
  split; [reflexivity|]. split; [reflexivity|]. split; [reflexivity|].
  split; [reflexivity|]. intros j.
  destruct (_map (set_mtx true s) !! j) as [a|] eqn:Ej.
  - destruct (DelTimer_found_fields _ j a Ej) as (_ & _ & _ & _ & _ & _ & _ & Ex).
    rewrite Ex. reflexivity.
  - rewrite (DelTimer_absent _ j Ej). reflexivity.
Qed.

(** X2.  Entered with the mutex free, a call that returns leaves the mutex
    held in one case only: a [DelTimer] of an identifier that is not in
    the table. *)
Theorem mutex_held_only_by_unknown_cancel clock (o : op T) s r :
  mtx_ s = false -> step clock o s = Ret r ->
  (mtx_ (snd r) = true <-> exists i, o = Cancel i /\ _map s !! i = None).
Proof.
  intros Hx E. destruct o as [timing d f lp|i|fuel]; cbn [step] in E.
  - destruct (AddTimer clock timing d f lp s) as [r1| |] eqn:Ea; try discriminate.
    injection E as <-. cbn [snd].
    destruct (AddTimer_Ret _ _ _ _ _ _ _ Ea) as (_ & _ & _ & _ & _ & _ & _ & _ & Em).
    rewrite Em. split; [discriminate|]. intros (j & Ej & _). discriminate.
  - injection E as <-. cbn [snd]. destruct (_map s !! i) as [a|] eqn:Ei.
    + destruct (DelTimer_found_fields s i a Ei) as (_ & _ & _ & _ & _ & _ & _ & Ex).
      rewrite Ex, Hx. split; [discriminate|].
      intros (j & Ej & En). injection Ej as <-. congruence.
    + rewrite (DelTimer_absent s i Ei). split; [|reflexivity].
      intros _. exists i. split; [reflexivity|exact Ei].
  - destruct (ExpireTimer clock fuel s) as [s1| |] eqn:Ee; try discriminate.
    injection E as <-. cbn [snd].
    destruct (ExpireTimer_Ret _ _ _ _ Ee) as (_ & [(_ & ->)|(_ & s2 & _ & ->)]).
    + rewrite Hx. split; [discriminate|]. intros (j & Ej & _). discriminate.
    + cbn. split; [discriminate|]. intros (j & Ej & _). discriminate.
Qed.

(** ** [AddTimer] *)

Lemma AddTimer_facts clock timing d f lp s :
  sound s -> mtx_ s = false ->
  exists s',
    AddTimer clock timing d f lp s = Ret (Count (_count s), s') /\
    mtx_ s' = false /\ sound s' /\
    _heap s' ≡ₚ brk s :: _heap s /\
    mem_sim (<[brk s := new_node timing d f lp (CurrentTime_ms clock (ticks s))
                                 (Count (_count s)) (length (_heap s))]> (mem s))
            (mem s') /\
    _map s' = map_insert (Count (_count s)) (brk s) (_map s) /\
    _count s' = Count (_count s) /\ brk s' = S (brk s) /\
    ticks s' = S (ticks s) /\ fired s' = fired s.
Proof.
  intros W Hx. rewrite (AddTimer_free clock timing d f lp s Hx).
  eexists. split; [reflexivity|].
  destruct (_addTimer_fields clock timing d f lp s) as (_ & Eh & Em & Emp & Ec & Eb & Et & Ef & _).
  cbv zeta in Eh, Em.
  set (i := Count (_count s)) in *.
  set (nd := new_node timing d f lp (CurrentTime_ms clock (ticks s)) i (length (_heap s))) in *.
  set (m := <[brk s := nd]> (mem s)) in *.
  assert (Agree : forall x, x ∈ _heap s -> m !! x = mem s !! x).
  { intros x Hin. pose proof (sound_heap_allocated s x W Hin).
    unfold m. apply lookup_insert_ne. lia. }
  assert (Ea : m !! brk s = Some nd) by (unfold m; apply lookup_insert_eq).
  pose proof W as (Hh & _ & _).
  destruct (link_heap_inv (brk s) i i m s nd Hh Agree Ea eq_refl) as (_ & Pm & S).
  split; [reflexivity|].
  split; [eapply sound_same; [..|exact (_addTimer_sound clock timing d f lp s W)]; reflexivity|].
  split; [cbn [_heap set_mtx]; change (_heap (snd (_addTimer clock timing d f lp (set_mtx true s))))
            with (_heap (snd (_addTimer clock timing d f lp s))); rewrite Eh; exact Pm|].
  split; [change (mem (set_mtx false (snd (_addTimer clock timing d f lp (set_mtx true s)))))
            with (mem (snd (_addTimer clock timing d f lp s))); rewrite Em; exact S|].
  repeat split.
Qed.

(** X3.  [AddTimer], entered with the mutex free, returns the next value
    of the counter and leaves the mutex free.  The heap has gained one
    node, at the address just allocated; that node records its position
    and holds the returned identifier, the deadline [now + timing] modulo
    2^64, and the interval, payload, callback and repeat flag it was
    given; the other nodes keep their fields (but [idx]).  The table has
    gained the entry for the new node, unless the identifier was already a
    key, in which case the table is unchanged. *)
Theorem AddTimer_links clock timing d f lp s :
  sound s -> mtx_ s = false ->
  exists s',
    AddTimer clock timing d f lp s = Ret (Count (_count s), s') /\
    mtx_ s' = false /\ sound s' /\
    _heap s' ≡ₚ brk s :: _heap s /\
    (exists nd, mem s' !! brk s = Some nd /\ _heap s' !! idx nd = Some (brk s) /\
       id nd = Count (_count s) /\
       expire_ms nd = wrap64 (CurrentTime_ms clock (ticks s) + timing) /\
       timing_time_ms nd = timing /\ data nd = d /\ fb nd = f /\ is_loop nd = lp) /\
    (forall x, x <> brk s ->
       with_idx 0 <$> (mem s' !! x) = with_idx 0 <$> (mem s !! x)) /\
    (_map s !! Count (_count s) = None ->
       _map s' = <[Count (_count s) := brk s]> (_map s)) /\
    (forall y, _map s !! Count (_count s) = Some y -> _map s' = _map s).
Proof.
  intros W Hx.
  destruct (AddTimer_facts clock timing d f lp s W Hx)
    as (s' & E & Hx' & W' & Pm & S & Emp & _).
  exists s'. split; [exact E|]. split; [exact Hx'|]. split; [exact W'|].
  split; [exact Pm|]. split; [|split; [|split]].
  - destruct W' as (Hh' & _).
    destruct (heap_inv_node s' (brk s) Hh') as (nd & End & Epos); [rewrite Pm; left|].
    destruct (mem_sim_lookup _ _ (brk s) _ S (lookup_insert_eq _ _ _)) as (nd' & End' & Sn).
    assert (nd' = nd) by congruence. subst nd'.
    apply same_node_fields in Sn as (E1 & E2 & E3 & E4 & E5 & E6). cbn in E1, E2, E3, E4, E5, E6.
    exists nd. repeat split; [exact End|exact Epos|congruence..].
  - intros x Nx. rewrite <- (S x), lookup_insert_ne by congruence. reflexivity.
  - intros Fresh. rewrite Emp. unfold map_insert. rewrite Fresh. reflexivity.
  - intros y Ey. rewrite Emp. unfold map_insert. rewrite Ey. reflexivity.
Qed.

(** X4.  [AddTimer] followed by [DelTimer] of the identifier it returned
    (when that identifier was not already a key of the table): [DelTimer]
    returns [true]; the heap holds the nodes it held before, the table is
    what it was and every node has the fields it had (but [idx]); the
    mutex is free.  The identifier and the address are not given back. *)
Theorem AddTimer_DelTimer clock timing d f lp s :
  sound s -> mtx_ s = false -> _map s !! Count (_count s) = None ->
  exists s',
    AddTimer clock timing d f lp s = Ret (Count (_count s), s') /\
    fst (DelTimer (Count (_count s)) s') = true /\
    _heap (snd (DelTimer (Count (_count s)) s')) ≡ₚ _heap s /\
    _map (snd (DelTimer (Count (_count s)) s')) = _map s /\
    mem_sim (mem s) (mem (snd (DelTimer (Count (_count s)) s'))) /\
    mtx_ (snd (DelTimer (Count (_count s)) s')) = false /\
    sound (snd (DelTimer (Count (_count s)) s')) /\
    _count (snd (DelTimer (Count (_count s)) s')) = Count (_count s) /\
    brk (snd (DelTimer (Count (_count s)) s')) = S (brk s).
Proof.
  intros W Hx Fresh.
  destruct (AddTimer_facts clock timing d f lp s W Hx)
    as (s' & E & Hx' & W' & Pm & S & Emp & Ec & Eb & _).
  exists s'. split; [exact E|].
  set (i := Count (_count s)) in *. set (a := brk s) in *.
  assert (Emp' : _map s' = <[i := a]> (_map s)).
  { rewrite Emp. unfold map_insert. rewrite Fresh. reflexivity. }
  assert (Ei : _map s' !! i = Some a) by (rewrite Emp'; apply lookup_insert_eq).
  destruct (DelTimer_found_fields s' i a Ei) as (Eh2 & Em2 & _ & Ec2 & Eb2 & _ & _ & Ex2).
  pose proof W' as (Hh' & _ & _).
  assert (Ha : a ∈ _heap s') by (rewrite Pm; left).
  destruct (_removeNode_spec s' a Hh' Ha) as (_ & Pm2 & S2 & _).
  split; [rewrite (DelTimer_found s' i a Ei); reflexivity|].
  split.
  { rewrite Eh2. rewrite Pm2 in Pm. eapply Permutation_cons_inv. exact Pm. }
  split.
  { rewrite (DelTimer_map_sound s' i W'), Emp', delete_insert_eq. apply delete_id, Fresh. }
  split.
  { intros x. rewrite Em2. destruct (decide (x = a)) as [->|Nx].
    - rewrite lookup_delete_eq.
      destruct (mem s !! a) as [nd|] eqn:End; [|reflexivity].
      exfalso. destruct W as (_ & _ & Hb).
      assert (a < brk s)%nat by (apply Hb; exists nd; exact End). unfold a in *. lia.
    - rewrite lookup_delete_ne by congruence. rewrite <- (S2 x), <- (S x).
      rewrite lookup_insert_ne by congruence. reflexivity. }
  split; [congruence|]. split; [apply DelTimer_sound, W'|]. split; congruence.
Qed.

(** X8.  A timer whose deadline is not earlier than any deadline of the
    heap is appended: [_shiftUp] compares with [<] and moves nothing, the
    vector is the old one followed by the new node, and no node is
    written. *)
Theorem AddTimer_appends_latest clock timing d f lp s :
  sound s -> mtx_ s = false ->
  (forall x, x ∈ _heap s ->
     expire_of (mem s) x <= wrap64 (CurrentTime_ms clock (ticks s) + timing)) ->
  exists s',
    AddTimer clock timing d f lp s = Ret (Count (_count s), s') /\
    _heap s' = _heap s ++ [brk s] /\
    mem s' = <[brk s := new_node timing d f lp (CurrentTime_ms clock (ticks s))
                                 (Count (_count s)) (length (_heap s))]> (mem s).
Proof.
  intros W Hx Hlate. rewrite (AddTimer_free clock timing d f lp s Hx).
  eexists. split; [reflexivity|].
  change (_heap (set_mtx false (snd (_addTimer clock timing d f lp (set_mtx true s)))))
    with (_heap (snd (_addTimer clock timing d f lp s))).
  change (mem (set_mtx false (snd (_addTimer clock timing d f lp (set_mtx true s)))))
    with (mem (snd (_addTimer clock timing d f lp s))).
  destruct (_addTimer_fields clock timing d f lp s) as (_ & Eh & Em & _).
  cbv zeta in Eh, Em. rewrite Eh, Em.
  set (i := Count (_count s)) in *.
  set (nd := new_node timing d f lp (CurrentTime_ms clock (ticks s)) i (length (_heap s))) in *.
  set (m := <[brk s := nd]> (mem s)) in *.
  destruct (link_fields (brk s) i i m s) as (Elh & Elm & _). rewrite Elh, Elm.
  assert (Len : (length (_heap s ++ [brk s]) - 1)%nat = length (_heap s)).
  { rewrite length_app. cbn. lia. }
  rewrite Len.
  assert (Stay : _shiftUp (length (_heap s)) (_heap s ++ [brk s]) m
                 = (_heap s ++ [brk s], m)).
  { rewrite _shiftUp_unfold.
    destruct (Nat.eqb_spec (parent (length (_heap s))) (length (_heap s))) as [_|N];
      [reflexivity|].
    assert (L0 : (0 < length (_heap s))%nat).
    { destruct (length (_heap s)); [exfalso; apply N; reflexivity|lia]. }
    pose proof (parent_lt _ L0) as Lp.
    destruct (lookup_lt_is_Some_2 (_heap s) (parent (length (_heap s))) Lp) as [x Ex].
    assert (Hin : x ∈ _heap s) by (eapply list_elem_of_lookup_2, Ex).
    pose proof (sound_heap_allocated s x W Hin) as Lx.
    assert (K1 : key (_heap s ++ [brk s]) m (length (_heap s))
                 = wrap64 (CurrentTime_ms clock (ticks s) + timing)).
    { unfold key. rewrite lookup_app_r, Nat.sub_diag by lia. cbn.
      unfold expire_of, m. rewrite lookup_insert_eq. reflexivity. }
    assert (K2 : key (_heap s ++ [brk s]) m (parent (length (_heap s)))
                 = expire_of (mem s) x).
    { unfold key. rewrite lookup_app_l, Ex by lia. cbn.
      unfold expire_of, m. rewrite lookup_insert_ne by lia. reflexivity. }
    unfold _lessThan. rewrite K1, K2.
    specialize (Hlate x Hin).
    destruct (Z.ltb_spec (wrap64 (CurrentTime_ms clock (ticks s) + timing))
                         (expire_of (mem s) x)); [lia|reflexivity]. }
  rewrite Stay. split; reflexivity.
Qed.

(** ** [GetTimerNode] *)

Lemma wf_size s : wf s -> size (_map s) = length (_heap s).
Proof.
  intros (Hh & Hm & _).
  set (idf := fun a : addr => from_option id 0 (mem s !! a)).
  rewrite <- size_dom. unfold size, set_size. cbn.
  rewrite <- (length_fmap idf (_heap s)).
  apply Permutation_length, NoDup_Permutation.
  - apply NoDup_elements.
  - apply NoDup_fmap_2_strong; [|apply heap_inv_NoDup, Hh].
    intros x y Hx Hy E.
    destruct (heap_inv_node s x Hh Hx) as (nx & Enx & _).
    destruct (heap_inv_node s y Hh Hy) as (ny & Eny & _).
    unfold idf in E. rewrite Enx, Eny in E. cbn in E.
    assert (E1 : _map s !! id nx = Some x).
    { apply Hm. split; [exact Hx|]. exists nx. split; [exact Enx|reflexivity]. }
    assert (E2 : _map s !! id nx = Some y).
    { apply Hm. split; [exact Hy|]. exists ny. split; [exact Eny|congruence]. }
    congruence.
  - intros i. rewrite elem_of_elements, elem_of_dom, list_elem_of_fmap. split.
    + intros [a Ea]. apply Hm in Ea as (Ha & nd & End & Eid).
      exists a. split; [|exact Ha]. unfold idf. rewrite End. cbn. congruence.
    + intros (a & -> & Ha). destruct (heap_inv_node s a Hh Ha) as (nd & End & _).
      exists a. apply Hm. split; [exact Ha|]. exists nd. split; [exact End|].
      unfold idf. rewrite End. reflexivity.
Qed.

(** X5.  [GetTimerNode], entered with the mutex free, returns the vector
    and its length.  The vector has no duplicates and its first node has
    the smallest deadline of all; when the table is exact (the invariant
    of C2), the length returned is the number of entries of the table. *)
Theorem GetTimerNode_snapshot s :
  sound s -> mtx_ s = false ->
  GetTimerNode s = Ret (length (_heap s), _heap s) /\
  NoDup (_heap s) /\
  (forall a x, head (_heap s) = Some a -> x ∈ _heap s ->
     expire_of (mem s) a <= expire_of (mem s) x) /\
  (wf s -> size (_map s) = length (_heap s)).
Proof.
  intros (Hh & _) Hx. unfold GetTimerNode. rewrite Hx.
  split; [reflexivity|]. split; [apply heap_inv_NoDup, Hh|].
  split; [|apply wf_size].
  intros a x Ea Hin. destruct (_heap s) as [|a' tl] eqn:Eh; [discriminate|].
  injection Ea as ->. rewrite <- Eh in Hin. eapply heap_root_min; eassumption.
Qed.

(** ** The sweep *)

(** X9.  One [ExpireTimer], under the conditions of C4 (mutex free,
    repeating nodes rescheduled later than the captured time): it returns,
    having invoked the callbacks of exactly the nodes of the heap that are
    due at the captured time and have a callback, each with the node as it
    was at the entry, in non-decreasing order of [expire_ms], repeating
    nodes included; every such deadline is at most the captured time and
    no node left in the heap is due; the heap does not grow, and a
    repeating node of the heap at the return was a repeating node of the
    heap at the entry. *)
Theorem sweep_order clock s fuel :
  heap_inv s -> mtx_ s = false -> (length (_heap s) < fuel)%nat ->
  reschedules_later clock (CurrentTime_ms clock (ticks s)) (ticks s) s ->
  exists s' L,
    ExpireTimer clock fuel s = Ret s' /\
    fired s' = fired s ++ L /\
    Sorted Z.le (deadlines L) /\
    Forall (fun d => d <= CurrentTime_ms clock (ticks s)) (deadlines L) /\
    (length (_heap s') <= length (_heap s))%nat /\
    heap_inv s' /\ mtx_ s' = false /\
    (forall x nx, x ∈ _heap s' -> mem s' !! x = Some nx -> is_loop nx = true ->
       exists n0, x ∈ _heap s /\ mem s !! x = Some n0 /\ is_loop n0 = true) /\
    L.*1 ≡ₚ to_fire (CurrentTime_ms clock (ticks s)) s /\
    (forall e, e ∈ L ->
       fst e ∈ _heap s /\
       exists n0, mem s !! fst e = Some n0 /\ same_node n0 (snd e)) /\
    (forall x, x ∈ _heap s' ->
       CurrentTime_ms clock (ticks s) < expire_of (mem s') x).
Proof.
  intros Hh Hx Hf R.
  destruct (ExpireTimer_total clock s fuel Hh Hx Hf R)
    as (s' & L & E & Ef & Hh' & Hx' & PmL & Hleft & Srt & (Fnow & _) & Len & Hloop & _).
  assert (ND : NoDup L.*1).
  { rewrite PmL. unfold to_fire. apply NoDup_filter, heap_inv_NoDup, Hh. }
  exists s', L. split; [exact E|]. split; [exact Ef|]. split; [exact Srt|].
  split; [exact Fnow|]. split; [exact Len|]. split; [exact Hh'|].
  split; [exact Hx'|]. split; [exact Hloop|]. split; [exact PmL|].
  split; [|exact Hleft].
  intros e He. split; [|apply (ExpireTimer_first_fire clock fuel s s' L Hh E Ef ND e He)].
  assert (Hin : fst e ∈ L.*1).
  { apply list_elem_of_fmap. exists e. split; [reflexivity|exact He]. }
  rewrite PmL in Hin. unfold to_fire in Hin.
  apply list_elem_of_filter in Hin as [_ G]. exact G.
Qed.

(** What becomes of the nodes during the loop of [ExpireTimer]. *)
Lemma expire_loop_fate clock now fuel : forall s s',
  heap_inv s -> expire_loop clock fuel now s = Ret s' ->
  exists L,
    fired s' = fired s ++ L /\
    (forall e, e ∈ L -> fst e ∈ _heap s) /\
    (forall e, e ∈ L -> is_loop (snd e) = false -> fst e ∉ _heap s') /\
    (forall La e Lb, L = La ++ e :: Lb -> is_loop (snd e) = false -> fst e ∉ Lb.*1) /\
    (forall a nd, a ∈ _heap s -> mem s !! a = Some nd -> is_loop nd = true ->
       a ∈ _heap s' /\ exists nd', mem s' !! a = Some nd' /\ is_loop nd' = true).
Proof.
  induction fuel as [|fuel IH]; intros s s' Hh E; [discriminate|].
  rewrite expire_loop_S in E.
  assert (Stop : s' = s -> exists L,
    fired s' = fired s ++ L /\
    (forall e, e ∈ L -> fst e ∈ _heap s) /\
    (forall e, e ∈ L -> is_loop (snd e) = false -> fst e ∉ _heap s') /\
    (forall La e Lb, L = La ++ e :: Lb -> is_loop (snd e) = false -> fst e ∉ Lb.*1) /\
    (forall a nd, a ∈ _heap s -> mem s !! a = Some nd -> is_loop nd = true ->
       a ∈ _heap s' /\ exists nd', mem s' !! a = Some nd' /\ is_loop nd' = true)).
  { intros ->. exists []. rewrite app_nil_r. split; [reflexivity|].
    split; [intros e He; inversion He|]. split; [intros e He; inversion He|].
    split; [intros La e Lb EL; destruct La; discriminate|].
    intros a nd Ha End El. split; [exact Ha|]. exists nd. split; assumption. }
  destruct (_heap s) as [|a tl] eqn:Eh; [apply Stop; congruence|].
  destruct (now <? expire_of (mem s) a); [apply Stop; congruence|]. clear Stop.
  assert (Ha : a ∈ _heap s) by (rewrite Eh; left).
  destruct (heap_inv_node s a Hh Ha) as (nd & End & _).
  destruct (expire_node_spec clock s a nd Hh Ha End) as (Hh1 & Ef1 & _ & _ & Hoth & H).
  destruct (IH _ _ Hh1 E) as (L1 & Ef' & Hin1 & Hone1 & Hlater1 & Hrep1).
  destruct (expire_loop_frame clock now fuel _ _ E) as (Hsub & _).
  pose proof (heap_inv_NoDup s Hh) as ND.
  assert (Gone : is_loop nd = false -> a ∉ _heap (expire_node clock a s)).
  { intros El. rewrite El in H. destruct H as (Pm & _).
    rewrite Pm in ND. apply NoDup_cons in ND as [Nin _]. exact Nin. }
  rewrite <- Eh.
  exists ((if fb nd then [(a, nd)] else []) ++ L1).
  split; [rewrite Ef', Ef1, app_assoc; reflexivity|].
  split; [|split; [|split]].
  - intros e [He|He]%elem_of_app.
    + destruct (fb nd); [|inversion He].
      apply list_elem_of_singleton in He. subst e. exact Ha.
    + eapply expire_node_subset; [exact Ha|]. apply Hin1, He.
  - intros e [He|He]%elem_of_app El.
    + destruct (fb nd); [|inversion He].
      apply list_elem_of_singleton in He. subst e. cbn in *.
      intros Hin. apply (Gone El), Hsub, Hin.
    + apply Hone1; assumption.
  - intros La e Lb EL El. destruct (fb nd); cbn [app] in EL.
    + destruct La as [|x La]; cbn [app] in EL.
      * injection EL as <- <-. cbn in *. intros Hin.
        apply list_elem_of_fmap in Hin as (e' & Ee' & He').
        apply (Gone El). pose proof (Hin1 e' He') as X.
        rewrite <- Ee' in X. exact X.
      * injection EL as _ EL. apply (Hlater1 La e Lb EL El).
    + apply (Hlater1 La e Lb EL El).
  - intros x nx Hx Enx Elx.
    destruct (decide (x = a)) as [->|Nx].
    + assert (nx = nd) by congruence. subst nx. rewrite Elx in H.
      destruct H as (Pm & _ & _ & nd' & E' & Sn).
      apply same_node_fields in Sn as (_ & _ & _ & _ & _ & El'). cbn in El'.
      apply (Hrep1 a nd'); [rewrite Pm; exact Ha|exact E'|congruence].
    + specialize (Hoth x Nx).
      destruct (sim_lookup _ _ x nx (eq_sym Hoth) Enx) as (nx1 & Enx1 & Sn).
      apply same_node_fields in Sn as (_ & _ & _ & _ & _ & El').
      apply (Hrep1 x nx1); [|exact Enx1|congruence].
      destruct (is_loop nd).
      * destruct H as (Pm & _). rewrite Pm. exact Hx.
      * destruct H as (Pm & _). rewrite Pm in Hx.
        apply elem_of_cons in Hx as [->|Hx]; [contradiction|exact Hx].
Qed.

(** X12.  When [ExpireTimer] returns: a one-shot node whose callback was
    invoked has left the heap, its callback is not invoked again later in
    the same sweep, nor in any later sequence of calls; a repeating node
    of the heap is still in the heap, and still repeating. *)
Theorem oneshot_fires_once clock s fuel s' :
  sound s -> ExpireTimer clock fuel s = Ret s' ->
  exists L,
    fired s' = fired s ++ L /\
    (forall La e Lb, L = La ++ e :: Lb -> is_loop (snd e) = false ->
       (fst e ∉ Lb.*1) /\ (fst e ∉ _heap s') /\
       forall (os : list (op T)) r, run clock os s' = Ret r ->
         exists L', fired (snd r) = fired s' ++ L' /\ fst e ∉ L'.*1) /\
    (forall a nd, a ∈ _heap s -> mem s !! a = Some nd -> is_loop nd = true ->
       a ∈ _heap s' /\ exists nd', mem s' !! a = Some nd' /\ is_loop nd' = true).
Proof.
  intros W E. pose proof W as (Hh & _ & Hb).
  destruct (ExpireTimer_Ret _ _ _ _ E) as (_ & [(_ & ->)|(Hne & s2 & E2 & ->)]).
  - exists []. rewrite app_nil_r. split; [reflexivity|]. split.
    + intros La e Lb EL. destruct La; discriminate.
    + intros a nd Ha End El. split; [exact Ha|]. exists nd. split; assumption.
  - set (s1 := mkTimer true (_heap s) (_map s) (_count s) (mem s) (brk s)
                       (S (ticks s)) (fired s)) in *.
    assert (Hh1 : heap_inv s1) by (eapply heap_inv_same; [| |exact Hh]; reflexivity).
    destruct (expire_loop_fate clock _ fuel s1 s2 Hh1 E2)
      as (L & Ef & Hin & Hone & Hlater & Hrep).
    destruct (expire_loop_frame clock _ fuel _ _ E2) as (_ & Eb & _).
    exists L. split; [exact Ef|]. split; [|exact Hrep].
    intros La e Lb EL El.
    assert (He : e ∈ L) by (rewrite EL; apply elem_of_app; right; left).
    split; [apply (Hlater La e Lb EL El)|].
    split; [apply (Hone e He El)|].
    intros os r Er. apply (run_gone clock (fst e) os _ r Er).
    split; [apply (Hone e He El)|].
    cbn [brk set_mtx]. rewrite Eb. cbn [brk s1].
    apply (sound_heap_allocated s (fst e) W). apply (Hin e He).
Qed.

(** ** The tracked minimum of the polling loop *)

(** [AddTimer] of the derived class, once for each requested time. *)
Fixpoint Loop_schedule (clock : nat -> Z) (ts : list Z) (d : T) (f lp : bool)
  (l : MinHeapTimerLoop T) : outcome (MinHeapTimerLoop T) :=
  match ts with
  | [] => Ret l
  | t :: ts' =>
      match Loop_AddTimer clock t d f lp l with
      | Ret r => Loop_schedule clock ts' d f lp (snd r)
      | Blocked => Blocked
      | OutOfFuel => OutOfFuel
      end
  end.

(** X10.  After any sequence of [AddTimer] calls on the polling timer,
    none of which blocks, the tracked minimum is the least of its former
    value and the requested times (for a former value between 0 and
    [INT_MAX], as [TIMER_LOOP_TIME] is assumed to be). *)
Theorem tracked_minimum clock (ts : list Z) d f lp : forall (l : MinHeapTimerLoop T),
  mtx_ (base l) = false -> 0 <= min_timing_time_ms l <= INT_MAX ->
  Forall (fun t => 0 <= t) ts ->
  exists l', Loop_schedule clock ts d f lp l = Ret l' /\
    min_timing_time_ms l' = foldl Z.min (min_timing_time_ms l) ts /\
    mtx_ (base l') = false.
Proof.
  induction ts as [|t ts IH]; intros l Hx Hm Ht.
  - exists l. repeat split; assumption.
  - apply Forall_cons in Ht as [Ht Hts]. cbn [Loop_schedule foldl].
    unfold Loop_AddTimer. rewrite Hx. cbn [snd fst].
    cbn [Loop_addTimer snd min_timing_time_ms is_running base].
    match goal with |- exists l', Loop_schedule _ _ _ _ _ ?l1 = _ /\ _ =>
      destruct (IH l1) as (l' & E & Emin & Ex) end.
    + reflexivity.
    + cbn [min_timing_time_ms]. rewrite track_min_spec by assumption. lia.
    + exact Hts.
    + exists l'. split; [exact E|]. split; [|exact Ex].
      rewrite Emin. cbn [min_timing_time_ms]. rewrite track_min_spec by assumption.
      reflexivity.
Qed.

(** ** The period of the counter *)

Lemma wrap32_id c : INT_MIN <= c <= INT_MAX -> wrap32 c = c.
Proof. unfold wrap32, INT_MIN, INT_MAX. intros H. rewrite Z.mod_small; lia. Qed.

Lemma wrap32_range z : INT_MIN <= wrap32 z <= INT_MAX.
Proof.
  unfold wrap32, INT_MIN, INT_MAX.
  pose proof (Z.mod_pos_bound (z + 2 ^ 31) (2 ^ 32)). lia.
Qed.

(** X11.  [Count] steps through the 2^32 values of an [int]: drawn [k]
    times, the counter is back at its value exactly when [k] is a multiple
    of 2^32.  So an identifier is drawn again after 2^32 draws, and not
    before. *)
Theorem Count_period c k :
  INT_MIN <= c <= INT_MAX ->
  INT_MIN <= Nat.iter k Count c <= INT_MAX /\
  (Nat.iter k Count c = c <-> Z.of_nat k mod 2 ^ 32 = 0).
Proof.
  intros Hc.
  assert (E : Nat.iter k Count c = wrap32 (c + Z.of_nat k)).
  { rewrite <- (wrap32_id c Hc) at 1. apply Wrap.Count_iter. }
  rewrite E. split; [apply wrap32_range|].
  unfold wrap32. unfold INT_MIN, INT_MAX in Hc.
  set (a := c + 2 ^ 31). assert (Ha : 0 <= a < 2 ^ 32) by (unfold a; lia).
  replace (c + Z.of_nat k + 2 ^ 31) with (a + Z.of_nat k) by (unfold a; lia).
  rewrite <- (Z.add_mod_idemp_r a (Z.of_nat k) (2 ^ 32)) by lia.
  pose proof (Z.mod_pos_bound (Z.of_nat k) (2 ^ 32)) as Hr.
  set (r := Z.of_nat k mod 2 ^ 32) in *.
  destruct (Z_lt_le_dec (a + r) (2 ^ 32)) as [L|L].
  - rewrite Z.mod_small by lia. unfold a. lia.
  - replace (a + r) with ((a + r - 2 ^ 32) + 1 * 2 ^ 32) by lia.
    rewrite Z_mod_plus_full, Z.mod_small by lia. unfold a. lia.
Qed.

End Further.

(** ** The further properties at concrete states *)

Lemma unknown_cancel_holds_mutex_witness :
  (_map Example.two_timers !! 7 = None) /\
  (mtx_ (snd (DelTimer 7 Example.two_timers)) = true /\
  (forall timing d f lp,
     AddTimer (Example.frozen 0) timing d f lp (snd (DelTimer 7 Example.two_timers)) = Blocked) /\
  (forall fuel, ExpireTimer (Example.frozen 0) fuel (snd (DelTimer 7 Example.two_timers)) = Blocked) /\
  GetTimerNode (snd (DelTimer 7 Example.two_timers)) = Blocked /\
  (forall j, mtx_ (snd (DelTimer j (snd (DelTimer 7 Example.two_timers)))) = true)).
Proof.
  assert (H1 : _map Example.two_timers !! 7 = None).
  { vm_compute; reflexivity. }
  split; [exact H1|].
  exact (unknown_cancel_holds_mutex (Example.frozen 0) Example.two_timers 7 H1).
Defined.

Lemma mutex_held_only_by_unknown_cancel_witness :
  (mtx_ Example.two_timers = false) /\
  (step (Example.frozen 0) (Cancel (T := unit) 7) Example.two_timers = Ret (@nil Z, snd (DelTimer 7 Example.two_timers))) /\
  ((mtx_ (snd (@nil Z, snd (DelTimer 7 Example.two_timers))) = true <-> exists i, (Cancel (T := unit) 7) = Cancel i /\ _map Example.two_timers !! i = None)).
Proof.
  assert (H1 : mtx_ Example.two_timers = false).
  { reflexivity. }
  assert (H2 : step (Example.frozen 0) (Cancel (T := unit) 7) Example.two_timers = Ret (@nil Z, snd (DelTimer 7 Example.two_timers))).
  { reflexivity. }
  split; [exact H1|].
  split; [exact H2|].
  exact (mutex_held_only_by_unknown_cancel (Example.frozen 0) (Cancel 7) Example.two_timers (@nil Z, snd (DelTimer 7 Example.two_timers)) H1 H2).
Defined.

Lemma AddTimer_links_witness :
  (sound Example.two_timers) /\
  (mtx_ Example.two_timers = false) /\
  (exists s',
    AddTimer (Example.frozen 0) 10 tt true false Example.two_timers = Ret (Count (_count Example.two_timers), s') /\
    mtx_ s' = false /\ sound s' /\
    _heap s' ≡ₚ brk Example.two_timers :: _heap Example.two_timers /\
    (exists nd, mem s' !! brk Example.two_timers = Some nd /\ _heap s' !! idx nd = Some (brk Example.two_timers) /\
       id nd = Count (_count Example.two_timers) /\
       expire_ms nd = wrap64 (CurrentTime_ms (Example.frozen 0) (ticks Example.two_timers) + 10) /\
       timing_time_ms nd = 10 /\ data nd = tt /\ fb nd = true /\ is_loop nd = false) /\
    (forall x, x <> brk Example.two_timers ->
       with_idx 0 <$> (mem s' !! x) = with_idx 0 <$> (mem Example.two_timers !! x)) /\
    (_map Example.two_timers !! Count (_count Example.two_timers) = None ->
       _map s' = <[Count (_count Example.two_timers) := brk Example.two_timers]> (_map Example.two_timers)) /\
    (forall y, _map Example.two_timers !! Count (_count Example.two_timers) = Some y -> _map s' = _map Example.two_timers)).
Proof.
  assert (H1 : sound Example.two_timers).
  { exact (wf_sound _ two_timers_wf). }
  assert (H2 : mtx_ Example.two_timers = false).
  { reflexivity. }
  split; [exact H1|].
  split; [exact H2|].
  exact (AddTimer_links (Example.frozen 0) 10 tt true false Example.two_timers H1 H2).
Defined.

Lemma AddTimer_DelTimer_witness :
  (sound Example.two_timers) /\
  (mtx_ Example.two_timers = false) /\
  (_map Example.two_timers !! Count (_count Example.two_timers) = None) /\
  (exists s',
    AddTimer (Example.frozen 0) 10 tt true false Example.two_timers = Ret (Count (_count Example.two_timers), s') /\
    fst (DelTimer (Count (_count Example.two_timers)) s') = true /\
    _heap (snd (DelTimer (Count (_count Example.two_timers)) s')) ≡ₚ _heap Example.two_timers /\
    _map (snd (DelTimer (Count (_count Example.two_timers)) s')) = _map Example.two_timers /\
    mem_sim (mem Example.two_timers) (mem (snd (DelTimer (Count (_count Example.two_timers)) s'))) /\
    mtx_ (snd (DelTimer (Count (_count Example.two_timers)) s')) = false /\
    sound (snd (DelTimer (Count (_count Example.two_timers)) s')) /\
    _count (snd (DelTimer (Count (_count Example.two_timers)) s')) = Count (_count Example.two_timers) /\
    brk (snd (DelTimer (Count (_count Example.two_timers)) s')) = S (brk Example.two_timers)).
Proof.
  assert (H1 : sound Example.two_timers).
  { exact (wf_sound _ two_timers_wf). }
  assert (H2 : mtx_ Example.two_timers = false).
  { reflexivity. }
  assert (H3 : _map Example.two_timers !! Count (_count Example.two_timers) = None).
  { vm_compute; reflexivity. }
  split; [exact H1|].
  split; [exact H2|].
  split; [exact H3|].
  exact (AddTimer_DelTimer (Example.frozen 0) 10 tt true false Example.two_timers H1 H2 H3).
Defined.

Lemma AddTimer_appends_latest_witness :
  (sound Example.two_timers) /\
  (mtx_ Example.two_timers = false) /\
  ((forall x, x ∈ _heap Example.two_timers ->
     expire_of (mem Example.two_timers) x <= wrap64 (CurrentTime_ms (Example.frozen 0) (ticks Example.two_timers) + 10))) /\
  (exists s',
    AddTimer (Example.frozen 0) 10 tt true false Example.two_timers = Ret (Count (_count Example.two_timers), s') /\
    _heap s' = _heap Example.two_timers ++ [brk Example.two_timers] /\
    mem s' = <[brk Example.two_timers := new_node 10 tt true false (CurrentTime_ms (Example.frozen 0) (ticks Example.two_timers))
                                 (Count (_count Example.two_timers)) (length (_heap Example.two_timers))]> (mem Example.two_timers)).
Proof.
  assert (H1 : sound Example.two_timers).
  { exact (wf_sound _ two_timers_wf). }
  assert (H2 : mtx_ Example.two_timers = false).
  { reflexivity. }
  assert (H3 : (forall x, x ∈ _heap Example.two_timers ->
     expire_of (mem Example.two_timers) x <= wrap64 (CurrentTime_ms (Example.frozen 0) (ticks Example.two_timers) + 10))).
  { intros x Hx. change (x ∈ [0; 1]%nat) in Hx.
    apply elem_of_cons in Hx as [->|Hx]; [vm_compute; discriminate|].
    apply list_elem_of_singleton in Hx as ->. vm_compute; discriminate. }
  split; [exact H1|].
  split; [exact H2|].
  split; [exact H3|].
  exact (AddTimer_appends_latest (Example.frozen 0) 10 tt true false Example.two_timers H1 H2 H3).
Defined.

Lemma GetTimerNode_snapshot_witness :
  (sound Example.two_timers) /\
  (mtx_ Example.two_timers = false) /\
  (GetTimerNode Example.two_timers = Ret (length (_heap Example.two_timers), _heap Example.two_timers) /\
  NoDup (_heap Example.two_timers) /\
  (forall a x, head (_heap Example.two_timers) = Some a -> x ∈ _heap Example.two_timers ->
     expire_of (mem Example.two_timers) a <= expire_of (mem Example.two_timers) x) /\
  (wf Example.two_timers -> size (_map Example.two_timers) = length (_heap Example.two_timers))).
Proof.
  assert (H1 : sound Example.two_timers).
  { exact (wf_sound _ two_timers_wf). }
  assert (H2 : mtx_ Example.two_timers = false).
  { reflexivity. }
  split; [exact H1|].
  split; [exact H2|].
  exact (GetTimerNode_snapshot Example.two_timers H1 H2).
Defined.

Lemma sweep_order_witness :
  (heap_inv Example.scheduled_B) /\
  (mtx_ Example.scheduled_B = false) /\
  ((length (_heap Example.scheduled_B) < 2%nat)%nat) /\
  (reschedules_later (Example.frozen 20) (CurrentTime_ms (Example.frozen 20) (ticks Example.scheduled_B)) (ticks Example.scheduled_B) Example.scheduled_B) /\
  (exists s' L,
    ExpireTimer (Example.frozen 20) 2%nat Example.scheduled_B = Ret s' /\
    fired s' = fired Example.scheduled_B ++ L /\
    Sorted Z.le (deadlines L) /\
    Forall (fun d => d <= CurrentTime_ms (Example.frozen 20) (ticks Example.scheduled_B)) (deadlines L) /\
    (length (_heap s') <= length (_heap Example.scheduled_B))%nat /\
    heap_inv s' /\ mtx_ s' = false /\
    (forall x nx, x ∈ _heap s' -> mem s' !! x = Some nx -> is_loop nx = true ->
       exists n0, x ∈ _heap Example.scheduled_B /\ mem Example.scheduled_B !! x = Some n0 /\ is_loop n0 = true) /\
    L.*1 ≡ₚ to_fire (CurrentTime_ms (Example.frozen 20) (ticks Example.scheduled_B)) Example.scheduled_B /\
    (forall e, e ∈ L ->
       fst e ∈ _heap Example.scheduled_B /\
       exists n0, mem Example.scheduled_B !! fst e = Some n0 /\ same_node n0 (snd e)) /\
    (forall x, x ∈ _heap s' ->
       CurrentTime_ms (Example.frozen 20) (ticks Example.scheduled_B) < expire_of (mem s') x)).
Proof.
  assert (H1 : heap_inv Example.scheduled_B).
  { exact (wf_heap_inv _ scheduled_B_wf). }
  assert (H2 : mtx_ Example.scheduled_B = false).
  { reflexivity. }
  assert (H3 : (length (_heap Example.scheduled_B) < 2%nat)%nat).
  { vm_compute; lia. }
  assert (H4 : reschedules_later (Example.frozen 20) (CurrentTime_ms (Example.frozen 20) (ticks Example.scheduled_B)) (ticks Example.scheduled_B) Example.scheduled_B).
  { apply reschedules_later_frozen; [vm_compute; discriminate|vm_compute; reflexivity]. }
  split; [exact H1|].
  split; [exact H2|].
  split; [exact H3|].
  split; [exact H4|].
  exact (sweep_order (Example.frozen 20) Example.scheduled_B 2%nat H1 H2 H3 H4).
Defined.

Lemma oneshot_fires_once_witness :
  (sound Example.scenario_A) /\
  (ExpireTimer Example.clock_A 5%nat Example.scenario_A = Ret (snd (Example.after Example.clock_A [Schedule 50 tt true false; Schedule 10 tt true false; Schedule 30 tt true false; Sweep 5]))) /\
  (exists L,
    fired (snd (Example.after Example.clock_A [Schedule 50 tt true false; Schedule 10 tt true false; Schedule 30 tt true false; Sweep 5])) = fired Example.scenario_A ++ L /\
    (forall La e Lb, L = La ++ e :: Lb -> is_loop (snd e) = false ->
       (fst e ∉ Lb.*1) /\ (fst e ∉ _heap (snd (Example.after Example.clock_A [Schedule 50 tt true false; Schedule 10 tt true false; Schedule 30 tt true false; Sweep 5]))) /\
       forall (os : list (op unit)) r, run Example.clock_A os (snd (Example.after Example.clock_A [Schedule 50 tt true false; Schedule 10 tt true false; Schedule 30 tt true false; Sweep 5])) = Ret r ->
         exists L', fired (snd r) = fired (snd (Example.after Example.clock_A [Schedule 50 tt true false; Schedule 10 tt true false; Schedule 30 tt true false; Sweep 5])) ++ L' /\ fst e ∉ L'.*1) /\
    (forall a nd, a ∈ _heap Example.scenario_A -> mem Example.scenario_A !! a = Some nd -> is_loop nd = true ->
       a ∈ _heap (snd (Example.after Example.clock_A [Schedule 50 tt true false; Schedule 10 tt true false; Schedule 30 tt true false; Sweep 5])) /\ exists nd', mem (snd (Example.after Example.clock_A [Schedule 50 tt true false; Schedule 10 tt true false; Schedule 30 tt true false; Sweep 5])) !! a = Some nd' /\ is_loop nd' = true)).
Proof.
  assert (H1 : sound Example.scenario_A).
  { exact (wf_sound _ scenario_A_wf). }
  assert (H2 : ExpireTimer Example.clock_A 5%nat Example.scenario_A = Ret (snd (Example.after Example.clock_A [Schedule 50 tt true false; Schedule 10 tt true false; Schedule 30 tt true false; Sweep 5]))).
  { vm_compute; reflexivity. }
  split; [exact H1|].
  split; [exact H2|].
  exact (oneshot_fires_once Example.clock_A Example.scenario_A 5%nat (snd (Example.after Example.clock_A [Schedule 50 tt true false; Schedule 10 tt true false; Schedule 30 tt true false; Sweep 5])) H1 H2).
Defined.

Lemma tracked_minimum_witness :
  (mtx_ (base (init_loop (T := unit) 1000)) = false) /\
  (0 <= min_timing_time_ms (init_loop (T := unit) 1000) <= INT_MAX) /\
  (Forall (fun t => 0 <= t) [5; 20; 3]) /\
  (exists l', Loop_schedule (Example.frozen 0) [5; 20; 3] tt true false (init_loop (T := unit) 1000) = Ret l' /\
    min_timing_time_ms l' = foldl Z.min (min_timing_time_ms (init_loop (T := unit) 1000)) [5; 20; 3] /\
    mtx_ (base l') = false).
Proof.
  assert (H1 : mtx_ (base (init_loop (T := unit) 1000)) = false).
  { reflexivity. }
  assert (H2 : 0 <= min_timing_time_ms (init_loop (T := unit) 1000) <= INT_MAX).
  { vm_compute; split; discriminate. }
  assert (H3 : Forall (fun t => 0 <= t) [5; 20; 3]).
  { repeat constructor; lia. }
  split; [exact H1|].
  split; [exact H2|].
  split; [exact H3|].
  exact (tracked_minimum (Example.frozen 0) [5; 20; 3] tt true false (init_loop (T := unit) 1000) H1 H2 H3).
Defined.

Lemma Count_period_witness :
  (INT_MIN <= 5 <= INT_MAX) /\
  (INT_MIN <= Nat.iter 3%nat Count 5 <= INT_MAX /\
  (Nat.iter 3%nat Count 5 = 5 <-> Z.of_nat 3%nat mod 2 ^ 32 = 0)).
Proof.
  assert (H1 : INT_MIN <= 5 <= INT_MAX).
  { vm_compute; split; discriminate. }
  split; [exact H1|].
  exact (Count_period 5 3%nat H1).
Defined.

Lemma _shiftDown_reports_witness :
  fst (_shiftDown 0 [0; 1; 2]%nat (mem Example.scenario_A)) = true /\
  exists c, (0 < c < length [0; 1; 2]%nat - 1)%nat /\ parent c = 0%nat /\
            key [0; 1; 2]%nat (mem Example.scenario_A) c
            < key [0; 1; 2]%nat (mem Example.scenario_A) 0.
Proof.
  assert (H1 : fst (_shiftDown 0 [0; 1; 2]%nat (mem Example.scenario_A)) = true).
  { vm_compute; reflexivity. }
  split; [exact H1|].
  exact (proj2 (_shiftDown_reports 0 [0; 1; 2]%nat (mem Example.scenario_A)) H1).
Defined.
